(** * Task scheduler with observers (Task3/main.py)

    A shallow embedding of the task execution engine of [Task3/main.py]:
    the [Task] base class with its observer list, the three task
    subclasses, [TaskFactory.create_task], and [TaskScheduler] with its
    pool of five worker threads.

    Python objects live in a store and are handled through references,
    so that a logger shared by several tasks, or an observer attached
    twice, is one object.  Methods are computations in a state and
    exception monad over that store.  Everything observable (a write to
    [status], a call of [update], a line on standard output, a sleep) is
    appended to a trace kept in the store. *)

From stdpp Require Import gmap strings list pretty.
From Stdlib Require Import ZArith Lia.

Open Scope string_scope.
Open Scope list_scope.

(** ** Values and exceptions *)

(** The scalars a decoded JSON document can hold. *)
Inductive pyval :=
| VNone
| VBool (b : bool)
| VInt (z : Z)
| VStr (s : string).

(** [str(v)], as used by f-strings. *)
Definition py_str (v : pyval) : string :=
  match v with
  | VNone => "None"
  | VBool true => "True"
  | VBool false => "False"
  | VInt z => pretty z
  | VStr s => s
  end.

(** [v == s] for a string literal [s]. *)
Definition py_eq_str (v : pyval) (s : string) : bool :=
  match v with
  | VStr s' => bool_decide (s' = s)
  | _ => false
  end.

(** Exceptions.  [BaseOnly] stands for the classes that derive from
    [BaseException] but not from [Exception] ([KeyboardInterrupt],
    [SystemExit], [GeneratorExit]): [except Exception] lets them pass. *)
Inductive pyexn :=
| KeyError (key : string)
| ValueError (msg : string)
| AttributeError (msg : string)
| UserException (cls : string)
| BaseOnly (cls : string).

Definition is_Exception (e : pyexn) : bool :=
  match e with
  | BaseOnly _ => false
  | _ => true
  end.

(** ** Objects *)

(** References to objects in the store. *)
Definition loc := nat.

Inductive TaskClass := EmailTask | DataBackupTask | ReportGenerationTask.

(** The fields set by [Task.__init__]. *)
Record Task := mkTask {
  task_class : TaskClass;
  task_id : pyval;
  name : pyval;
  status : string;
  created_at : Z;
  _observers : list loc
}.

(** What one call of [update(task, old_status, new_status)] does: the
    lines it prints, and the exception it raises, if any.  The callback
    receives the reference of the task and reads its fields.  As the
    contract of observers demands, it writes to no task and to no
    observer list, and it keeps no state between calls. *)
Definition callback : Type :=
  loc -> Task -> string -> string -> list string * option pyexn.

(** Observers: the stock [TaskLogger], or any other subclass of the
    abstract class [Observer], given by its [update] method. *)
Inductive Observer :=
| TaskLogger
| UserObserver (cb : callback).

(** The right arrow of the log line, U+2192 in UTF-8. *)
Definition arrow : string :=
  String (Ascii.ascii_of_nat 226)
    (String (Ascii.ascii_of_nat 134)
       (String (Ascii.ascii_of_nat 146) EmptyString)).

(** The line of [TaskLogger.update]. *)
Definition log_line (tk : Task) (old_status new_status : string) : string :=
  "[LOG] Task " +:+ py_str (task_id tk) +:+ " (" +:+ py_str (name tk)
  +:+ ") status changed: " +:+ old_status +:+ " " +:+ arrow +:+ " "
  +:+ new_status.

(** [obs.update], by the class of the object.  [TaskLogger.update] is
    one call of [print]: over the standard output [out], which says for
    each line what writing it raises, it prints its line or raises what
    the stream raises, [UnicodeEncodeError] for instance when the
    encoding of the stream has no U+2192. *)
Definition update (out : string -> option pyexn) (o : Observer) : callback :=
  match o with
  | TaskLogger => fun _ tk old_status new_status =>
      match out (log_line tk old_status new_status) with
      | None => ([log_line tk old_status new_status], None)
      | Some e => ([], Some e)
      end
  | UserObserver cb => cb
  end.

(** ** The store *)

(** What an execution leaves in the trace: a write to the [status] field
    of a task, with the value it replaces; a call of [update] on the
    object behind an observer reference, with its arguments; a sleep; a
    line printed. *)
Inductive event :=
| EvStatus (t : loc) (old_status new_status : string)
| EvUpdate (o t : loc) (old_status new_status : string)
| EvSleep (secs : nat)
| EvPrint (line : string).

(** The store, with the part of the environment: [sleep_fault w t] is
    [Some e] when [time.sleep] in the thread that runs task [t] is
    interrupted by the exception [e]; [stdout_fault w line] is [Some e]
    when writing [line] to [sys.stdout] raises [e], as it does with
    [UnicodeEncodeError] for a line that the encoding of the stream
    cannot represent. *)
Record World := mkWorld {
  heap_tasks : gmap loc Task;
  heap_obs : gmap loc Observer;
  now : Z;
  sleep_fault : loc -> option pyexn;
  stdout_fault : string -> option pyexn;
  trace : list event
}.

Definition emit (evs : list event) (w : World) : World :=
  mkWorld (heap_tasks w) (heap_obs w) (now w) (sleep_fault w) (stdout_fault w)
          (trace w ++ evs).

Definition put_task (t : loc) (tk : Task) (w : World) : World :=
  mkWorld (<[t := tk]> (heap_tasks w)) (heap_obs w) (now w) (sleep_fault w)
          (stdout_fault w) (trace w).

Definition put_obs (o : loc) (ob : Observer) (w : World) : World :=
  mkWorld (heap_tasks w) (<[o := ob]> (heap_obs w)) (now w) (sleep_fault w)
          (stdout_fault w) (trace w).

(** ** The monad of methods

    A method call ends normally with a value or raises; the store is
    kept in both cases, as Python does not roll anything back. *)
Inductive Result (A : Type) :=
| Ok (a : A)
| Raise (e : pyexn).
Arguments Ok {A} a.
Arguments Raise {A} e.

Definition M (A : Type) : Type := World -> Result A * World.

Definition ret {A} (a : A) : M A := fun w => (Ok a, w).

Definition raise {A} (e : pyexn) : M A := fun w => (Raise e, w).

Definition bind {A B} (m : M A) (k : A -> M B) : M B :=
  fun w =>
    match m w with
    | (Ok a, w') => k a w'
    | (Raise e, w') => (Raise e, w')
    end.

(** [try: body except Exception: handler] *)
Definition try_except {A} (body : M A) (handler : pyexn -> M A) : M A :=
  fun w =>
    match body w with
    | (Ok a, w') => (Ok a, w')
    | (Raise e, w') =>
        if is_Exception e then handler e w' else (Raise e, w')
    end.

Declare Scope py_scope.
Delimit Scope py_scope with py.
Notation "x <- m ;; k" := (bind m (fun x => k))
  (at level 100, m at next level, k at level 200, right associativity)
  : py_scope.
Notation "m ;; k" := (bind m (fun _ => k))
  (at level 100, k at level 200, right associativity) : py_scope.
Open Scope py_scope.

(** ** class Task *)

(** Dereferencing [self].  A reference that names no task cannot arise
    from Python code; the store answers it with an [AttributeError]. *)
Definition self_task (t : loc) : M Task :=
  fun w =>
    match heap_tasks w !! t with
    | Some tk => (Ok tk, w)
    | None => (Raise (AttributeError "task"), w)
    end.

Definition set_field (t : loc) (f : Task -> Task) : M unit :=
  tk <- self_task t ;;
  fun w => (Ok tt, put_task t (f tk) w).

Definition with_status (s : string) (tk : Task) : Task :=
  mkTask (task_class tk) (task_id tk) (name tk) s (created_at tk)
         (_observers tk).

Definition with_observers (l : list loc) (tk : Task) : Task :=
  mkTask (task_class tk) (task_id tk) (name tk) (status tk) (created_at tk) l.

(** [Task.__init__], called through the constructor of a subclass: a new
    object with status ["Pending"] and no observers. *)
Definition new_task (c : TaskClass) (id nm : pyval) : M loc :=
  fun w =>
    let t := fresh (dom (heap_tasks w)) in
    (Ok t, put_task t (mkTask c id nm "Pending" (now w) []) w).

(** [Task.attach] *)
Definition attach (t o : loc) : M unit :=
  set_field t (fun tk => with_observers (_observers tk ++ [o]) tk).

(** [obs.update(self, old_status, new_status)] for the object behind [o].
    A reference that names no observer stands for an object without a
    usable [update]: the call raises [AttributeError]. *)
Definition call_update (o t : loc) (old_status new_status : string) : M unit :=
  fun w =>
    let w1 := emit [EvUpdate o t old_status new_status] w in
    match heap_obs w !! o, heap_tasks w !! t with
    | Some ob, Some tk =>
        let '(lines, r) :=
          update (stdout_fault w) ob t tk old_status new_status in
        let w2 := emit (EvPrint <$> lines) w1 in
        match r with
        | None => (Ok tt, w2)
        | Some e => (Raise e, w2)
        end
    | _, _ => (Raise (AttributeError "update"), w1)
    end.

(** The loop of [Task.notify] over the observer list.  The list is read
    once: no [update] can change it while the loop runs. *)
Fixpoint notify_loop (obs : list loc) (t : loc) (old_status new_status : string)
  : M unit :=
  match obs with
  | [] => ret tt
  | o :: rest =>
      call_update o t old_status new_status ;;
      notify_loop rest t old_status new_status
  end.

(** [Task.notify] *)
Definition notify (t : loc) (old_status new_status : string) : M unit :=
  tk <- self_task t ;;
  notify_loop (_observers tk) t old_status new_status.

(** [self.status = new_status] *)
Definition write_status (t : loc) (new_status : string) : M unit :=
  tk <- self_task t ;;
  fun w =>
    (Ok tt, emit [EvStatus t (status tk) new_status]
              (put_task t (with_status new_status tk) w)).

(** [Task.set_status] *)
Definition set_status (t : loc) (new_status : string) : M unit :=
  tk <- self_task t ;;
  let old := status tk in
  write_status t new_status ;;
  notify t old new_status.

(** ** The task subclasses *)

(** [time.sleep(secs)] in the thread that runs task [t]. *)
Definition time_sleep (t : loc) (secs : nat) : M unit :=
  fun w =>
    match sleep_fault w t with
    | Some e => (Raise e, w)
    | None => (Ok tt, emit [EvSleep secs] w)
    end.

(** [print(line)] *)
Definition print (line : string) : M unit :=
  fun w =>
    match stdout_fault w line with
    | Some e => (Raise e, w)
    | None => (Ok tt, emit [EvPrint line] w)
    end.

Definition sleep_secs (c : TaskClass) : nat :=
  match c with
  | EmailTask => 2
  | DataBackupTask => 3
  | ReportGenerationTask => 1
  end.

Definition banner (c : TaskClass) (id : pyval) : string :=
  match c with
  | EmailTask => "[EmailTask] Sending email for Task " +:+ py_str id
  | DataBackupTask => "[DataBackupTask] Backing up data for Task " +:+ py_str id
  | ReportGenerationTask =>
      "[ReportGenerationTask] Generating report for Task " +:+ py_str id
  end.

(** The simulated work between the two status changes. *)
Definition work (c : TaskClass) (t : loc) : M unit :=
  time_sleep t (sleep_secs c) ;;
  tk <- self_task t ;;
  print (banner c (task_id tk)).

(** What cuts short the work of task [t], [None] when the work goes
    through: the exception that interrupts the sleep, or else the one
    that the standard output raises for the line of the task. *)
Definition io_fault (w : World) (t : loc) : option pyexn :=
  match sleep_fault w t with
  | Some e => Some e
  | None =>
      match heap_tasks w !! t with
      | Some tk => stdout_fault w (banner (task_class tk) (task_id tk))
      | None => None
      end
  end.

(** The [run] method of class [c]; the three classes differ in
    [sleep_secs] and [banner] only. *)
Definition run_class (c : TaskClass) (t : loc) : M unit :=
  try_except
    (set_status t "Running" ;;
     work c t ;;
     set_status t "Completed")
    (fun _ => set_status t "Failed").

(** [task.run()]: the method of the class of the object. *)
Definition run (t : loc) : M unit :=
  tk <- self_task t ;;
  run_class (task_class tk) t.

(** ** class TaskFactory *)

(** [d[key]] on a dict *)
Definition getitem (d : gmap string pyval) (key : string) : M pyval :=
  match d !! key with
  | Some v => ret v
  | None => raise (KeyError key)
  end.

(** [TaskFactory.create_task] *)
Definition create_task (task_json : gmap string pyval) : M loc :=
  task_type <- getitem task_json "type" ;;
  task_id <- getitem task_json "task_id" ;;
  name <- getitem task_json "name" ;;
  if py_eq_str task_type "email" then new_task EmailTask task_id name
  else if py_eq_str task_type "backup" then new_task DataBackupTask task_id name
  else if py_eq_str task_type "report" then
    new_task ReportGenerationTask task_id name
  else raise (ValueError ("Unknown task type: " +:+ py_str task_type)).

(** ** class TaskScheduler *)

Record TaskScheduler := mkScheduler {
  tasks : list loc;
  logger : loc
}.

(** [TaskScheduler.__init__]: an empty task list and a new [TaskLogger]. *)
Definition TaskScheduler_init : M TaskScheduler :=
  fun w =>
    let l := fresh (dom (heap_obs w)) in
    (Ok (mkScheduler [] l), put_obs l TaskLogger w).

(** [TaskScheduler.add_task] *)
Definition add_task (s : TaskScheduler) (t : loc) : M TaskScheduler :=
  attach t (logger s) ;;
  ret (mkScheduler (tasks s ++ [t]) (logger s)).

(** ** Reading the trace *)

(** The events added between two stores of one execution. *)
Definition events_since (w w' : World) : list event :=
  drop (length (trace w)) (trace w').

(** The calls of [update] in a run of events: observer, task, old and
    new status, in the order of the calls. *)
Definition update_calls (evs : list event) : list (loc * loc * string * string) :=
  omap (fun e => match e with
                 | EvUpdate o t a b => Some (o, t, a, b)
                 | _ => None
                 end) evs.

(** The values written to the [status] field of task [t], in order. *)
Definition status_writes (t : loc) (evs : list event) : list string :=
  omap (fun e => match e with
                 | EvStatus t' _ b => if decide (t' = t) then Some b else None
                 | _ => None
                 end) evs.

(** The statuses task [t] passes through from store [w] to store [w']:
    the one it has in [w], then every value written since. *)
Definition status_path (t : loc) (w w' : World) : list string :=
  from_option (fun tk => [status tk]) [] (heap_tasks w !! t)
  ++ status_writes t (events_since w w').

(** The status of task [t], if [t] names a task. *)
Definition status_of (w : World) (t : loc) : option string :=
  status <$> heap_tasks w !! t.

(** ** What the observers of a store do *)

(** The exception raised by [update] of the object behind [o] when it is
    called for task [t], [None] when the call returns. *)
Definition obs_raises (w : World) (t : loc) (old_status new_status : string)
  (o : loc) : option pyexn :=
  match heap_obs w !! o, heap_tasks w !! t with
  | Some ob, Some tk =>
      snd (update (stdout_fault w) ob t tk old_status new_status)
  | _, _ => Some (AttributeError "update")
  end.

(** The events of one call of [update]. *)
Definition update_events (w : World) (t : loc) (old_status new_status : string)
  (o : loc) : list event :=
  EvUpdate o t old_status new_status ::
  match heap_obs w !! o, heap_tasks w !! t with
  | Some ob, Some tk =>
      EvPrint <$> fst (update (stdout_fault w) ob t tk old_status new_status)
  | _, _ => []
  end.

(** The first exception raised along an observer list. *)
Fixpoint first_exn (w : World) (t : loc) (old_status new_status : string)
  (obs : list loc) : option pyexn :=
  match obs with
  | [] => None
  | o :: rest =>
      match obs_raises w t old_status new_status o with
      | Some e => Some e
      | None => first_exn w t old_status new_status rest
      end
  end.

(** The entries of an observer list up to and including the first one
    whose [update] raises; the whole list when none does. *)
Fixpoint notified (w : World) (t : loc) (old_status new_status : string)
  (obs : list loc) : list loc :=
  match obs with
  | [] => []
  | o :: rest =>
      o :: match obs_raises w t old_status new_status o with
           | Some _ => []
           | None => notified w t old_status new_status rest
           end
  end.

Definition result_of (r : option pyexn) : Result unit :=
  match r with
  | None => Ok tt
  | Some e => Raise e
  end.

(** An observer honours the contract of a notification sink when its
    [update] returns normally on every call; for a [TaskLogger] that is
    when the standard output takes every log line. *)
Definition quiet (w : World) (ob : Observer) : Prop :=
  forall t tk old_status new_status,
    snd (update (stdout_fault w) ob t tk old_status new_status) = None.

(** Every entry of the observer list of task [t] is a quiet observer. *)
Definition quiet_observers (w : World) (t : loc) : Prop :=
  forall tk o, heap_tasks w !! t = Some tk -> o ∈ _observers tk ->
    exists ob, heap_obs w !! o = Some ob /\ quiet w ob.

(** ** Worker threads

    In the pool several calls of [run] are in progress at once, so [run]
    is also given step by step.  A program counter says where the thread
    stands in [run_class c t]; one step is one read or write of a field,
    one call of [update], or the simulated work. *)

(** The three calls of [set_status] in [run]. *)
Inductive stage := SRunning | SCompleted | SFailed.

Definition stage_name (st : stage) : string :=
  match st with
  | SRunning => "Running"
  | SCompleted => "Completed"
  | SFailed => "Failed"
  end.

Inductive pc :=
| PcRead (st : stage)                         (* old = self.status *)
| PcWrite (st : stage) (old : string)         (* self.status = new_status *)
| PcNotify (st : stage) (old : string) (i : nat) (* the loop of notify, at index i *)
| PcWork                                      (* time.sleep, print *)
| PcRet (r : option pyexn).                   (* run has returned or raised *)

(** Where control goes when a step of stage [st] raises [e]: to the
    handler from inside the [try] block if [e] is an [Exception], out of
    [run] otherwise, and always out of [run] from inside the handler. *)
Definition catch (in_handler : bool) (e : pyexn) : pc :=
  if in_handler then PcRet (Some e)
  else if is_Exception e then PcRead SFailed
  else PcRet (Some e).

Definition in_handler (st : stage) : bool :=
  match st with
  | SFailed => true
  | _ => false
  end.

(** Where control goes when [set_status] of stage [st] returns. *)
Definition after_stage (st : stage) : pc :=
  match st with
  | SRunning => PcWork
  | SCompleted => PcRet None
  | SFailed => PcRet None
  end.

(** One step of the thread that executes [run_class c t]. *)
Definition thread_step (c : TaskClass) (t : loc) (p : pc) (w : World)
  : option (pc * World) :=
  match p with
  | PcRead st =>
      match self_task t w with
      | (Ok tk, w') => Some (PcWrite st (status tk), w')
      | (Raise e, w') => Some (catch (in_handler st) e, w')
      end
  | PcWrite st old =>
      match write_status t (stage_name st) w with
      | (Ok _, w') => Some (PcNotify st old 0, w')
      | (Raise e, w') => Some (catch (in_handler st) e, w')
      end
  | PcNotify st old i =>
      match self_task t w with
      | (Ok tk, w') =>
          match _observers tk !! i with
          | Some o =>
              match call_update o t old (stage_name st) w' with
              | (Ok _, w'') => Some (PcNotify st old (S i), w'')
              | (Raise e, w'') => Some (catch (in_handler st) e, w'')
              end
          | None => Some (after_stage st, w')
          end
      | (Raise e, w') => Some (catch (in_handler st) e, w')
      end
  | PcWork =>
      match work c t w with
      | (Ok _, w') => Some (PcRead SCompleted, w')
      | (Raise e, w') => Some (catch false e, w')
      end
  | PcRet _ => None
  end.

(** Running a thread on its own for at most [fuel] steps. *)
Fixpoint thread_exec (fuel : nat) (c : TaskClass) (t : loc) (p : pc) (w : World)
  : pc * World :=
  match fuel with
  | 0 => (p, w)
  | S fuel' =>
      match thread_step c t p w with
      | Some (p', w') => thread_exec fuel' c t p' w'
      | None => (p, w)
      end
  end.

(** Where a stage goes with the outcome of its [set_status]. *)
Definition stage_exit (st : stage) (r : option pyexn) : pc :=
  match r with
  | None => after_stage st
  | Some e => catch (in_handler st) e
  end.

(** ** The pool of [run_all]

    [ThreadPoolExecutor] is the standard library's: [submit] puts a work
    item at the end of a queue and returns its future; a worker thread
    that is free takes the item at the head of the queue and calls it,
    then stores the outcome in the future; there are never more than
    [max_workers] workers; [result()] waits for the future and raises
    again what the call raised; leaving the [with] block waits until the
    queue is empty and every worker has finished.  The pool is given as
    a transition relation whose steps may interleave in any way. *)

Definition max_workers : nat := 5.

(** A work item: the index of its future, and the bound method
    [task.run], that is the task and the class that [run] comes from. *)
Record WorkItem := mkItem {
  item_future : nat;
  item_task : loc;
  item_class : TaskClass
}.

(** Where the calling thread stands in [run_all]. *)
Inductive main_pc :=
| MSubmit (k : nat)              (* the list comprehension, at tasks[k] *)
| MResult (j : nat)              (* the for loop, at futures[j] *)
| MShutdown (r : option pyexn)   (* leaving the with block *)
| MReturned (r : option pyexn).  (* run_all has returned or raised *)

Record Pool := mkPool {
  main : main_pc;
  work_queue : list WorkItem;
  workers : list (WorkItem * pc);
  futures : gmap nat (option pyexn);
  taken : list nat
}.

(** [taken] is a history: the futures of the items in the order in
    which workers took them from the queue. *)

Definition init_pool : Pool := mkPool (MSubmit 0) [] [] ∅ [].

Inductive pool_step (s : TaskScheduler) : Pool * World -> Pool * World -> Prop :=
| step_submit k t tk q ws fs ad w :
    tasks s !! k = Some t ->
    heap_tasks w !! t = Some tk ->
    pool_step s
      (mkPool (MSubmit k) q ws fs ad, w)
      (mkPool (MSubmit (S k)) (q ++ [mkItem k t (task_class tk)]) ws fs ad, w)
| step_submit_raise k t q ws fs ad w :
    tasks s !! k = Some t ->
    heap_tasks w !! t = None ->
    pool_step s
      (mkPool (MSubmit k) q ws fs ad, w)
      (mkPool (MShutdown (Some (AttributeError "task"))) q ws fs ad, w)
| step_submitted k q ws fs ad w :
    tasks s !! k = None ->
    pool_step s
      (mkPool (MSubmit k) q ws fs ad, w)
      (mkPool (MResult 0) q ws fs ad, w)
| step_result j q ws fs ad w :
    j < length (tasks s) ->
    fs !! j = Some None ->
    pool_step s
      (mkPool (MResult j) q ws fs ad, w)
      (mkPool (MResult (S j)) q ws fs ad, w)
| step_result_raise j e q ws fs ad w :
    j < length (tasks s) ->
    fs !! j = Some (Some e) ->
    pool_step s
      (mkPool (MResult j) q ws fs ad, w)
      (mkPool (MShutdown (Some e)) q ws fs ad, w)
| step_results_done j q ws fs ad w :
    length (tasks s) <= j ->
    pool_step s
      (mkPool (MResult j) q ws fs ad, w)
      (mkPool (MShutdown None) q ws fs ad, w)
| step_shutdown r fs ad w :
    pool_step s
      (mkPool (MShutdown r) [] [] fs ad, w)
      (mkPool (MReturned r) [] [] fs ad, w)
| step_take m it q ws fs ad w :
    length ws < max_workers ->
    pool_step s
      (mkPool m (it :: q) ws fs ad, w)
      (mkPool m q (ws ++ [(it, PcRead SRunning)]) fs
              (ad ++ [item_future it]), w)
| step_thread m q ws1 it p ws2 fs ad w p' w' :
    thread_step (item_class it) (item_task it) p w = Some (p', w') ->
    pool_step s
      (mkPool m q (ws1 ++ (it, p) :: ws2) fs ad, w)
      (mkPool m q (ws1 ++ (it, p') :: ws2) fs ad, w')
| step_finish m q ws1 it r ws2 fs ad w :
    pool_step s
      (mkPool m q (ws1 ++ (it, PcRet r) :: ws2) fs ad, w)
      (mkPool m q (ws1 ++ ws2) (<[item_future it := r]> fs) ad, w).

(** The configurations [run_all] can reach from store [w0]. *)
Definition reachable (s : TaskScheduler) (w0 : World) (c : Pool * World) : Prop :=
  rtc (pool_step s) (init_pool, w0) c.


(** The events of [notify] over an observer list: those of the calls
    that are made, in order. *)
Definition notify_events (w : World) (t : loc) (old_status new_status : string)
  (obs : list loc) : list event :=
  concat (update_events w t old_status new_status
            <$> notified w t old_status new_status obs).

(** How often the observer behind [o] is called in a run of events. *)
Definition times_called (o : loc) (evs : list event) : nat :=
  length (filter (fun c => c.1.1.1 = o) (update_calls evs)).

(** ** Sample objects and stores *)

(** An observer whose [update] always raises. *)
Definition failing_observer : Observer :=
  UserObserver (fun _ _ _ _ => ([], Some (UserException "RuntimeError"))).

(** An observer whose [update] raises when told of the new status [s]. *)
Definition fails_on (s : string) : Observer :=
  UserObserver (fun _ _ _ new_status =>
    if decide (new_status = s) then ([], Some (UserException "RuntimeError"))
    else ([], None)).

Definition sample_task (st : string) (obs : list loc) : Task :=
  mkTask EmailTask (VInt 1) (VStr "x") st 0 obs.

(** One email task under reference [0], in status [st], with the
    observers [obs] attached in this order, over the observer heap [os]. *)
Definition sample_world (st : string) (obs : list loc) (os : list Observer)
  : World :=
  mkWorld {[ 0 := sample_task st obs ]} (list_to_map (zip (seq 0 (length os)) os))
          0 (fun _ => None) (fun _ => None) [].

(** The same store in which the sleep of every task is interrupted by
    [e], so that the work of every task is cut short by [e]. *)
Definition with_fault (e : pyexn) (w : World) : World :=
  mkWorld (heap_tasks w) (heap_obs w) (now w) (fun _ => Some e) (stdout_fault w)
          (trace w).

(** A description record with the three fields. *)
Definition description (ty id nm : pyval) : gmap string pyval :=
  <["type" := ty]> (<["task_id" := id]> (<["name" := nm]> ∅)).

(** ** Invariants of the pool *)

(** Two stores of one call of [run_all] hold the same objects: only the
    [status] fields and the trace differ. *)
Definition frame (w0 w : World) : Prop :=
  heap_obs w = heap_obs w0
  /\ (sleep_fault w = sleep_fault w0 /\ stdout_fault w = stdout_fault w0)
  /\ forall t, with_status EmptyString <$> heap_tasks w !! t
              = with_status EmptyString <$> heap_tasks w0 !! t.

(** What the program counter of a thread says about the status of its
    task: inside the loop of [notify] the status is the one just
    written, and a [run] that has returned has left a terminal status. *)
Definition pc_ok (p : pc) (st : option string) : Prop :=
  match p with
  | PcNotify sg _ _ => st = Some (stage_name sg)
  | PcRet None => st = Some "Completed" \/ st = Some "Failed"
  | _ => True
  end.

Definition worker_futures (p : Pool) : list nat :=
  (fun x => item_future x.1) <$> workers p.

Definition queue_futures (p : Pool) : list nat :=
  item_future <$> work_queue p.

(** A work item stands for [tasks[k].run] with [k] the index of its
    future. *)
Definition item_ok (s : TaskScheduler) (it : WorkItem) : Prop :=
  tasks s !! item_future it = Some (item_task it).

(** The bookkeeping of the pool: the bound on the workers, the order of
    the queue, and where each submitted item is. *)
Record pool_fifo (s : TaskScheduler) (p : Pool) : Prop := mkFifo {
  fifo_capacity : length (workers p) <= max_workers;
  fifo_order :
    exists m, taken p ++ queue_futures p = seq 0 m
              /\ m <= length (tasks s)
              /\ (forall k, main p = MSubmit k -> m = k)
              /\ (forall j, main p = MResult j -> m = length (tasks s));
  fifo_queue : forall it, it ∈ work_queue p -> item_ok s it;
  fifo_running : forall it c, (it, c) ∈ workers p -> item_ok s it;
  fifo_nodup : NoDup (worker_futures p);
  fifo_workers :
    forall k, k ∈ worker_futures p -> k ∈ taken p /\ futures p !! k = None;
  fifo_done : forall k, is_Some (futures p !! k) -> k ∈ taken p;
  fifo_taken :
    forall k, k ∈ taken p -> k ∈ worker_futures p \/ is_Some (futures p !! k)
}.

(** What the calling thread knows about the futures. *)
Definition main_ok (n : nat) (m : main_pc) (fs : gmap nat (option pyexn)) : Prop :=
  match m with
  | MSubmit _ => True
  | MResult j => forall i, i < j -> fs !! i = Some None
  | MShutdown r | MReturned r =>
      match r with
      | None => forall i, i < n -> fs !! i = Some None
      | Some e => exists j, fs !! j = Some (Some e)
                            /\ forall i, i < j -> fs !! i = Some None
      end
  end.

Definition terminal (st : option string) : Prop :=
  st = Some "Completed" \/ st = Some "Failed".

(** The state of the pool and the store, for a scheduler whose tasks are
    distinct objects of the store [w0] in which [run_all] was called. *)
Record pool_inv (s : TaskScheduler) (w0 : World) (p : Pool) (w : World)
  : Prop := mkInv {
  inv_frame : frame w0 w;
  inv_submitted :
    (forall k, main p <> MSubmit k) ->
    taken p ++ queue_futures p = seq 0 (length (tasks s));
  inv_main : main_ok (length (tasks s)) (main p) (futures p);
  inv_returned :
    forall r, main p = MReturned r -> work_queue p = [] /\ workers p = [];
  inv_threads :
    forall it c, (it, c) ∈ workers p -> pc_ok c (status_of w (item_task it));
  inv_finished :
    forall k t, tasks s !! k = Some t -> futures p !! k = Some None ->
      terminal (status_of w t)
}.

(** A work item carries the class of its task. *)
Definition pool_classes (w0 : World) (p : Pool) : Prop :=
  forall it, it ∈ work_queue p \/ (exists c, (it, c) ∈ workers p) ->
    task_class <$> heap_tasks w0 !! item_task it = Some (item_class it).

(** The status a call of [run] leaves when every observer is quiet. *)
Definition final_status (f : option pyexn) : string :=
  match f with
  | None => "Completed"
  | Some _ => "Failed"
  end.

(** With quiet observers and faults of class [Exception] the thread is
    in the handler exactly when the work has raised, and never raises
    out of [run]. *)
Definition pc_quiet (f : option pyexn) (p : pc) (st : option string) : Prop :=
  let stage_ok sg :=
    match sg with
    | SRunning => True
    | SCompleted => f = None
    | SFailed => is_Some f
    end in
  match p with
  | PcRead sg | PcWrite sg _ | PcNotify sg _ _ => stage_ok sg
  | PcWork => True
  | PcRet None => st = Some (final_status f)
  | PcRet (Some _) => False
  end.

Record pool_quiet (s : TaskScheduler) (w0 : World) (p : Pool) (w : World)
  : Prop := mkQuiet {
  quiet_threads :
    forall it c, (it, c) ∈ workers p ->
      pc_quiet (io_fault w0 (item_task it)) c (status_of w (item_task it));
  quiet_finished :
    forall k t r, tasks s !! k = Some t -> futures p !! k = Some r ->
      r = None /\ status_of w t = Some (final_status (io_fault w0 t))
}.

(** ** Schedules

    A schedule resolves the choices of the transition relation: which
    thread moves next. *)
Inductive choice :=
| Main
| Take
| Worker (i : nat).

Definition main_step (s : TaskScheduler) (p : Pool) (w : World) : option Pool :=
  let '(mkPool m q ws fs ad) := p in
  match m with
  | MSubmit k =>
      match tasks s !! k with
      | Some t =>
          match heap_tasks w !! t with
          | Some tk =>
              Some (mkPool (MSubmit (S k))
                           (q ++ [mkItem k t (task_class tk)]) ws fs ad)
          | None =>
              Some (mkPool (MShutdown (Some (AttributeError "task"))) q ws fs ad)
          end
      | None => Some (mkPool (MResult 0) q ws fs ad)
      end
  | MResult j =>
      if decide (j < length (tasks s)) then
        match fs !! j with
        | Some None => Some (mkPool (MResult (S j)) q ws fs ad)
        | Some (Some e) => Some (mkPool (MShutdown (Some e)) q ws fs ad)
        | None => None
        end
      else Some (mkPool (MShutdown None) q ws fs ad)
  | MShutdown r =>
      match q, ws with
      | [], [] => Some (mkPool (MReturned r) [] [] fs ad)
      | _, _ => None
      end
  | MReturned _ => None
  end.

Definition pool_do (s : TaskScheduler) (ch : choice) (c : Pool * World)
  : option (Pool * World) :=
  let '(p, w) := c in
  match ch with
  | Main => (fun p' => (p', w)) <$> main_step s p w
  | Take =>
      match work_queue p with
      | it :: q =>
          if decide (length (workers p) < max_workers) then
            Some (mkPool (main p) q (workers p ++ [(it, PcRead SRunning)])
                         (futures p) (taken p ++ [item_future it]), w)
          else None
      | [] => None
      end
  | Worker i =>
      match workers p !! i with
      | Some (it, PcRet r) =>
          Some (mkPool (main p) (work_queue p)
                       (take i (workers p) ++ drop (S i) (workers p))
                       (<[item_future it := r]> (futures p)) (taken p), w)
      | Some (it, c) =>
          match thread_step (item_class it) (item_task it) c w with
          | Some (c', w') =>
              Some (mkPool (main p) (work_queue p)
                           (take i (workers p) ++ (it, c') :: drop (S i) (workers p))
                           (futures p) (taken p), w')
          | None => None
          end
      | None => None
      end
  end.

(** Following a schedule as far as its choices are enabled. *)
Fixpoint pool_run (s : TaskScheduler) (chs : list choice) (c : Pool * World)
  : Pool * World :=
  match chs with
  | [] => c
  | ch :: rest =>
      match pool_do s ch c with
      | Some c' => pool_run s rest c'
      | None => pool_run s rest c
      end
  end.

(** The schedule that lets the calling thread go first, then fills the
    pool, then moves the oldest worker. *)
Definition pool_next (s : TaskScheduler) (c : Pool * World)
  : option (Pool * World) :=
  match pool_do s Main c with
  | Some c' => Some c'
  | None =>
      match pool_do s Take c with
      | Some c' => Some c'
      | None => pool_do s (Worker 0) c
      end
  end.

Fixpoint pool_exec (fuel : nat) (s : TaskScheduler) (c : Pool * World)
  : Pool * World :=
  match fuel with
  | 0 => c
  | S fuel' =>
      match pool_next s c with
      | Some c' => pool_exec fuel' s c'
      | None => c
      end
  end.

(** [run_all] under the schedule [pool_next]: the exception it raises,
    if any, and the store it leaves; [None] when the fuel runs out. *)
Definition run_all (fuel : nat) (s : TaskScheduler) (w : World)
  : option (option pyexn * World) :=
  match pool_exec fuel s (init_pool, w) with
  | (mkPool (MReturned r) _ _ _ _, w') => Some (r, w')
  | _ => None
  end.

(** ** A bound on the length of executions *)

(** The number of observers of task [t]. *)
Definition n_obs (w : World) (t : loc) : nat :=
  from_option (fun tk => length (_observers tk)) 0 (heap_tasks w !! t).

(** An upper bound on the steps a thread has left, for a task with [n]
    observers: one call of [set_status] takes [n + 3] steps, and from
    any point of the [try] block the handler may still have to run. *)
Definition pc_cost (n : nat) (p : pc) : nat :=
  let base sg :=
    match sg with
    | SFailed => 0
    | SCompleted => n + 4
    | SRunning => 2 * n + 9
    end in
  match p with
  | PcRead sg => base sg + n + 3
  | PcWrite sg _ => base sg + n + 2
  | PcNotify sg _ i => base sg + 1 + (n - i)
  | PcWork => 2 * n + 8
  | PcRet _ => 0
  end.

Definition item_cost (w : World) (t : loc) : nat :=
  pc_cost (n_obs w t) (PcRead SRunning).

Definition main_cost (s : TaskScheduler) (w : World) (m : main_pc) : nat :=
  match m with
  | MSubmit k =>
      sum_list_with (fun t => 3 + item_cost w t) (drop k (tasks s))
      + length (tasks s) + 4
  | MResult j => length (tasks s) - j + 2
  | MShutdown _ => 1
  | MReturned _ => 0
  end.

Definition pool_measure (s : TaskScheduler) (c : Pool * World) : nat :=
  let '(p, w) := c in
  main_cost s w (main p)
  + sum_list_with (fun it => 2 + item_cost w (item_task it)) (work_queue p)
  + sum_list_with (fun x : WorkItem * pc =>
                     1 + pc_cost (n_obs w (item_task x.1)) x.2) (workers p).

(** ** The demonstration of the source *)

Definition empty_world : World :=
  mkWorld ∅ ∅ 0 (fun _ => None) (fun _ => None) [].

(** The four descriptions of [json_input]. *)
Definition demo_input : list (gmap string pyval) :=
  [ description (VStr "email") (VInt 1) (VStr "Send Welcome Email");
    description (VStr "backup") (VInt 2) (VStr "Daily DB Backup");
    description (VStr "report") (VInt 3) (VStr "Sales Report");
    description (VStr "email") (VInt 4) (VStr "Another Email") ].

(** The loop that creates the tasks through the factory and adds them. *)
Fixpoint add_all (s : TaskScheduler) (ds : list (gmap string pyval))
  : M TaskScheduler :=
  match ds with
  | [] => ret s
  | d :: rest =>
      task <- create_task d ;;
      s' <- add_task s task ;;
      add_all s' rest
  end.

Definition demo_setup (ds : list (gmap string pyval)) : M TaskScheduler :=
  s <- TaskScheduler_init ;;
  add_all s ds.

(** The scheduler and the store just before [scheduler.run_all()], for
    the four tasks of the source and for twice as many. *)
Definition demo_scheduler : TaskScheduler := mkScheduler [0; 1; 2; 3] 0.
Definition demo_world : World := (demo_setup demo_input empty_world).2.
Definition crowd_scheduler : TaskScheduler :=
  mkScheduler [0; 1; 2; 3; 4; 5; 6; 7] 0.
Definition crowd_world : World :=
  (demo_setup (demo_input ++ demo_input) empty_world).2.

(** A schedule for the crowd: everything is submitted, the pool is
    filled, and three workers take turns. *)
Definition crowd_schedule : list choice :=
  replicate 9 Main ++ replicate 8 Take
  ++ [Worker 2; Worker 0; Worker 2; Worker 4; Worker 0; Worker 2].

(** The store of the demonstration after a failing observer has been
    made and attached to the second task, behind the logger. *)
Definition spoiled_world : World :=
  (attach 1 1 (put_obs 1 failing_observer demo_world)).2.

(** The store of the demonstration in which the sleep of the first task
    is interrupted by an [OSError], after an observer that raises when
    it is told of Failed has been made and attached to that task,
    behind the logger. *)
Definition failing_task_world : World :=
  let w := (attach 0 1 (put_obs 1 (fails_on "Failed") demo_world)).2 in
  mkWorld (heap_tasks w) (heap_obs w) (now w)
          (fun t => if decide (t = 0) then Some (UserException "OSError")
                    else None)
          (stdout_fault w) (trace w).

(** A standard output with an ASCII encoding: it raises
    [UnicodeEncodeError] for a line that has any other character. *)
Definition ascii_only (line : string) : bool :=
  forallb (fun c => Nat.ltb (Ascii.nat_of_ascii c) 128)
          (String.list_ascii_of_string line).

Definition on_ascii_stdout (w : World) : World :=
  mkWorld (heap_tasks w) (heap_obs w) (now w) (sleep_fault w)
          (fun line => if ascii_only line then None
                       else Some (UserException "UnicodeEncodeError"))
          (trace w).

(** ** More ways to read the trace *)

(** What a run of events shows of the work and of the loggers: the
    sleeps and the lines printed, in the order in which they happen. *)
Definition is_output (e : event) : bool :=
  match e with
  | EvSleep _ | EvPrint _ => true
  | _ => false
  end.

Definition output (evs : list event) : list event :=
  filter (fun e => is_output e) evs.

(** Event [e] names task [t]: it is a write to the status of [t] or a
    call of [update] made for [t]. *)
Definition names (t : loc) (e : event) : bool :=
  match e with
  | EvStatus t' _ _ | EvUpdate _ t' _ _ => bool_decide (t' = t)
  | _ => false
  end.

(** The events of task [t] in a run of events, in order. *)
Definition task_events (t : loc) (evs : list event) : list event :=
  filter (fun e => names t e) evs.

(** Event [e] names no task other than [t]. *)
Definition about (t : loc) (e : event) : Prop :=
  match e with
  | EvStatus t' _ _ | EvUpdate _ t' _ _ => t' = t
  | _ => True
  end.

(** The status writes a thread has made when it stands at [p]: the
    handler is entered after Running or after Completed has been
    written, and an exception of class [Exception] leaves [run] only
    from the handler. *)
Definition writes_at (p : pc) (ws : list string) : Prop :=
  match p with
  | PcRead SRunning | PcWrite SRunning _ => ws = []
  | PcNotify SRunning _ _ | PcWork | PcRead SCompleted | PcWrite SCompleted _ =>
      ws = ["Running"]
  | PcNotify SCompleted _ _ => ws = ["Running"; "Completed"]
  | PcRead SFailed | PcWrite SFailed _ =>
      ws = ["Running"] \/ ws = ["Running"; "Completed"]
  | PcNotify SFailed _ _ | PcRet None =>
      ws = ["Running"; "Failed"] \/ ws = ["Running"; "Completed"; "Failed"]
      \/ (p = PcRet None /\ ws = ["Running"; "Completed"])
  | PcRet (Some e) =>
      ws = ["Running"; "Failed"] \/ ws = ["Running"; "Completed"; "Failed"]
      \/ (is_Exception e = false
          /\ (ws = ["Running"] \/ ws = ["Running"; "Completed"]))
  end.

(** ** Descriptions the factory accepts *)

(** The value of the type field that selects class [c] in
    [create_task]. *)
Definition type_name (c : TaskClass) : string :=
  match c with
  | EmailTask => "email"
  | DataBackupTask => "backup"
  | ReportGenerationTask => "report"
  end.

(** Description [d] has the three fields, with a type that selects
    class [c], and id and name as given. *)
Definition describes (d : gmap string pyval) (x : TaskClass * pyval * pyval)
  : Prop :=
  d !! "type" = Some (VStr (type_name x.1.1))
  /\ d !! "task_id" = Some x.1.2
  /\ d !! "name" = Some x.2.

(** The object [Task.__init__] makes, once the scheduler has attached
    its logger [l]. *)
Definition added_task (l : loc) (created : Z) (x : TaskClass * pyval * pyval)
  : Task :=
  mkTask x.1.1 x.1.2 x.2 "Pending" created [l].

(** What the four descriptions of [json_input] describe. *)
Definition demo_specs : list (TaskClass * pyval * pyval) :=
  [ (EmailTask, VInt 1, VStr "Send Welcome Email");
    (DataBackupTask, VInt 2, VStr "Daily DB Backup");
    (ReportGenerationTask, VInt 3, VStr "Sales Report");
    (EmailTask, VInt 4, VStr "Another Email") ].

(** ** Threads of the pool and a [run] on its own *)

(** Each task of the scheduler is where a [run] of its own, started in
    the store [w0] in which [run_all] was called, is after some number
    [n] of steps: it has the same object, the events that name it are
    the same, and the thread that runs it, or its future, stands where
    the lone [run] stands.  The trace of the pool is that of these lone
    runs, [evss] with one entry per task, shuffled into one another.  A
    work item carries the class of its task. *)
Definition pool_solo (s : TaskScheduler) (w0 : World) (p : Pool) (w : World)
  : Prop :=
  (forall it, it ∈ work_queue p \/ (exists c, (it, c) ∈ workers p) ->
     task_class <$> heap_tasks w0 !! item_task it = Some (item_class it))
  /\ exists evss : list (list event),
       length evss = length (tasks s)
       /\ events_since w0 w ≡ₚ concat evss
       /\ forall k t tk,
            tasks s !! k = Some t -> heap_tasks w0 !! t = Some tk ->
            exists n pc1 w1,
              thread_exec n (task_class tk) t (PcRead SRunning) w0 = (pc1, w1)
              /\ evss !! k = Some (events_since w0 w1)
              /\ heap_tasks w !! t = heap_tasks w1 !! t
              /\ task_events t (trace w) = task_events t (trace w1)
              /\ (k ∉ taken p -> n = 0)
              /\ (forall it c,
                    (it, c) ∈ workers p -> item_future it = k -> c = pc1)
              /\ (forall r, futures p !! k = Some r -> pc1 = PcRet r).

(** ** The demonstration, around [run_all] *)

(** The demonstration up to the call of [run_all]: the set-up, then the
    opening line. *)
Definition demo_start (ds : list (gmap string pyval)) : M TaskScheduler :=
  s <- demo_setup ds ;;
  print "=== Starting Task Scheduler ===" ;;
  ret s.

(** The demonstration after [run_all]: the closing line, unless
    [run_all] has raised. *)
Definition demo_finish (r : option pyexn) : M unit :=
  match r with
  | None => print "=== All Tasks Finished ==="
  | Some e => raise e
  end.

(** * Properties *)

(** ** Stores and traces *)

Lemma emit_emit evs1 evs2 w : emit evs2 (emit evs1 w) = emit (evs1 ++ evs2) w.
Proof. unfold emit; simpl. by rewrite <- app_assoc. Qed.

Lemma emit_nil w : emit [] w = w.
Proof. destruct w; unfold emit; simpl. by rewrite app_nil_r. Qed.

Lemma events_since_emit evs w : events_since w (emit evs w) = evs.
Proof. unfold events_since; simpl. by rewrite drop_app_length. Qed.

Lemma events_since_put_emit evs t tk w :
  events_since w (emit evs (put_task t tk w)) = evs.
Proof. unfold events_since; simpl. by rewrite drop_app_length. Qed.

Lemma update_calls_app evs1 evs2 :
  update_calls (evs1 ++ evs2) = update_calls evs1 ++ update_calls evs2.
Proof. apply omap_app. Qed.

Lemma status_writes_app t evs1 evs2 :
  status_writes t (evs1 ++ evs2) = status_writes t evs1 ++ status_writes t evs2.
Proof. apply omap_app. Qed.

Lemma update_calls_prints lines : update_calls (EvPrint <$> lines) = [].
Proof. induction lines; [done | by simpl]. Qed.

Lemma status_writes_prints t lines : status_writes t (EvPrint <$> lines) = [].
Proof. induction lines; [done | by simpl]. Qed.

Lemma update_calls_update_events w t a b o :
  update_calls (update_events w t a b o) = [(o, t, a, b)].
Proof.
  unfold update_events. cbn [update_calls omap list_omap].
  change (list_omap ?f ?l) with (omap f l).
  destruct (heap_obs w !! o), (heap_tasks w !! t); simpl; try done.
  f_equal. apply update_calls_prints.
Qed.

Lemma status_writes_update_events t' w t a b o :
  status_writes t' (update_events w t a b o) = [].
Proof.
  unfold update_events. cbn [status_writes omap list_omap].
  destruct (heap_obs w !! o), (heap_tasks w !! t); simpl; try done.
  apply status_writes_prints.
Qed.

(** ** Notification *)

Lemma call_update_eq o t a b w :
  call_update o t a b w
  = (result_of (obs_raises w t a b o), emit (update_events w t a b o) w).
Proof.
  unfold call_update, obs_raises, update_events.
  destruct (heap_obs w !! o) as [ob|]; [|done].
  destruct (heap_tasks w !! t) as [tk|]; [|done].
  destruct (update (stdout_fault w) ob t tk a b) as [lines [e|]]; simpl;
    by rewrite emit_emit.
Qed.

(** What the observers do depends on the two heaps and on the standard
    output only. *)
Lemma obs_raises_heaps w w' t a b o :
  heap_tasks w !! t = heap_tasks w' !! t -> heap_obs w = heap_obs w' ->
  stdout_fault w = stdout_fault w' ->
  obs_raises w t a b o = obs_raises w' t a b o.
Proof. unfold obs_raises. by intros -> -> ->. Qed.

Lemma update_events_heaps w w' t a b o :
  heap_tasks w !! t = heap_tasks w' !! t -> heap_obs w = heap_obs w' ->
  stdout_fault w = stdout_fault w' ->
  update_events w t a b o = update_events w' t a b o.
Proof. unfold update_events. by intros -> -> ->. Qed.

Lemma first_exn_heaps w w' t a b obs :
  heap_tasks w !! t = heap_tasks w' !! t -> heap_obs w = heap_obs w' ->
  stdout_fault w = stdout_fault w' ->
  first_exn w t a b obs = first_exn w' t a b obs.
Proof.
  intros Ht Ho Hs. induction obs as [|o rest IH]; [done|]. cbn [first_exn].
  by rewrite (obs_raises_heaps w w' t a b o Ht Ho Hs), IH.
Qed.

Lemma notified_heaps w w' t a b obs :
  heap_tasks w !! t = heap_tasks w' !! t -> heap_obs w = heap_obs w' ->
  stdout_fault w = stdout_fault w' ->
  notified w t a b obs = notified w' t a b obs.
Proof.
  intros Ht Ho Hs. induction obs as [|o rest IH]; [done|]. cbn [notified].
  by rewrite (obs_raises_heaps w w' t a b o Ht Ho Hs), IH.
Qed.

Lemma notify_events_heaps w w' t a b obs :
  heap_tasks w !! t = heap_tasks w' !! t -> heap_obs w = heap_obs w' ->
  stdout_fault w = stdout_fault w' ->
  notify_events w t a b obs = notify_events w' t a b obs.
Proof.
  intros Ht Ho Hs. unfold notify_events.
  rewrite (notified_heaps w w' t a b obs Ht Ho Hs). f_equal.
  apply list_fmap_ext. intros _ o _. by apply update_events_heaps.
Qed.

Lemma notify_loop_eq obs t a b w :
  notify_loop obs t a b w
  = (result_of (first_exn w t a b obs), emit (notify_events w t a b obs) w).
Proof.
  revert w. induction obs as [|o rest IH]; intros w.
  - unfold notify_events; simpl. by rewrite emit_nil.
  - cbn [notify_loop]. unfold bind at 1. rewrite call_update_eq.
    unfold notify_events. cbn [first_exn notified fmap list_fmap concat].
    destruct (obs_raises w t a b o) as [e|] eqn:Ho; cbn [result_of].
    + simpl. by rewrite app_nil_r.
    + rewrite IH, emit_emit.
      rewrite (first_exn_heaps (emit _ w) w), (notify_events_heaps (emit _ w) w);
        done.
Qed.

Lemma notify_eq t tk a b w :
  heap_tasks w !! t = Some tk ->
  notify t a b w
  = (result_of (first_exn w t a b (_observers tk)),
     emit (notify_events w t a b (_observers tk)) w).
Proof.
  intros Ht. unfold notify, bind, self_task. rewrite Ht.
  apply notify_loop_eq.
Qed.

Lemma update_calls_notify_events w t a b obs :
  update_calls (notify_events w t a b obs)
  = (fun o => (o, t, a, b)) <$> notified w t a b obs.
Proof.
  unfold notify_events.
  induction (notified w t a b obs) as [|o l IH]; [done|].
  cbn [fmap list_fmap concat]. rewrite update_calls_app, IH.
  by rewrite update_calls_update_events.
Qed.

Lemma status_writes_notify_events t' w t a b obs :
  status_writes t' (notify_events w t a b obs) = [].
Proof.
  unfold notify_events.
  induction (notified w t a b obs) as [|o l IH]; [done|].
  cbn [fmap list_fmap concat]. rewrite status_writes_app, IH.
  by rewrite status_writes_update_events.
Qed.

(** [set_status] in closed form: the field is written first, then the
    observers of the list are called on the store that holds the new
    status. *)
Lemma set_status_eq t tk new_status w :
  heap_tasks w !! t = Some tk ->
  let w1 := put_task t (with_status new_status tk) w in
  set_status t new_status w
  = (result_of (first_exn w1 t (status tk) new_status (_observers tk)),
     emit (EvStatus t (status tk) new_status
             :: notify_events w1 t (status tk) new_status (_observers tk)) w1).
Proof.
  intros Ht w1. unfold set_status, bind at 1, self_task at 1. rewrite Ht.
  unfold bind at 1, write_status, bind at 1, self_task at 1. rewrite Ht.
  fold w1.
  erewrite notify_eq; last first.
  { simpl. rewrite lookup_insert_eq. reflexivity. }
  cbn [_observers with_status].
  rewrite (first_exn_heaps (emit _ w1) w1), (notify_events_heaps (emit _ w1) w1);
    [|done..].
  by rewrite emit_emit.
Qed.

(** With quiet observers nothing is raised and every entry is called. *)
Lemma quiet_obs_raises w t tk o a b :
  heap_tasks w !! t = Some tk ->
  (exists ob, heap_obs w !! o = Some ob /\ quiet w ob) ->
  obs_raises w t a b o = None.
Proof.
  intros Ht (ob & Ho & Hq). unfold obs_raises. rewrite Ho, Ht. apply Hq.
Qed.

Lemma quiet_first_exn w t tk a b obs :
  heap_tasks w !! t = Some tk ->
  (forall o, o ∈ obs -> exists ob, heap_obs w !! o = Some ob /\ quiet w ob) ->
  first_exn w t a b obs = None /\ notified w t a b obs = obs.
Proof.
  intros Ht. induction obs as [|o rest IH]; intros Hq; [done|].
  cbn [first_exn notified].
  rewrite (quiet_obs_raises w t tk o a b Ht) by (apply Hq; left).
  destruct IH as [IH1 IH2]; [intros o' Ho'; apply Hq; by right|].
  by rewrite IH1, IH2.
Qed.

(** ** [Task.set_status] *)

Lemma events_since_trace w w' evs :
  trace w' = trace w ++ evs -> events_since w w' = evs.
Proof. unfold events_since. intros ->. by rewrite drop_app_length. Qed.

(** What one call of [set_status] does, whatever the observers do. *)
Lemma set_status_spec w t tk new_status r w' :
  heap_tasks w !! t = Some tk ->
  set_status t new_status w = (r, w') ->
  heap_tasks w' = <[t := with_status new_status tk]> (heap_tasks w)
  /\ heap_obs w' = heap_obs w
  /\ (exists evs,
        events_since w w' = EvStatus t (status tk) new_status :: evs
        /\ (forall t', status_writes t' evs = [])
        /\ update_calls evs
           = (fun o => (o, t, status tk, new_status))
               <$> notified w' t (status tk) new_status (_observers tk))
  /\ r = result_of (first_exn w' t (status tk) new_status (_observers tk)).
Proof.
  intros Ht Hrun. rewrite (set_status_eq t tk new_status w Ht) in Hrun.
  injection Hrun as <- <-.
  set (w1 := put_task t (with_status new_status tk) w).
  split; [done|]. split; [done|]. split.
  - exists (notify_events w1 t (status tk) new_status (_observers tk)).
    split; [by apply events_since_trace|].
    split; [intros t'; apply status_writes_notify_events|].
    rewrite update_calls_notify_events.
    by rewrite (notified_heaps (emit _ w1) w1).
  - by rewrite (first_exn_heaps (emit _ w1) w1).
Qed.

Lemma notified_prefix w t a b obs : notified w t a b obs `prefix_of` obs.
Proof.
  induction obs as [|o rest IH]; [done|]. cbn [notified].
  destruct (obs_raises w t a b o).
  - by apply prefix_cons, prefix_nil.
  - by apply prefix_cons.
Qed.

Lemma notified_all w t a b obs :
  first_exn w t a b obs = None -> notified w t a b obs = obs.
Proof.
  induction obs as [|o rest IH]; [done|]. cbn [first_exn notified].
  destruct (obs_raises w t a b o); [done|]. intros H. by rewrite IH.
Qed.

(** C3, as amended.  [set_status] records the old status, overwrites
    the field, and then calls the observers of the list in attachment
    order, once per entry, with the task, the old and the new status,
    up to and including the first entry whose [update] raises; that
    exception leaves [set_status] and the entries behind it are not
    called.  When no [update] raises every entry is called and
    [set_status] returns. *)
Theorem set_status_notifies_in_order w t tk new_status r w' :
  heap_tasks w !! t = Some tk ->
  set_status t new_status w = (r, w') ->
  let old := status tk in
  let reached := notified w' t old new_status (_observers tk) in
  heap_tasks w' !! t = Some (with_status new_status tk)
  /\ (exists evs,
        events_since w w' = EvStatus t old new_status :: evs
        /\ status_writes t evs = []
        /\ update_calls evs = (fun o => (o, t, old, new_status)) <$> reached)
  /\ reached `prefix_of` _observers tk
  /\ (match first_exn w' t old new_status (_observers tk) with
      | Some e => r = Raise e
      | None => r = Ok tt /\ reached = _observers tk
      end).
Proof.
  intros Ht Hrun old reached.
  destruct (set_status_spec w t tk new_status r w' Ht Hrun)
    as (Hheap & _ & (evs & Hev & Hst & Hcalls) & Hr).
  split; [by rewrite Hheap, lookup_insert_eq|].
  split; [exists evs; split_and!; [done|apply Hst|done]|].
  split; [apply notified_prefix|].
  subst reached old.
  destruct (first_exn w' t (status tk) new_status (_observers tk)) eqn:Hf.
  - done.
  - split; [done|]. by apply notified_all.
Qed.

Lemma set_status_notifies_in_order_witness :
  let w := sample_world "Pending" [0; 1] [TaskLogger; TaskLogger] in
  let tk := sample_task "Pending" [0; 1] in
  heap_tasks w !! 0 = Some tk
  /\ heap_tasks (set_status 0 "Running" w).2 !! 0
     = Some (with_status "Running" tk).
Proof.
  intros w tk. split; [vm_compute; reflexivity|].
  apply (set_status_notifies_in_order w 0 tk "Running"
           (set_status 0 "Running" w).1 (set_status 0 "Running" w).2).
  - vm_compute; reflexivity.
  - apply surjective_pairing.
Defined.

(** C3 as stated fails when an [update] raises: with a failing observer
    attached before the logger, [set_status] calls the failing observer
    and never the logger. *)
Lemma set_status_stops_at_failing_observer :
  let w := sample_world "Pending" [0; 1] [failing_observer; TaskLogger] in
  let w' := (set_status 0 "Running" w).2 in
  heap_tasks w !! 0 = Some (sample_task "Pending" [0; 1])
  /\ update_calls (events_since w w') = [(0, 0, "Pending", "Running")]
  /\ update_calls (events_since w w')
     <> (fun o => (o, 0, "Pending", "Running")) <$> [0; 1].
Proof. vm_compute. split_and!; [reflexivity|reflexivity|discriminate]. Qed.

(** C10, as amended.  [set_status] has no guard: called with the status
    the task already has it writes the field again and notifies the
    observers with equal old and new status, as for any other value
    (every entry once when no [update] raises, otherwise up to the
    first one that raises); and any string at all is accepted as the
    new status. *)
Theorem set_status_has_no_guard w t tk r w' :
  heap_tasks w !! t = Some tk ->
  set_status t (status tk) w = (r, w') ->
  let s := status tk in
  let reached := notified w' t s s (_observers tk) in
  heap_tasks w' !! t = Some tk
  /\ (exists evs,
        events_since w w' = EvStatus t s s :: evs
        /\ update_calls evs = (fun o => (o, t, s, s)) <$> reached)
  /\ (first_exn w' t s s (_observers tk) = None ->
      r = Ok tt /\ reached = _observers tk)
  /\ (forall any, status_of (set_status t any w).2 t = Some any).
Proof.
  intros Ht Hrun s reached.
  destruct (set_status_spec w t tk (status tk) r w' Ht Hrun)
    as (Hheap & _ & (evs & Hev & _ & Hcalls) & Hr).
  split; [rewrite Hheap, lookup_insert_eq; by destruct tk|].
  split; [by exists evs|].
  split.
  - intros Hnone. fold s in Hr. rewrite Hnone in Hr.
    split; [done|]. by apply notified_all.
  - intros any. rewrite (set_status_eq t tk any w Ht).
    unfold status_of; simpl. by rewrite lookup_insert_eq.
Qed.

Lemma set_status_has_no_guard_witness :
  let w := sample_world "Completed" [0] [TaskLogger] in
  heap_tasks w !! 0 = Some (sample_task "Completed" [0])
  /\ status_of (set_status 0 "Pending" w).2 0 = Some "Pending".
Proof.
  intros w. split; [vm_compute; reflexivity|].
  apply (set_status_has_no_guard w 0 (sample_task "Completed" [0])
           (set_status 0 "Completed" w).1 (set_status 0 "Completed" w).2).
  - vm_compute; reflexivity.
  - apply surjective_pairing.
Defined.

(** C10 as stated fails when an [update] raises: the observer attached
    behind a failing one is not notified of the self-transition. *)
Lemma set_status_same_status_skips_observer :
  let w := sample_world "Pending" [0; 1] [failing_observer; TaskLogger] in
  let w' := (set_status 0 "Pending" w).2 in
  heap_tasks w !! 0 = Some (sample_task "Pending" [0; 1])
  /\ update_calls (events_since w w') = [(0, 0, "Pending", "Pending")]
  /\ times_called 1 (events_since w w') = 0.
Proof. vm_compute. split_and!; reflexivity. Qed.

(** ** [Task.attach] *)

Lemma attach_eq t tk o w :
  heap_tasks w !! t = Some tk ->
  attach t o w
  = (Ok tt, put_task t (with_observers (_observers tk ++ [o]) tk) w).
Proof.
  intros Ht. unfold attach, set_field, bind, self_task. by rewrite Ht.
Qed.

Lemma put_task_put_task t tk1 tk2 w :
  put_task t tk2 (put_task t tk1 w) = put_task t tk2 w.
Proof. unfold put_task; simpl. by rewrite insert_insert_eq. Qed.

Lemma attach_twice_eq t tk o w :
  heap_tasks w !! t = Some tk ->
  (attach t o ;; attach t o) w
  = (Ok tt, put_task t (with_observers (_observers tk ++ [o; o]) tk) w).
Proof.
  intros Ht. unfold bind. rewrite (attach_eq t tk o w Ht).
  erewrite attach_eq; [|simpl; by rewrite lookup_insert_eq].
  rewrite put_task_put_task. unfold with_observers; simpl.
  by rewrite <- app_assoc.
Qed.

Lemma times_called_map (o t : loc) (a b : string) (l : list loc) evs :
  update_calls evs = (fun x => (x, t, a, b)) <$> l ->
  times_called o evs = length (filter (fun x => x = o) l).
Proof.
  unfold times_called. intros ->.
  induction l as [|x l IH]; [done|]. cbn [fmap list_fmap].
  rewrite !filter_cons. simpl.
  destruct (decide (x = o)); simpl; by rewrite IH.
Qed.

(** C8, as amended.  [attach] appends without looking for duplicates:
    after the same observer is attached twice the list has two more
    entries for it, and on every later transition of a task with that
    list in which no [update] raises, the observer is called once per
    entry, that is exactly twice when it was not attached before. *)
Theorem attach_twice_notifies_twice w t tk o :
  heap_tasks w !! t = Some tk ->
  let out := (attach t o ;; attach t o) w in
  let before := length (filter (fun x => x = o) (_observers tk)) in
  out.1 = Ok tt
  /\ heap_tasks out.2 !! t
     = Some (with_observers (_observers tk ++ [o; o]) tk)
  /\ (forall w3 tk3 new_status r w4,
        heap_tasks w3 !! t = Some tk3 ->
        _observers tk3 = _observers tk ++ [o; o] ->
        set_status t new_status w3 = (r, w4) ->
        first_exn w4 t (status tk3) new_status (_observers tk3) = None ->
        r = Ok tt
        /\ times_called o (events_since w3 w4) = before + 2
        /\ (o ∉ _observers tk -> times_called o (events_since w3 w4) = 2)).
Proof.
  intros Ht out before. subst out. rewrite (attach_twice_eq t tk o w Ht).
  split; [done|]. split; [simpl; by rewrite lookup_insert_eq|].
  intros w3 tk3 new_status r w4 Ht3 Hobs Hrun Hnone.
  destruct (set_status_spec w3 t tk3 new_status r w4 Ht3 Hrun)
    as (_ & _ & (evs & Hev & _ & Hcalls) & Hr).
  rewrite Hnone in Hr. simpl in Hr. subst r.
  rewrite (notified_all _ _ _ _ _ Hnone), Hobs in Hcalls.
  assert (Hn : times_called o (events_since w3 w4) = before + 2).
  { rewrite Hev. unfold times_called. cbn [update_calls omap list_omap].
    fold (update_calls evs). fold (times_called o evs).
    rewrite (times_called_map o t _ _ _ evs Hcalls).
    rewrite filter_app, length_app. subst before. f_equal.
    rewrite !filter_cons, filter_nil.
    destruct (decide (o = o)); [done|congruence]. }
  split; [done|]. split; [done|].
  intros Hnotin. rewrite Hn. subst before.
  destruct (filter (fun x => x = o) (_observers tk)) as [|x l] eqn:Hf; [done|].
  exfalso. assert (Hx : x ∈ filter (fun x => x = o) (_observers tk))
    by (rewrite Hf; left).
  apply list_elem_of_filter in Hx as [-> Hx]. by apply Hnotin.
Qed.

Lemma attach_twice_notifies_twice_witness :
  let w := sample_world "Pending" [] [TaskLogger] in
  heap_tasks w !! 0 = Some (sample_task "Pending" [])
  /\ heap_tasks ((attach 0 0 ;; attach 0 0) w).2 !! 0
     = Some (sample_task "Pending" [0; 0]).
Proof.
  intros w. split; [vm_compute; reflexivity|].
  apply (attach_twice_notifies_twice w 0 (sample_task "Pending" []) 0).
  vm_compute; reflexivity.
Defined.

(** C8 as stated fails for an observer whose [update] raises: attached
    twice, it is called once on the next transition, since its first
    call ends the loop of [notify]. *)
Lemma failing_observer_attached_twice_called_once :
  let w := sample_world "Pending" [] [failing_observer] in
  let w2 := ((attach 0 0 ;; attach 0 0) w).2 in
  let w3 := (set_status 0 "Running" w2).2 in
  heap_tasks w2 !! 0 = Some (sample_task "Pending" [0; 0])
  /\ times_called 0 (events_since w2 w3) = 1.
Proof. vm_compute. split; reflexivity. Qed.

(** ** [run] *)

Lemma quiet_observers_put w t tk s evs :
  heap_tasks w !! t = Some tk ->
  quiet_observers w t ->
  quiet_observers (emit evs (put_task t (with_status s tk) w)) t.
Proof.
  intros Ht Hq tk' o. simpl. rewrite lookup_insert_eq.
  intros [= <-]. simpl. by apply Hq.
Qed.

Lemma set_status_quiet t tk new_status w :
  heap_tasks w !! t = Some tk ->
  quiet_observers w t ->
  exists evs,
    set_status t new_status w
    = (Ok tt, emit (EvStatus t (status tk) new_status :: evs)
                (put_task t (with_status new_status tk) w))
    /\ forall t', status_writes t' evs = [].
Proof.
  intros Ht Hq. rewrite (set_status_eq t tk new_status w Ht).
  set (w1 := put_task t (with_status new_status tk) w).
  destruct (quiet_first_exn w1 t (with_status new_status tk)
              (status tk) new_status (_observers tk)) as [Hf _].
  { subst w1; simpl. by rewrite lookup_insert_eq. }
  { intros o Ho. by apply (Hq tk). }
  rewrite Hf. eexists; split; [reflexivity|].
  intros t'. apply status_writes_notify_events.
Qed.

(** The work in closed form, and what it adds to the trace. *)
Lemma work_eq c t tk w :
  heap_tasks w !! t = Some tk ->
  work c t w
  = match sleep_fault w t with
    | Some e => (Raise e, w)
    | None =>
        match stdout_fault w (banner c (task_id tk)) with
        | Some e => (Raise e, emit [EvSleep (sleep_secs c)] w)
        | None =>
            (Ok tt, emit [EvSleep (sleep_secs c);
                          EvPrint (banner c (task_id tk))] w)
        end
    end.
Proof.
  intros Ht. unfold work, bind, time_sleep, self_task, print.
  destruct (sleep_fault w t) as [e|]; [done|].
  cbn [heap_tasks emit]. rewrite Ht.
  change (stdout_fault (emit ?evs w)) with (stdout_fault w).
  destruct (stdout_fault w _) as [e|]; [done|]. by rewrite emit_emit.
Qed.

Lemma work_spec t tk w :
  heap_tasks w !! t = Some tk ->
  exists evs,
    work (task_class tk) t w = (result_of (io_fault w t), emit evs w)
    /\ (forall t', status_writes t' evs = [])
    /\ update_calls evs = [].
Proof.
  intros Ht. rewrite (work_eq _ t tk w Ht). unfold io_fault. rewrite Ht.
  destruct (sleep_fault w t) as [e|].
  - exists []. by rewrite emit_nil.
  - destruct (stdout_fault w _) as [e|]; by eexists.
Qed.

(** Whatever the class and the store, the work only adds sleeps and
    printed lines to the trace. *)
Lemma work_emits c t w :
  exists evs,
    (work c t w).2 = emit evs w
    /\ (forall t', status_writes t' evs = [])
    /\ update_calls evs = []
    /\ evs `prefix_of` [EvSleep (sleep_secs c)] ++ omap
          (fun tk => Some (EvPrint (banner c (task_id tk))))
          (option_list (heap_tasks w !! t)).
Proof.
  unfold work, bind, time_sleep, self_task, print.
  destruct (sleep_fault w t) as [e|].
  { exists []. rewrite emit_nil. split_and!; try done. apply prefix_nil. }
  cbn [heap_tasks emit].
  destruct (heap_tasks w !! t) as [tk|].
  - change (stdout_fault (emit ?evs w)) with (stdout_fault w).
    destruct (stdout_fault w _) as [e|].
    + eexists; split_and!; try done. by apply prefix_app_r.
    + rewrite emit_emit. eexists; split_and!; done.
  - eexists; split_and!; try done.
Qed.

Lemma io_fault_status t tk s evs w :
  heap_tasks w !! t = Some tk ->
  io_fault (emit evs (put_task t (with_status s tk) w)) t = io_fault w t.
Proof. intros Ht. unfold io_fault. simpl. by rewrite lookup_insert_eq, Ht. Qed.

Lemma status_writes_cons t a b evs :
  status_writes t (EvStatus t a b :: evs) = b :: status_writes t evs.
Proof. unfold status_writes. simpl. by rewrite decide_True by done. Qed.

(** The statuses of a run with quiet observers, from any status. *)
Lemma run_class_quiet t tk w :
  heap_tasks w !! t = Some tk ->
  quiet_observers w t ->
  exists w',
    status_path t w w'
    = status tk :: "Running" ::
        match io_fault w t with
        | None => ["Completed"]
        | Some e => if is_Exception e then ["Failed"] else []
        end
    /\ run_class (task_class tk) t w
       = (match io_fault w t with
          | None => Ok tt
          | Some e => if is_Exception e then Ok tt else Raise e
          end, w')
    /\ status_of w' t
       = Some match io_fault w t with
              | None => "Completed"
              | Some e => if is_Exception e then "Failed" else "Running"
              end.
Proof.
  intros Ht Hq.
  destruct (set_status_quiet t tk "Running" w Ht Hq) as (ev1 & E1 & W1).
  set (tkR := with_status "Running" tk) in *.
  set (w1 := emit (EvStatus t (status tk) "Running" :: ev1) (put_task t tkR w))
    in *.
  assert (Ht1 : heap_tasks w1 !! t = Some tkR)
    by (subst w1; simpl; by rewrite lookup_insert_eq).
  destruct (work_spec t tkR w1 Ht1) as (evw & Ew & Ww & _).
  assert (Hio1 : io_fault w1 t = io_fault w t)
    by apply (io_fault_status t tk "Running" _ w Ht).
  rewrite Hio1 in Ew.
  assert (Hq1 : quiet_observers w1 t) by (by apply quiet_observers_put).
  set (w2 := emit evw w1) in *.
  assert (Ht2 : heap_tasks w2 !! t = Some tkR) by done.
  assert (Hq2 : quiet_observers w2 t) by done.
  unfold run_class, try_except, bind at 1. rewrite E1.
  unfold bind at 1. change (task_class tk) with (task_class tkR). rewrite Ew.
  unfold status_path, status_of. rewrite Ht. cbn [from_option].
  assert (Hend : forall st ev2,
    status_writes t
      (events_since w
         (emit (EvStatus t "Running" st :: ev2)
               (put_task t (with_status st tkR) w2)))
    = "Running" :: st :: status_writes t ev2).
  { intros st ev2. erewrite events_since_trace;
      [|simpl; rewrite <- !app_assoc; reflexivity].
    rewrite !status_writes_app, !status_writes_cons, W1, Ww. done. }
  destruct (io_fault w t) as [e|] eqn:Hio; cbn [result_of].
  - destruct (is_Exception e) eqn:He.
    + destruct (set_status_quiet t tkR "Failed" w2 Ht2 Hq2) as (ev2 & E2 & W2).
      rewrite E2. eexists; split_and!; [|reflexivity|].
      * by rewrite Hend, W2.
      * simpl. by rewrite lookup_insert_eq.
    + eexists; split_and!; [|reflexivity|].
      * erewrite events_since_trace;
          [|simpl; rewrite <- !app_assoc; reflexivity].
        by rewrite !status_writes_app, !status_writes_cons, W1, Ww.
      * simpl. by rewrite lookup_insert_eq.
  - destruct (set_status_quiet t tkR "Completed" w2 Ht2 Hq2)
      as (ev3 & E3 & W3).
    rewrite E3. eexists; split_and!; [|reflexivity|].
    + by rewrite Hend, W3.
    + simpl. by rewrite lookup_insert_eq.
Qed.

Lemma run_eq t tk w :
  heap_tasks w !! t = Some tk -> run t w = run_class (task_class tk) t w.
Proof. intros Ht. unfold run, bind, self_task. by rewrite Ht. Qed.

(** C1, as amended.  For a task that is in status Pending when [run] is
    called, whose observers all return normally from [update], and whose
    work is not cut short by an exception outside class [Exception], the
    statuses the task passes through during that call are exactly
    Pending, Running, Completed when the work succeeds and exactly
    Pending, Running, Failed when it raises; and [run] returns. *)
Theorem run_status_sequence w t tk r w' :
  heap_tasks w !! t = Some tk ->
  status tk = "Pending" ->
  quiet_observers w t ->
  (forall e, io_fault w t = Some e -> is_Exception e = true) ->
  run t w = (r, w') ->
  r = Ok tt
  /\ status_path t w w'
     = match io_fault w t with
       | None => ["Pending"; "Running"; "Completed"]
       | Some _ => ["Pending"; "Running"; "Failed"]
       end.
Proof.
  intros Ht Hp Hq Hexn Hrun. rewrite (run_eq t tk w Ht) in Hrun.
  destruct (run_class_quiet t tk w Ht Hq) as (w1 & Hpath & Heq & _).
  rewrite Heq in Hrun. injection Hrun as <- <-. rewrite Hpath, Hp.
  destruct (io_fault w t) as [e|]; [|done].
  by rewrite (Hexn e eq_refl).
Qed.

Lemma sample_world_quiet st :
  quiet_observers (sample_world st [0] [TaskLogger]) 0.
Proof.
  intros tk o Ht Ho. cbn in Ht. rewrite lookup_singleton_eq in Ht.
  injection Ht as <-. apply list_elem_of_singleton in Ho as ->.
  exists TaskLogger. split; [reflexivity|]. by intros t tk a b.
Qed.

Lemma run_status_sequence_witness :
  let w := sample_world "Pending" [0] [TaskLogger] in
  let wf := with_fault (UserException "OSError") w in
  heap_tasks w !! 0 = Some (sample_task "Pending" [0])
  /\ (status_path 0 w (run 0 w).2 = ["Pending"; "Running"; "Completed"]
      /\ status_path 0 wf (run 0 wf).2 = ["Pending"; "Running"; "Failed"]).
Proof.
  intros w wf. split; [vm_compute; reflexivity|]. split.
  - apply (run_status_sequence w 0 (sample_task "Pending" [0])
             (run 0 w).1 (run 0 w).2).
    + vm_compute; reflexivity.
    + reflexivity.
    + apply sample_world_quiet.
    + intros e; simpl; discriminate.
    + apply surjective_pairing.
  - apply (run_status_sequence wf 0 (sample_task "Pending" [0])
             (run 0 wf).1 (run 0 wf).2).
    + vm_compute; reflexivity.
    + reflexivity.
    + apply (sample_world_quiet "Pending").
    + intros e; simpl; intros [= <-]; reflexivity.
    + apply surjective_pairing.
Defined.

(** C1 as stated fails in two ways.  A task that has already run is not
    Pending when [run] is called again, and goes from Completed back to
    Running.  And a task whose observer raises when told of Completed
    passes through both terminal statuses, since the handler of [run]
    then sets Failed. *)
Lemma run_status_sequence_counterexamples :
  (let w := sample_world "Completed" [0] [TaskLogger] in
   heap_tasks w !! 0 = Some (sample_task "Completed" [0])
   /\ status_path 0 w (run 0 w).2 = ["Completed"; "Running"; "Completed"])
  /\ (let w := sample_world "Pending" [0] [fails_on "Completed"] in
      heap_tasks w !! 0 = Some (sample_task "Pending" [0])
      /\ status_path 0 w (run 0 w).2
         = ["Pending"; "Running"; "Completed"; "Failed"]).
Proof. vm_compute. split_and!; reflexivity. Qed.

(** C2: the code at the failing input.  With an observer attached whose
    [update] always raises, the call of [set_status] in the handler of
    [run] raises as well, outside the [try] block, and the exception
    leaves [run]; the status is Failed by then. *)
Theorem run_lets_handler_exception_escape :
  let w := sample_world "Pending" [0] [failing_observer] in
  heap_tasks w !! 0 = Some (sample_task "Pending" [0])
  /\ (run 0 w).1 = Raise (UserException "RuntimeError")
  /\ status_path 0 w (run 0 w).2 = ["Pending"; "Running"; "Failed"]
  /\ update_calls (events_since w (run 0 w).2)
     = [(0, 0, "Pending", "Running"); (0, 0, "Running", "Failed")].
Proof. vm_compute. split_and!; reflexivity. Qed.

(** ** [TaskFactory.create_task] *)

Lemma py_eq_str_true v s : py_eq_str v s = true <-> v = VStr s.
Proof.
  destruct v; simpl; try (split; [discriminate|intros [=]]).
  rewrite bool_decide_eq_true. split; [by intros ->|by intros [= ->]].
Qed.

Lemma py_eq_str_false v s : v <> VStr s -> py_eq_str v s = false.
Proof.
  intros Hne. destruct (py_eq_str v s) eqn:E; [|done].
  by apply py_eq_str_true in E.
Qed.

(** C4.  For a description that has the three fields, [create_task]
    returns a new task of the class named by the type field, built from
    the id and the name of the description, Pending and without
    observers; for every other value of the type field it raises
    [ValueError] with a message that ends in that value, and the store,
    so also the set of tasks, is as before. *)
Theorem create_task_by_type (d : gmap string pyval) ty id nm w :
  d !! "type" = Some ty ->
  d !! "task_id" = Some id ->
  d !! "name" = Some nm ->
  let t := fresh (dom (heap_tasks w)) in
  let made c := (Ok t, put_task t (mkTask c id nm "Pending" (now w) []) w) in
  heap_tasks w !! t = None
  /\ (ty = VStr "email" -> create_task d w = made EmailTask)
  /\ (ty = VStr "backup" -> create_task d w = made DataBackupTask)
  /\ (ty = VStr "report" -> create_task d w = made ReportGenerationTask)
  /\ (ty <> VStr "email" -> ty <> VStr "backup" -> ty <> VStr "report" ->
      create_task d w
      = (Raise (ValueError ("Unknown task type: " +:+ py_str ty)), w)).
Proof.
  intros Hty Hid Hnm t made.
  assert (Hrun : create_task d w
    = (if py_eq_str ty "email" then new_task EmailTask id nm
       else if py_eq_str ty "backup" then new_task DataBackupTask id nm
       else if py_eq_str ty "report" then new_task ReportGenerationTask id nm
       else raise (ValueError ("Unknown task type: " +:+ py_str ty))) w).
  { unfold create_task, getitem. rewrite Hty, Hid, Hnm. reflexivity. }
  split.
  { apply not_elem_of_dom. apply is_fresh. }
  split_and!.
  - intros ->. by rewrite Hrun.
  - intros ->. by rewrite Hrun.
  - intros ->. by rewrite Hrun.
  - intros H1 H2 H3. rewrite Hrun.
    by rewrite !py_eq_str_false.
Qed.

Lemma create_task_by_type_witness :
  let w := sample_world "Pending" [] [] in
  (create_task (description (VStr "email") (VInt 7) (VStr "y")) w).1 = Ok 1
  /\ heap_tasks
       (create_task (description (VStr "email") (VInt 7) (VStr "y")) w).2 !! 1
     = Some (mkTask EmailTask (VInt 7) (VStr "y") "Pending" 0 [])
  /\ create_task (description (VStr "bogus") (VInt 2) (VStr "y")) w
     = (Raise (ValueError "Unknown task type: bogus"), w).
Proof.
  intros w.
  destruct (create_task_by_type
              (description (VStr "email") (VInt 7) (VStr "y"))
              (VStr "email") (VInt 7) (VStr "y") w)
    as (_ & He & _); [vm_compute; reflexivity..|].
  destruct (create_task_by_type
              (description (VStr "bogus") (VInt 2) (VStr "y"))
              (VStr "bogus") (VInt 2) (VStr "y") w)
    as (_ & _ & _ & _ & Hb); [vm_compute; reflexivity..|].
  rewrite (He eq_refl). split; [vm_compute; reflexivity|].
  split; [vm_compute; reflexivity|].
  by apply Hb.
Defined.

(** C9.  The three fields are read before the type is looked at, in the
    order type, task_id, name: a description that lacks one of them
    makes [create_task] raise [KeyError] for the first field it lacks,
    whatever the type field holds, and nothing is built. *)
Theorem create_task_missing_field (d : gmap string pyval) w :
  d !! "type" = None \/ d !! "task_id" = None \/ d !! "name" = None ->
  exists key,
    create_task d w = (Raise (KeyError key), w)
    /\ d !! key = None
    /\ key = match d !! "type", d !! "task_id" with
             | None, _ => "type"
             | Some _, None => "task_id"
             | Some _, Some _ => "name"
             end.
Proof.
  intros Hmiss. unfold create_task, getitem, bind, ret, raise.
  destruct (d !! "type") as [ty|] eqn:Hty.
  - destruct (d !! "task_id") as [id|] eqn:Hid.
    + destruct (d !! "name") as [nm|] eqn:Hnm.
      * destruct Hmiss as [|[|]]; discriminate.
      * by exists "name".
    + by exists "task_id".
  - by exists "type".
Qed.

Lemma create_task_missing_field_witness :
  let d : gmap string pyval := <["type" := VStr "bogus"]> (<["name" := VStr "y"]> ∅) in
  d !! "task_id" = None
  /\ exists key, create_task d (sample_world "Pending" [] []) 
                 = (Raise (KeyError key), sample_world "Pending" [] [])
                 /\ key = "task_id".
Proof.
  intros d. split; [vm_compute; reflexivity|].
  destruct (create_task_missing_field d (sample_world "Pending" [] []))
    as (key & Hrun & _ & Hkey).
  - right; left. vm_compute; reflexivity.
  - exists key. split; [exact Hrun|]. rewrite Hkey. vm_compute; reflexivity.
Defined.

(** ** [TaskScheduler.add_task] *)

(** C6.  [add_task] appends the logger of the scheduler to the observer
    list of the task and the task to the task list of the scheduler;
    the logger is the one object made by [__init__]; an observer
    attached afterwards comes behind the logger. *)
Theorem add_task_attaches_logger_first s t tk w :
  heap_tasks w !! t = Some tk ->
  add_task s t w
  = (Ok (mkScheduler (tasks s ++ [t]) (logger s)),
     put_task t (with_observers (_observers tk ++ [logger s]) tk) w)
  /\ (forall o,
        heap_tasks ((add_task s t ;; attach t o) w).2 !! t
        = Some (with_observers (_observers tk ++ [logger s; o]) tk))
  /\ (forall w0,
        let s0 := mkScheduler [] (fresh (dom (heap_obs w0))) in
        TaskScheduler_init w0 = (Ok s0, put_obs (logger s0) TaskLogger w0)
        /\ heap_obs w0 !! logger s0 = None).
Proof.
  intros Ht.
  assert (Hadd : add_task s t w
    = (Ok (mkScheduler (tasks s ++ [t]) (logger s)),
       put_task t (with_observers (_observers tk ++ [logger s]) tk) w)).
  { unfold add_task, bind. by rewrite (attach_eq t tk (logger s) w Ht). }
  split; [done|]. split.
  - intros o. unfold bind at 1. rewrite Hadd.
    erewrite attach_eq; [|simpl; by rewrite lookup_insert_eq].
    simpl. rewrite lookup_insert_eq, <- app_assoc. reflexivity.
  - intros w0 s0. split; [done|].
    apply not_elem_of_dom. apply is_fresh.
Qed.

Lemma add_task_attaches_logger_first_witness :
  let w := sample_world "Pending" [3] [TaskLogger] in
  let s := mkScheduler [5] 0 in
  heap_tasks w !! 0 = Some (sample_task "Pending" [3])
  /\ (add_task s 0 w).1 = Ok (mkScheduler [5; 0] 0)
  /\ heap_tasks (add_task s 0 w).2 !! 0 = Some (sample_task "Pending" [3; 0]).
Proof.
  intros w s. split; [vm_compute; reflexivity|].
  destruct (add_task_attaches_logger_first s 0 (sample_task "Pending" [3]) w)
    as (Hadd & _); [vm_compute; reflexivity|].
  rewrite Hadd. split; [reflexivity|]. vm_compute; reflexivity.
Defined.

(** ** Steps of a worker thread *)

Lemma frame_refl w : frame w w.
Proof. by split_and!. Qed.

Lemma frame_emit w0 w evs : frame w0 w -> frame w0 (emit evs w).
Proof. intros (? & [? ?] & ?). by split_and!. Qed.

Lemma frame_put w0 w t tk s :
  heap_tasks w !! t = Some tk ->
  frame w0 w -> frame w0 (put_task t (with_status s tk) w).
Proof.
  intros Ht (Ho & [Hf Hs] & Hh). split_and!; [done..|].
  intros t'. simpl. destruct (decide (t = t')) as [<-|Hne].
  - rewrite lookup_insert_eq, <- Hh, Ht. done.
  - by rewrite lookup_insert_ne.
Qed.

(** A step of the thread of task [t] adds to the trace and may write
    the status of [t]; nothing else changes. *)
Lemma thread_step_world c t p w p' w' :
  thread_step c t p w = Some (p', w') ->
  exists evs,
    w' = emit evs w
    \/ exists tk s, heap_tasks w !! t = Some tk
                  /\ w' = emit evs (put_task t (with_status s tk) w).
Proof.
  destruct p as [st|st old|st old i| |r]; cbn [thread_step].
  - unfold self_task. destruct (heap_tasks w !! t);
      intros [= <- <-]; exists []; left; by rewrite emit_nil.
  - unfold write_status, bind, self_task.
    destruct (heap_tasks w !! t) as [tk|] eqn:Ht; intros [= <- <-].
    + eexists. right. by exists tk, (stage_name st).
    + exists []. left. by rewrite emit_nil.
  - unfold self_task. destruct (heap_tasks w !! t) as [tk|].
    + destruct (_observers tk !! i) as [o|].
      * rewrite call_update_eq.
        destruct (obs_raises w t old (stage_name st) o);
          intros [= <- <-]; eexists; by left.
      * intros [= <- <-]. exists []; left; by rewrite emit_nil.
    + intros [= <- <-]. exists []; left; by rewrite emit_nil.
  - destruct (work_emits c t w) as (evs & Hw & _).
    destruct (work c t w) as [[[]|e] w1]; simpl in Hw; subst w1;
      intros [= <- <-]; exists evs; by left.
  - discriminate.
Qed.

Lemma thread_step_frame c t p w p' w' w0 :
  thread_step c t p w = Some (p', w') -> frame w0 w -> frame w0 w'.
Proof.
  intros Hstep Hf.
  destruct (thread_step_world c t p w p' w' Hstep)
    as (evs & [-> | (tk & s & Ht & ->)]).
  - by apply frame_emit.
  - by apply frame_emit, frame_put.
Qed.

Lemma thread_step_other c t p w p' w' t' :
  thread_step c t p w = Some (p', w') -> t' <> t ->
  heap_tasks w' !! t' = heap_tasks w !! t'.
Proof.
  intros Hstep Hne.
  destruct (thread_step_world c t p w p' w' Hstep)
    as (evs & [-> | (tk & s & Ht & ->)]); [done|].
  simpl. by rewrite lookup_insert_ne.
Qed.

(** The program counter keeps track of the status. *)
Lemma thread_step_pc_ok c t p w p' w' :
  thread_step c t p w = Some (p', w') ->
  pc_ok p (status_of w t) -> pc_ok p' (status_of w' t).
Proof.
  assert (Hcatch : forall b e so, pc_ok (catch b e) so).
  { intros b e so. unfold catch. destruct b; [done|].
    by destruct (is_Exception e). }
  destruct p as [st|st old|st old i| |r]; cbn [thread_step].
  - unfold self_task. destruct (heap_tasks w !! t);
      intros [= <- <-] _; [done|apply Hcatch].
  - unfold write_status, bind, self_task.
    destruct (heap_tasks w !! t) as [tk|] eqn:Ht; intros [= <- <-] _.
    + unfold status_of. simpl. by rewrite lookup_insert_eq.
    + apply Hcatch.
  - unfold self_task. destruct (heap_tasks w !! t) as [tk|] eqn:Ht.
    + destruct (_observers tk !! i) as [o|].
      * rewrite call_update_eq.
        destruct (obs_raises w t old (stage_name st) o);
          intros [= <- <-] Hok; [apply Hcatch|done].
      * intros [= <- <-] Hok. simpl in Hok.
        destruct st; simpl; [done|by left|by right].
    + intros [= <- <-] _. apply Hcatch.
  - destruct (work c t w) as [[[]|e] w1]; intros [= <- <-] _;
      [done|apply (Hcatch false)].
  - discriminate.
Qed.

(** A thread that has not returned can take a step. *)
Lemma thread_step_total c t p w :
  (forall r, p <> PcRet r) -> is_Some (thread_step c t p w).
Proof.
  intros Hp. destruct p as [st|st old|st old i| |r]; cbn [thread_step].
  - by destruct (self_task t w) as [[]].
  - by destruct (write_status t (stage_name st) w) as [[]].
  - destruct (self_task t w) as [[tk|] w1]; [|done].
    destruct (_observers tk !! i); [|done].
    by destruct (call_update _ _ _ _ _) as [[]].
  - by destruct (work c t w) as [[]].
  - by destruct (Hp r).
Qed.

(** ** Bookkeeping of the pool *)

Lemma pool_fifo_init s : pool_fifo s init_pool.
Proof.
  split; simpl.
  - unfold max_workers; lia.
  - exists 0. split_and!; [done|lia|by intros k [= <-]|by intros j [=]].
  - intros it Hit. by apply elem_of_nil in Hit.
  - intros it c Hit. by apply elem_of_nil in Hit.
  - constructor.
  - intros k Hk. by apply elem_of_nil in Hk.
  - intros k [x Hk]. by rewrite lookup_empty in Hk.
  - intros k Hk. by apply elem_of_nil in Hk.
Qed.

Lemma worker_futures_app m q ws1 ws2 fs ad :
  worker_futures (mkPool m q (ws1 ++ ws2) fs ad)
  = ((fun x : WorkItem * pc => item_future x.1) <$> ws1)
    ++ ((fun x : WorkItem * pc => item_future x.1) <$> ws2).
Proof. unfold worker_futures; simpl. apply fmap_app. Qed.

Lemma pool_step_fifo s c c' :
  pool_step s c c' -> pool_fifo s c.1 -> pool_fifo s c'.1.
Proof.
  intros Hstep [Hcap (m & Hord & Hm & Hsub & Hres) Hq Hrun Hnd Hw Hdone Had].
  destruct Hstep; simpl in *.
  - (* submit *)
    split; simpl; try done.
    + exists (S k). rewrite (Hsub k eq_refl) in *.
      unfold queue_futures in *; cbn [work_queue taken main] in *.
      rewrite fmap_app, app_assoc, Hord.
      split_and!; [exact (eq_sym (seq_S k 0))| |by intros k' [= <-]|by intros j [=]].
      by apply lookup_lt_Some in H.
    + intros it [Hit|Hit%list_elem_of_singleton]%elem_of_app; [by apply Hq|].
      by subst it.
  - (* submit raises *)
    split; simpl; try done. exists m. by split_and!.
  - (* all submitted *)
    split; simpl; try done. exists m. split_and!; [done..|].
    intros _ _. rewrite (Hsub k eq_refl) in *.
    apply lookup_ge_None in H. lia.
  - split; simpl; try done. exists m. split_and!; [done..|].
    intros j' _. by apply (Hres j).
  - split; simpl; try done. exists m. by split_and!.
  - split; simpl; try done. exists m. by split_and!.
  - split; simpl; try done. exists m. by split_and!.
  - (* a worker takes an item *)
    unfold queue_futures, worker_futures in *; simpl in *.
    assert (Hfresh : item_future it ∉ ad).
    { pose proof (NoDup_seq 0 m) as Hn. rewrite <- Hord in Hn.
      apply NoDup_app in Hn as (_ & Hn & _). intros Hin.
      apply (Hn _ Hin). left. }
    split; simpl.
    + rewrite length_app; simpl. unfold max_workers in *. lia.
    + exists m. unfold queue_futures; simpl.
      rewrite <- app_assoc. simpl. by split_and!.
    + intros it' Hit'. apply Hq. by right.
    + intros it' c' [Hin|Hin%list_elem_of_singleton]%elem_of_app.
      * by apply (Hrun it' c').
      * simplify_eq. apply Hq. left.
    + unfold worker_futures; simpl. rewrite fmap_app. simpl.
      apply NoDup_app. split_and!; [done| |apply NoDup_singleton].
      intros k Hk ->%list_elem_of_singleton. by apply Hw in Hk as [? _].
    + unfold worker_futures; simpl. rewrite fmap_app. simpl.
      intros k [Hk|Hk%list_elem_of_singleton]%elem_of_app; [|subst k].
      * apply Hw in Hk as [? ?]. split; [|done].
        apply elem_of_app; by left.
      * split; [apply elem_of_app; right; left|].
        destruct (fs !! item_future it) eqn:Hf; [|done].
        exfalso. apply Hfresh, Hdone. by eexists.
    + intros k Hk. apply elem_of_app. left. by apply Hdone.
    + unfold worker_futures; simpl. rewrite fmap_app. simpl.
      intros k [Hk|Hk%list_elem_of_singleton]%elem_of_app; [|subst k].
      * destruct (Had k Hk); [left|by right].
        apply elem_of_app; by left.
      * left. apply elem_of_app; right; left.
  - (* a thread steps *)
    assert (Hsame : worker_futures (mkPool m0 q (ws1 ++ (it, p') :: ws2) fs ad)
                    = worker_futures (mkPool m0 q (ws1 ++ (it, p) :: ws2) fs ad)).
    { unfold worker_futures; simpl. by rewrite !fmap_app. }
    split; simpl; try done.
    + rewrite length_app in *. simpl in *. done.
    + exists m. by split_and!.
    + intros it' c' Hin. apply elem_of_app in Hin as [Hin|Hin].
      * apply (Hrun it' c'). apply elem_of_app; by left.
      * apply elem_of_cons in Hin as [[= -> ->]|Hin].
        -- apply (Hrun it p). apply elem_of_app; right; left.
        -- apply (Hrun it' c'). apply elem_of_app; right; by right.
    + by rewrite Hsame.
    + rewrite Hsame. done.
    + rewrite Hsame. done.
  - (* a thread finishes *)
    rewrite worker_futures_app in *. simpl in *.
    assert (Hk0 : item_future it ∈ ad /\ fs !! item_future it = None).
    { apply Hw. apply elem_of_app; right; left. }
    apply NoDup_app in Hnd as (Hnd1 & Hnd12 & Hnd2).
    apply NoDup_cons in Hnd2 as [Hnd2 Hnd3].
    split; simpl.
    + rewrite length_app in *. simpl in *. lia.
    + exists m. by split_and!.
    + done.
    + intros it' c' Hin. apply (Hrun it' c').
      apply elem_of_app in Hin as [Hin|Hin];
        apply elem_of_app; [by left|right; by right].
    + rewrite worker_futures_app. apply NoDup_app. split_and!; [done| |done].
      intros k Hk1 Hk2. apply (Hnd12 k Hk1). by right.
    + rewrite worker_futures_app. intros k Hk.
      assert (k <> item_future it).
      { intros ->. apply elem_of_app in Hk as [Hk|Hk]; [|done].
        apply (Hnd12 _ Hk). left. }
      rewrite lookup_insert_ne by done. apply Hw.
      apply elem_of_app in Hk as [Hk|Hk];
        apply elem_of_app; [by left|right; by right].
    + intros k Hk. destruct (decide (k = item_future it)) as [->|Hne].
      * apply Hk0.
      * rewrite lookup_insert_ne in Hk by done. by apply Hdone.
    + rewrite worker_futures_app. intros k Hk.
      destruct (decide (k = item_future it)) as [->|Hne].
      * right. rewrite lookup_insert_eq. by eexists.
      * rewrite lookup_insert_ne by done.
        destruct (Had k Hk) as [Hin|?]; [left|by right].
        apply elem_of_app in Hin as [Hin|Hin];
          apply elem_of_app; [by left|right].
        by apply elem_of_cons in Hin as [?|?].
Qed.

Lemma reachable_fifo s w0 c : reachable s w0 c -> pool_fifo s c.1.
Proof.
  unfold reachable. intros Hr.
  apply (rtc_ind_r (R := pool_step s) (fun c => pool_fifo s c.1)
           (init_pool, w0)); [apply pool_fifo_init| |done].
  intros y z _ Hstep IH. by apply (pool_step_fifo s y z).
Qed.

(** ** Schedules are executions *)

Lemma main_step_sound s p w p' :
  main_step s p w = Some p' -> pool_step s (p, w) (p', w).
Proof.
  destruct p as [m q ws fs ad]. unfold main_step.
  destruct m as [k|j|r|r].
  - destruct (tasks s !! k) as [t|] eqn:Hk.
    + destruct (heap_tasks w !! t) as [tk|] eqn:Ht; intros [= <-].
      * by apply step_submit.
      * by eapply step_submit_raise.
    + intros [= <-]. by apply step_submitted.
  - destruct (decide (j < length (tasks s))) as [Hj|Hj].
    + destruct (fs !! j) as [[e|]|] eqn:Hf; intros [= <-].
      * by apply step_result_raise.
      * by apply step_result.
    + intros [= <-]. apply step_results_done. lia.
  - destruct q; [|discriminate]. destruct ws; [|discriminate].
    intros [= <-]. apply step_shutdown.
  - discriminate.
Qed.

Lemma pool_do_sound s ch c c' :
  pool_do s ch c = Some c' -> pool_step s c c'.
Proof.
  destruct c as [p w]. destruct ch as [| |i]; cbn [pool_do].
  - destruct (main_step s p w) as [p'|] eqn:Hm; intros [= <-].
    by apply main_step_sound.
  - destruct p as [m q ws fs ad]. cbn [work_queue workers main futures taken].
    destruct q as [|it q]; [discriminate|].
    destruct (decide (length ws < max_workers)); intros [= <-].
    by apply step_take.
  - destruct p as [m q ws fs ad]. cbn [work_queue workers main futures taken].
    destruct (ws !! i) as [[it c]|] eqn:Hi; [|discriminate].
    rewrite <- (take_drop_middle ws i (it, c) Hi) at 1.
    destruct c as [st|st old|st old j| |r];
      try (destruct (thread_step _ _ _ w) as [[c1 w1]|] eqn:Hstep;
           intros [= <-]; by apply step_thread).
    intros [= <-]. apply step_finish.
Qed.

Lemma pool_run_reachable s w0 chs c :
  reachable s w0 c -> reachable s w0 (pool_run s chs c).
Proof.
  revert c. induction chs as [|ch rest IH]; intros c Hc; [done|].
  cbn [pool_run]. destruct (pool_do s ch c) as [c'|] eqn:Hdo; [|by apply IH].
  apply IH. eapply rtc_r; [exact Hc|]. by eapply pool_do_sound.
Qed.

Lemma pool_next_sound s c c' : pool_next s c = Some c' -> pool_step s c c'.
Proof.
  unfold pool_next.
  destruct (pool_do s Main c) eqn:H1; [intros [= <-]; by eapply pool_do_sound|].
  destruct (pool_do s Take c) eqn:H2; [intros [= <-]; by eapply pool_do_sound|].
  apply pool_do_sound.
Qed.

Lemma pool_exec_reachable fuel s w0 c :
  reachable s w0 c -> reachable s w0 (pool_exec fuel s c).
Proof.
  revert c. induction fuel as [|fuel IH]; intros c Hc; [done|].
  cbn [pool_exec]. destruct (pool_next s c) as [c'|] eqn:Hn; [|done].
  apply IH. eapply rtc_r; [exact Hc|]. by apply pool_next_sound.
Qed.

(** ** The pool of five workers *)

(** C7.  In every configuration [run_all] can reach, at most five work
    items are being executed, and the items taken by workers so far,
    in the order they were taken, followed by the items still queued,
    are the submitted items in the order of submission, which is the
    order of the task list: workers take items first in, first out. *)
Theorem pool_bounded_and_fifo s w0 p w :
  reachable s w0 (p, w) ->
  length (workers p) <= 5
  /\ (exists m, m <= length (tasks s)
                /\ taken p ++ queue_futures p = seq 0 m)
  /\ (forall k, k ∈ worker_futures p -> k ∈ taken p)
  /\ (forall it, it ∈ work_queue p \/ it ∈ (workers p).*1 ->
        tasks s !! item_future it = Some (item_task it)).
Proof.
  intros Hr.
  destruct (reachable_fifo s w0 (p, w) Hr)
    as [Hcap (m & Hord & Hm & _ & _) Hq Hrun _ Hw _ _]; simpl in *.
  split_and!.
  - exact Hcap.
  - exists m. by split.
  - intros k Hk. by apply Hw.
  - intros it [Hit|Hit]; [by apply Hq|].
    apply list_elem_of_fmap in Hit as ([it' c] & -> & Hin).
    by apply (Hrun it' c).
Qed.

(** ** Statuses under the pool *)

Lemma frame_is_Some w0 w t :
  frame w0 w -> is_Some (heap_tasks w0 !! t) -> is_Some (heap_tasks w !! t).
Proof.
  intros (_ & _ & Hh) [tk Ht]. specialize (Hh t). rewrite Ht in Hh.
  destruct (heap_tasks w !! t); [done|discriminate].
Qed.

Lemma distinct_tasks (s : TaskScheduler) k k' t t' :
  NoDup (tasks s) ->
  tasks s !! k = Some t -> tasks s !! k' = Some t' -> k <> k' -> t <> t'.
Proof.
  intros Hnd Hk Hk' Hne ->. apply Hne. by eapply NoDup_lookup.
Qed.

Lemma thread_step_status_other c t p w p' w' t' :
  thread_step c t p w = Some (p', w') -> t' <> t ->
  status_of w' t' = status_of w t'.
Proof.
  intros Hstep Hne. unfold status_of.
  by rewrite (thread_step_other c t p w p' w' t' Hstep Hne).
Qed.

Lemma worker_future_in m q (ws : list (WorkItem * pc)) fs ad it c :
  (it, c) ∈ ws -> item_future it ∈ worker_futures (mkPool m q ws fs ad).
Proof.
  intros Hin. unfold worker_futures; simpl.
  apply list_elem_of_fmap. by exists (it, c).
Qed.

Lemma pool_step_inv s w0 c c' :
  NoDup (tasks s) ->
  (forall t, t ∈ tasks s -> is_Some (heap_tasks w0 !! t)) ->
  pool_step s c c' ->
  pool_fifo s c.1 -> pool_inv s w0 c.1 c.2 -> pool_inv s w0 c'.1 c'.2.
Proof.
  intros Hnd Hex Hstep
    [Hcap (m & Hord & Hm & Hsub & _) Hq Hrun Hwnd Hw Hdone Had]
    [Hfr Hall Hmain Hret Hth Hfin].
  destruct Hstep; unfold queue_futures in *; simpl in *.
  - split; unfold queue_futures; simpl; [done| |done| |done|done].
    + intros Hk. by destruct (Hk (S k)).
    + intros r [=].
  - exfalso.
    destruct (frame_is_Some w0 w t Hfr) as [tk Htk].
    { apply Hex. by eapply list_elem_of_lookup_2. }
    congruence.
  - split; unfold queue_futures; simpl; [done| | |intros r [=]|done|done].
    + intros _. rewrite Hord, (Hsub k eq_refl). f_equal.
      apply lookup_ge_None in H. rewrite (Hsub k eq_refl) in Hm. lia.
    + intros i Hi. lia.
  - split; unfold queue_futures; simpl; [done|intros _; apply Hall; by intros k [=]|
                   |intros r [=]|done|done].
    intros i Hi. destruct (decide (i = j)) as [->|Hne]; [done|].
    apply Hmain. lia.
  - split; unfold queue_futures; simpl; [done|intros _; apply Hall; by intros k [=]|
                   |intros r [=]|done|done].
    exists j. by split.
  - split; unfold queue_futures; simpl; [done|intros _; apply Hall; by intros k [=]|
                   |intros r [=]|done|done].
    intros i Hi. apply Hmain. lia.
  - split; unfold queue_futures; simpl; [done|intros _; apply Hall; by intros k [=]|done| |done|done].
    by intros r' _.
  - split; unfold queue_futures; simpl; [done| |done| | |done].
    + intros Hk. unfold queue_futures; simpl.
      rewrite <- app_assoc. simpl. by apply Hall.
    + intros r ->. by destruct (Hret r eq_refl).
    + intros it' c0 [Hin|Hin%list_elem_of_singleton]%elem_of_app.
      * by apply Hth.
      * by simplify_eq.
  - assert (Hit : item_ok s it).
    { apply (Hrun it p). apply elem_of_app; right; left. }
    assert (Hother : forall it' c0, (it', c0) ∈ ws1 ++ ws2 ->
              item_task it' <> item_task it
              /\ pc_ok c0 (status_of w (item_task it'))).
    { intros it' c0 Hin. split.
      - apply (distinct_tasks s (item_future it') (item_future it)); [done| |done|].
        + apply (Hrun it' c0).
          apply elem_of_app in Hin as [?|?]; apply elem_of_app;
            [by left|right; by right].
        + intros Heq. rewrite worker_futures_app in Hwnd. simpl in Hwnd.
          apply NoDup_app in Hwnd as (_ & Hd1 & Hd2).
          apply NoDup_cons in Hd2 as [Hd2 _].
          apply elem_of_app in Hin as [Hin|Hin].
          * apply (Hd1 (item_future it')).
            { apply list_elem_of_fmap. by exists (it', c0). }
            rewrite Heq. left.
          * apply Hd2. rewrite <- Heq.
            apply list_elem_of_fmap. by exists (it', c0).
      - apply Hth. apply elem_of_app in Hin as [?|?]; apply elem_of_app;
          [by left|right; by right]. }
    split; unfold queue_futures; simpl.
    + by eapply thread_step_frame.
    + done.
    + done.
    + intros r ->. destruct (Hret r eq_refl) as [_ Hws].
      by destruct ws1.
    + intros it' c0 Hin. apply elem_of_app in Hin as [Hin|Hin].
      * destruct (Hother it' c0) as [Hne Hok]; [apply elem_of_app; by left|].
        by rewrite (thread_step_status_other _ _ _ _ _ _ _ H Hne).
      * apply elem_of_cons in Hin as [Heq|Hin].
        -- simplify_eq. eapply thread_step_pc_ok; [done|].
           apply Hth. apply elem_of_app; right; left.
        -- destruct (Hother it' c0) as [Hne Hok]; [apply elem_of_app; by right|].
           by rewrite (thread_step_status_other _ _ _ _ _ _ _ H Hne).
    + intros k t Hk Hf.
      assert (Hne : t <> item_task it).
      { apply (distinct_tasks s k (item_future it)); [done..|].
        intros ->.
        destruct (Hw (item_future it)) as [_ Hnone].
        { apply (worker_future_in _ _ _ _ _ it p).
          apply elem_of_app; right; left. }
        congruence. }
      rewrite (thread_step_status_other _ _ _ _ _ _ _ H Hne). by eapply Hfin.
  - assert (Hit : item_ok s it).
    { apply (Hrun it (PcRet r)). apply elem_of_app; right; left. }
    assert (Hnone : fs !! item_future it = None).
    { apply Hw. apply (worker_future_in _ _ _ _ _ it (PcRet r)).
      apply elem_of_app; right; left. }
    assert (Hkeep : forall i x, fs !! i = Some x ->
              <[item_future it := r]> fs !! i = Some x).
    { intros i x Hi. rewrite lookup_insert_ne; [done|]. intros <-. congruence. }
    split; unfold queue_futures; simpl.
    + done.
    + done.
    + unfold main_ok in *. destruct m0 as [k|j|r0|r0]; [done|by auto|..].
      * destruct r0 as [e|]; [|by auto].
        destruct Hmain as (j & Hj & Hlt). exists j. split; by auto.
      * destruct r0 as [e|]; [|by auto].
        destruct Hmain as (j & Hj & Hlt). exists j. split; by auto.
    + intros r0 ->. destruct (Hret r0 eq_refl) as [_ Hws]. by destruct ws1.
    + intros it' c0 Hin. apply Hth.
      apply elem_of_app in Hin as [?|?]; apply elem_of_app;
        [by left|right; by right].
    + intros k t Hk Hf. destruct (decide (k = item_future it)) as [->|Hne].
      * rewrite lookup_insert_eq in Hf. injection Hf as ->.
        assert (t = item_task it) as -> by (unfold item_ok in Hit; congruence).
        apply (Hth it (PcRet None)). apply elem_of_app; right; left.
      * rewrite lookup_insert_ne in Hf by done. by eapply Hfin.
Qed.

Lemma pool_inv_init s w0 : pool_inv s w0 init_pool w0.
Proof.
  split; simpl; [apply frame_refl| |done| | |].
  - intros Hk. by destruct (Hk 0).
  - intros r [=].
  - intros it c Hin. by apply elem_of_nil in Hin.
  - intros k t _ Hf. by rewrite lookup_empty in Hf.
Qed.

Lemma reachable_inv s w0 c :
  NoDup (tasks s) ->
  (forall t, t ∈ tasks s -> is_Some (heap_tasks w0 !! t)) ->
  reachable s w0 c -> pool_inv s w0 c.1 c.2.
Proof.
  intros Hnd Hex Hr. unfold reachable in Hr.
  apply (rtc_ind_r (R := pool_step s)
           (fun c => reachable s w0 c /\ pool_inv s w0 c.1 c.2)
           (init_pool, w0)); [| |done].
  - split; [apply rtc_refl|apply pool_inv_init].
  - intros y z _ Hstep [Hy IH]. split; [by eapply rtc_r|].
    apply (pool_step_inv s w0 y z); [done..| |done].
    by apply (reachable_fifo s w0).
Qed.

Lemma frame_quiet w0 w t :
  frame w0 w -> quiet_observers w0 t -> quiet_observers w t.
Proof.
  intros (Ho & [_ Hs] & Hh) Hq tk o Ht Hin. specialize (Hh t).
  rewrite Ht in Hh. destruct (heap_tasks w0 !! t) as [tk0|] eqn:Ht0;
    [|discriminate].
  apply (f_equal (fmap _observers)) in Hh. simpl in Hh.
  injection Hh as Hsame.
  unfold quiet. rewrite Ho, Hs. apply (Hq tk0); [done|]. by rewrite <- Hsame.
Qed.

(** With quiet observers a thread never raises out of [run], and it
    enters the handler exactly when the work is cut short. *)
Lemma thread_step_pc_quiet c t p w p' w' :
  task_class <$> heap_tasks w !! t = Some c ->
  quiet_observers w t ->
  (forall e, io_fault w t = Some e -> is_Exception e = true) ->
  thread_step c t p w = Some (p', w') ->
  pc_ok p (status_of w t) ->
  pc_quiet (io_fault w t) p (status_of w t) ->
  pc_quiet (io_fault w t) p' (status_of w' t).
Proof.
  intros Hc Hq Hexn.
  destruct (heap_tasks w !! t) as [tk|] eqn:Ht; [|discriminate].
  injection Hc as <-.
  destruct p as [st|st old|st old i| |r]; cbn [thread_step].
  - unfold self_task. rewrite Ht. by intros [= <- <-] _.
  - unfold write_status, bind, self_task. rewrite Ht. by intros [= <- <-] _.
  - unfold self_task. rewrite Ht.
    destruct (_observers tk !! i) as [o|] eqn:Hi.
    + rewrite call_update_eq.
      rewrite (quiet_obs_raises w t tk o old (stage_name st) Ht).
      * by intros [= <- <-] _.
      * apply (Hq tk); [done|]. by eapply list_elem_of_lookup_2.
    + intros [= <- <-] Hok Hst. simpl in Hok, Hst. rewrite Hok.
      destruct st; simpl; [done| |].
      * by rewrite Hst.
      * by destruct Hst as [e ->].
  - destruct (work_spec t tk w Ht) as (evs & Ew & _). rewrite Ew.
    destruct (io_fault w t) as [e|] eqn:Hio; cbn [result_of].
    + intros [= <- <-] _ _. unfold catch. rewrite (Hexn e eq_refl). by simpl.
    + by intros [= <- <-] _ _.
  - discriminate.
Qed.

(** Between two stores of one call of [run_all] a task keeps its class,
    and its work is cut short by the same exception. *)
Lemma frame_class w0 w t :
  frame w0 w ->
  task_class <$> heap_tasks w !! t = task_class <$> heap_tasks w0 !! t.
Proof.
  intros (_ & _ & Hh). specialize (Hh t).
  destruct (heap_tasks w !! t) as [tk|], (heap_tasks w0 !! t) as [tk0|];
    try done.
  simpl in *. by injection Hh as ->.
Qed.

Lemma frame_io_fault w0 w t : frame w0 w -> io_fault w t = io_fault w0 t.
Proof.
  intros (_ & [Hsl Hst] & Hh). specialize (Hh t). unfold io_fault.
  rewrite Hsl, Hst.
  destruct (heap_tasks w !! t) as [tk|], (heap_tasks w0 !! t) as [tk0|];
    try done.
  simpl in *. by injection Hh as -> ->.
Qed.

Lemma pool_step_classes s w0 c c' :
  pool_step s c c' -> frame w0 c.2 ->
  pool_classes w0 c.1 -> pool_classes w0 c'.1.
Proof.
  intros Hstep Hfr Hcls. unfold pool_classes in *.
  destruct Hstep; simpl in *; try done.
  - intros it [Hin|Hin]; [|apply Hcls; by right].
    apply elem_of_app in Hin as [Hin|Hin%list_elem_of_singleton];
      [apply Hcls; by left|].
    subst it; simpl.
    rewrite <- (frame_class w0 w t Hfr). by rewrite H0.
  - intros it' [Hin|[c0 Hin]].
    + apply Hcls. left. by right.
    + apply elem_of_app in Hin as [Hin|Hin%list_elem_of_singleton].
      * apply Hcls. right. by exists c0.
      * injection Hin as -> _. apply Hcls. left. left.
  - intros it' [Hin|[c0 Hin]]; [apply Hcls; by left|].
    apply Hcls. right.
    apply elem_of_app in Hin as [Hin|Hin].
    + exists c0. apply elem_of_app; by left.
    + apply elem_of_cons in Hin as [Hin|Hin].
      * injection Hin as -> _. exists p. apply elem_of_app; right; left.
      * exists c0. apply elem_of_app; right; by right.
  - intros it' [Hin|[c0 Hin]]; [apply Hcls; by left|].
    apply Hcls. right. exists c0.
    apply elem_of_app in Hin as [?|?]; apply elem_of_app;
      [by left|right; by right].
Qed.

Lemma reachable_classes s w0 c :
  reachable s w0 c -> frame w0 c.2 /\ pool_classes w0 c.1.
Proof.
  intros Hr. unfold reachable in Hr.
  apply (rtc_ind_r (R := pool_step s)
           (fun c => frame w0 c.2 /\ pool_classes w0 c.1)
           (init_pool, w0)); [| |done].
  - split; [apply frame_refl|].
    intros it [Hin|[c0 Hin]]; by apply elem_of_nil in Hin.
  - intros y z _ Hstep [Hfr Hcls]. split.
    + destruct Hstep; simpl in *; try done. by eapply thread_step_frame.
    + by eapply pool_step_classes.
Qed.

(** The task of a thread that moves is not the task of any other worker,
    nor of any finished item. *)
Lemma stepping_task_distinct s m q ws1 it p ws2 fs ad :
  NoDup (tasks s) ->
  pool_fifo s (mkPool m q (ws1 ++ (it, p) :: ws2) fs ad) ->
  (forall it' c0, (it', c0) ∈ ws1 ++ ws2 -> item_task it' <> item_task it)
  /\ (forall k t, tasks s !! k = Some t -> is_Some (fs !! k) ->
        t <> item_task it).
Proof.
  intros Hnd [_ _ _ Hrun Hwnd Hw _ _]; simpl in *.
  assert (Hit : item_ok s it).
  { apply (Hrun it p). apply elem_of_app; right; left. }
  split.
  - intros it' c0 Hin.
    apply (distinct_tasks s (item_future it') (item_future it)); [done| |done|].
    + apply (Hrun it' c0).
      apply elem_of_app in Hin as [?|?]; apply elem_of_app;
        [by left|right; by right].
    + intros Heq. rewrite worker_futures_app in Hwnd. simpl in Hwnd.
      apply NoDup_app in Hwnd as (_ & Hd1 & Hd2).
      apply NoDup_cons in Hd2 as [Hd2 _].
      apply elem_of_app in Hin as [Hin|Hin].
      * apply (Hd1 (item_future it')).
        { apply list_elem_of_fmap. by exists (it', c0). }
        rewrite Heq. left.
      * apply Hd2. rewrite <- Heq.
        apply list_elem_of_fmap. by exists (it', c0).
  - intros k t Hk [x Hf].
    apply (distinct_tasks s k (item_future it)); [done..|].
    intros ->.
    destruct (Hw (item_future it)) as [_ Hnone].
    { apply (worker_future_in _ _ _ _ _ it p).
      apply elem_of_app; right; left. }
    congruence.
Qed.

Lemma pool_step_quiet s w0 c c' :
  NoDup (tasks s) ->
  (forall t, t ∈ tasks s -> is_Some (heap_tasks w0 !! t)) ->
  (forall t, t ∈ tasks s -> quiet_observers w0 t) ->
  (forall t e, io_fault w0 t = Some e -> is_Exception e = true) ->
  pool_step s c c' ->
  pool_fifo s c.1 -> pool_inv s w0 c.1 c.2 -> pool_classes w0 c.1 ->
  pool_quiet s w0 c.1 c.2 -> pool_quiet s w0 c'.1 c'.2.
Proof.
  intros Hnd Hex Hq0 Hexn Hstep Hfifo [Hfr _ _ _ Hth _] Hcls [Hqt Hqf].
  destruct Hstep; simpl in *; try (by split).
  - (* a worker takes an item *)
    split; simpl; [|done].
    intros it' c0 [Hin|Hin%list_elem_of_singleton]%elem_of_app.
    + by apply Hqt.
    + by simplify_eq.
  - (* a thread steps *)
    destruct (stepping_task_distinct s m q ws1 it p ws2 fs ad Hnd Hfifo)
      as [Hd1 Hd2].
    assert (Hit : item_task it ∈ tasks s).
    { destruct Hfifo as [_ _ _ Hrun _ _ _ _]; simpl in Hrun.
      eapply list_elem_of_lookup_2. apply (Hrun it p).
      apply elem_of_app; right; left. }
    pose proof (frame_io_fault w0 w (item_task it) Hfr) as Hff.
    split; simpl.
    + intros it' c0 Hin. apply elem_of_app in Hin as [Hin|Hin].
      * rewrite (thread_step_status_other _ _ _ _ _ _ _ H).
        -- apply Hqt. apply elem_of_app; by left.
        -- apply (Hd1 it' c0). apply elem_of_app; by left.
      * apply elem_of_cons in Hin as [Heq|Hin].
        -- simplify_eq. rewrite <- Hff.
           eapply thread_step_pc_quiet; [| | |done| |].
           ++ rewrite (frame_class w0 w _ Hfr). apply Hcls. right.
              exists p. apply elem_of_app; right; left.
           ++ by apply (frame_quiet w0 w), Hq0.
           ++ rewrite Hff. apply Hexn.
           ++ apply Hth. apply elem_of_app; right; left.
           ++ rewrite Hff. apply Hqt. apply elem_of_app; right; left.
        -- rewrite (thread_step_status_other _ _ _ _ _ _ _ H).
           ++ apply Hqt. apply elem_of_app; right; by right.
           ++ apply (Hd1 it' c0). apply elem_of_app; by right.
    + intros k t r Hk Hf.
      rewrite (thread_step_status_other _ _ _ _ _ _ _ H); [by eapply Hqf|].
      by apply (Hd2 k t).
  - (* a thread finishes *)
    assert (Hit : item_ok s it).
    { destruct Hfifo as [_ _ _ Hrun _ _ _ _]; simpl in Hrun.
      apply (Hrun it (PcRet r)). apply elem_of_app; right; left. }
    split; simpl.
    + intros it' c0 Hin. apply Hqt.
      apply elem_of_app in Hin as [?|?]; apply elem_of_app;
        [by left|right; by right].
    + intros k t r0 Hk Hf. destruct (decide (k = item_future it)) as [->|Hne].
      * rewrite lookup_insert_eq in Hf. injection Hf as <-.
        assert (t = item_task it) as -> by (unfold item_ok in Hit; congruence).
        specialize (Hqt it (PcRet r)). simpl in Hqt.
        destruct r as [e|].
        -- exfalso. apply Hqt. apply elem_of_app; right; left.
        -- split; [done|]. apply Hqt. apply elem_of_app; right; left.
      * rewrite lookup_insert_ne in Hf by done. by eapply Hqf.
Qed.

Lemma reachable_quiet s w0 c :
  NoDup (tasks s) ->
  (forall t, t ∈ tasks s -> is_Some (heap_tasks w0 !! t)) ->
  (forall t, t ∈ tasks s -> quiet_observers w0 t) ->
  (forall t e, io_fault w0 t = Some e -> is_Exception e = true) ->
  reachable s w0 c -> pool_quiet s w0 c.1 c.2.
Proof.
  intros Hnd Hex Hq0 Hexn Hr. unfold reachable in Hr.
  apply (rtc_ind_r (R := pool_step s)
           (fun c => reachable s w0 c /\ pool_quiet s w0 c.1 c.2)
           (init_pool, w0)); [| |done].
  - split; [apply rtc_refl|]. split; simpl.
    + intros it c0 Hin. by apply elem_of_nil in Hin.
    + intros k t r _ Hf. by rewrite lookup_empty in Hf.
  - intros y z _ Hstep [Hy IH]. split; [by eapply rtc_r|].
    apply (pool_step_quiet s w0 y z); [done..| | | |done].
    + by apply (reachable_fifo s w0).
    + by apply reachable_inv.
    + by apply (reachable_classes s w0).
Qed.

(** ** Every execution of [run_all] ends *)

Lemma thread_step_n_obs c t p w p' w' t' :
  thread_step c t p w = Some (p', w') -> n_obs w' t' = n_obs w t'.
Proof.
  intros Hstep. unfold n_obs.
  destruct (thread_step_world c t p w p' w' Hstep)
    as (evs & [-> | (tk & s & Ht & ->)]); [done|].
  simpl. destruct (decide (t = t')) as [<-|Hne].
  - by rewrite lookup_insert_eq, Ht.
  - by rewrite lookup_insert_ne.
Qed.

(** Each step of a thread uses up some of its bound. *)
Lemma thread_step_cost c t p w p' w' :
  thread_step c t p w = Some (p', w') ->
  pc_cost (n_obs w t) p' < pc_cost (n_obs w t) p.
Proof.
  unfold n_obs.
  destruct p as [st|st old|st old i| |r]; cbn [thread_step].
  - unfold self_task. destruct (heap_tasks w !! t) as [tk|];
      intros [= <- <-]; [simpl; lia|].
    destruct st; simpl; lia.
  - unfold write_status, bind, self_task.
    destruct (heap_tasks w !! t) as [tk|]; intros [= <- <-]; [simpl; lia|].
    destruct st; simpl; lia.
  - unfold self_task. destruct (heap_tasks w !! t) as [tk|] eqn:Ht.
    + destruct (_observers tk !! i) as [o|] eqn:Hi.
      * apply lookup_lt_Some in Hi. rewrite call_update_eq.
        destruct (obs_raises w t old (stage_name st) o) as [e|];
          intros [= <- <-]; cbn [from_option].
        -- destruct st; unfold catch; simpl;
             try destruct (is_Exception e); simpl; lia.
        -- simpl. lia.
      * intros [= <- <-]. destruct st; simpl; lia.
    + intros [= <- <-]. destruct st; simpl; lia.
  - destruct (work c t w) as [[[]|e] w1]; intros [= <- <-].
    + simpl. lia.
    + unfold catch. destruct (is_Exception e); simpl; lia.
  - discriminate.
Qed.

Lemma sum_list_with_ext {A} (f g : A -> nat) l :
  (forall x, f x = g x) -> sum_list_with f l = sum_list_with g l.
Proof. intros H. induction l as [|x l IH]; simpl; [done|]. by rewrite H, IH. Qed.

Lemma pool_measure_frame s p w w' :
  (forall t, n_obs w' t = n_obs w t) ->
  pool_measure s (p, w') = pool_measure s (p, w).
Proof.
  intros Hn. unfold pool_measure.
  assert (Hi : forall t, item_cost w' t = item_cost w t).
  { intros t. unfold item_cost. by rewrite Hn. }
  f_equal; [f_equal|].
  - unfold main_cost. destruct (main p); try done.
    f_equal. f_equal. apply sum_list_with_ext. intros t. by rewrite Hi.
  - apply sum_list_with_ext. intros it. by rewrite Hi.
  - apply sum_list_with_ext. intros x. by rewrite Hn.
Qed.

(** Each step of the pool uses up some of the bound. *)
Lemma pool_step_measure s c c' :
  pool_step s c c' -> pool_measure s c' < pool_measure s c.
Proof.
  intros Hstep. destruct Hstep.
  - unfold pool_measure; cbn [main work_queue workers main_cost].
    rewrite (drop_S (tasks s) t k) by done.
    rewrite sum_list_with_app. simpl. lia.
  - unfold pool_measure; cbn [main work_queue workers main_cost]. lia.
  - unfold pool_measure; cbn [main work_queue workers main_cost]. lia.
  - unfold pool_measure; cbn [main work_queue workers main_cost]. lia.
  - unfold pool_measure; cbn [main work_queue workers main_cost]. lia.
  - unfold pool_measure; cbn [main work_queue workers main_cost]. lia.
  - unfold pool_measure; cbn [main work_queue workers main_cost]. simpl. lia.
  - unfold pool_measure; cbn [main work_queue workers].
    rewrite sum_list_with_app. unfold item_cost. simpl. lia.
  - rewrite (pool_measure_frame s _ w w')
      by (intros t; by eapply thread_step_n_obs).
    apply thread_step_cost in H.
    unfold pool_measure; cbn [main work_queue workers].
    rewrite !sum_list_with_app. simpl. lia.
  - unfold pool_measure; cbn [main work_queue workers].
    rewrite !sum_list_with_app. simpl. lia.
Qed.

Lemma worker_enabled s p w :
  workers p <> [] -> is_Some (pool_do s (Worker 0) (p, w)).
Proof.
  intros Hws. cbn [pool_do]. destruct (workers p) as [|[it c] ws]; [done|].
  cbn [lookup list_lookup].
  destruct c as [st|st old|st old i| |r]; [| | | |done];
    (edestruct (thread_step_total (item_class it) (item_task it)) as [[c1 w1] ->];
     [by intros r|done]).
Qed.

Lemma pool_next_enabled s p w :
  work_queue p <> [] \/ workers p <> [] -> is_Some (pool_next s (p, w)).
Proof.
  intros Hne. unfold pool_next.
  destruct (pool_do s Main (p, w)); [done|].
  destruct (pool_do s Take (p, w)) eqn:Htk; [done|].
  apply worker_enabled. destruct Hne as [Hq|Hw]; [|done].
  cbn [pool_do] in Htk. destruct (work_queue p) as [|it q]; [done|].
  destruct (decide (length (workers p) < max_workers)) as [|Hfull];
    [discriminate|].
  intros Hnil. rewrite Hnil in Hfull. simpl in Hfull.
  unfold max_workers in Hfull. lia.
Qed.

(** As long as [run_all] has not returned, some thread can move. *)
Lemma pool_next_progress s c :
  pool_fifo s c.1 -> (forall r, main c.1 <> MReturned r) ->
  is_Some (pool_next s c).
Proof.
  destruct c as [p w]. simpl.
  intros [_ (m & Hord & _ & _ & Hres) _ _ _ _ _ Had] Hmain.
  destruct (pool_do s Main (p, w)) as [c'|] eqn:Hdo.
  { unfold pool_next. by rewrite Hdo. }
  apply pool_next_enabled.
  cbn [pool_do] in Hdo. destruct p as [mp q ws fs ad]. simpl in *.
  destruct mp as [k|j|r|r].
  - destruct (tasks s !! k) as [t|]; [|done].
    by destruct (heap_tasks w !! t).
  - destruct (decide (j < length (tasks s))) as [Hj|]; [|done].
    destruct (fs !! j) as [[e|]|] eqn:Hf; [done..|].
    assert (Hin : j ∈ ad ++ queue_futures (mkPool (MResult j) q ws fs ad)).
    { rewrite Hord, (Hres j eq_refl). apply elem_of_seq. lia. }
    apply elem_of_app in Hin as [Hin|Hin].
    + right. destruct (Had j Hin) as [Hw|[x Hx]]; [|congruence].
      intros ->. by apply elem_of_nil in Hw.
    + left. intros ->. by apply elem_of_nil in Hin.
  - destruct q; [|by left]. destruct ws; [done|by right].
  - by destruct (Hmain r).
Qed.

Lemma pool_measure_returned s p w :
  pool_measure s (p, w) = 0 -> exists r, main p = MReturned r.
Proof.
  unfold pool_measure. destruct (main p) as [k|j|r|r]; simpl; try lia.
  by exists r.
Qed.

(** Under the schedule [pool_next], [run_all] returns within the bound. *)
Lemma pool_exec_returns s w0 fuel c :
  reachable s w0 c -> pool_measure s c <= fuel ->
  exists r, main (pool_exec fuel s c).1 = MReturned r.
Proof.
  revert c. induction fuel as [|fuel IH]; intros [p w] Hr Hm.
  - apply (pool_measure_returned s p w). lia.
  - cbn [pool_exec]. destruct (pool_next s (p, w)) as [c'|] eqn:Hn.
    + apply IH.
      * eapply rtc_r; [exact Hr|]. by apply pool_next_sound.
      * apply pool_next_sound, pool_step_measure in Hn. lia.
    + simpl. destruct (main p) as [k|j|r|r] eqn:Hmain; [| | |by exists r];
        (destruct (pool_next_progress s (p, w)) as [c' Hc'];
         [by apply (reachable_fifo s w0)|simpl; congruence|congruence]).
Qed.

Lemma run_all_returns s w :
  exists r w' p,
    run_all (pool_measure s (init_pool, w)) s w = Some (r, w')
    /\ reachable s w (p, w') /\ main p = MReturned r.
Proof.
  set (fuel := pool_measure s (init_pool, w)).
  destruct (pool_exec_returns s w fuel (init_pool, w)) as [r Hr];
    [apply rtc_refl|done|].
  pose proof (pool_exec_reachable fuel s w (init_pool, w) (rtc_refl _ _)) as Hre.
  unfold run_all. destruct (pool_exec fuel s (init_pool, w)) as [p w'].
  simpl in Hr. exists r, w', p. split; [|done].
  destruct p as [m q ws fs ad]. simpl in Hr. by subst m.
Qed.

(** ** [TaskScheduler.run_all] *)

(** C5, as amended.  For a scheduler whose tasks are distinct objects,
    [run_all] comes to an end, in a configuration that the pool reaches;
    and on every schedule, when it has returned or raised, the queue is
    empty, no worker is left and every submitted [run] has finished: no
    task is dropped because another one failed.  A task whose [run]
    returned has a terminal status, so after a normal return every task
    is Completed or Failed.  An exception leaves [run_all] only if it
    came out of the [run] of some task: when every [run] has returned,
    having caught what was raised inside it, [run_all] returns
    normally.  When the observers are quiet and the work raises nothing
    outside class [Exception], no [run] lets an exception out:
    [run_all] returns normally, with Failed for the tasks whose work
    raised and Completed for the others. *)
Theorem run_all_waits_for_every_task s w0 :
  NoDup (tasks s) ->
  Forall (fun t => is_Some (heap_tasks w0 !! t)) (tasks s) ->
  (exists r w' p,
      run_all (pool_measure s (init_pool, w0)) s w0 = Some (r, w')
      /\ reachable s w0 (p, w') /\ main p = MReturned r)
  /\ forall p w r,
      reachable s w0 (p, w) -> main p = MReturned r ->
      work_queue p = [] /\ workers p = []
      /\ (forall k, k < length (tasks s) -> is_Some (futures p !! k))
      /\ (forall k t, tasks s !! k = Some t -> futures p !! k = Some None ->
            terminal (status_of w t))
      /\ (r = None -> forall t, t ∈ tasks s -> terminal (status_of w t))
      /\ (forall e, r = Some e -> exists j, futures p !! j = Some (Some e))
      /\ ((forall k, k < length (tasks s) -> futures p !! k = Some None) ->
          r = None)
      /\ ((forall t, t ∈ tasks s -> quiet_observers w0 t) ->
          (forall t e, io_fault w0 t = Some e -> is_Exception e = true) ->
          r = None
          /\ forall t, t ∈ tasks s ->
               status_of w t = Some (final_status (io_fault w0 t))).
Proof.
  intros Hnd Hex. rewrite Forall_forall in Hex. split.
  { destruct (run_all_returns s w0) as (r & w' & p & Hrun & Hreach & Hmain).
    by exists r, w', p. }
  intros p w r Hreach Hmain.
  pose proof (reachable_fifo s w0 (p, w) Hreach) as Hfifo.
  pose proof (reachable_inv s w0 (p, w) Hnd Hex Hreach) as Hinv.
  destruct Hfifo as [_ _ _ _ _ _ Hdone Had].
  destruct Hinv as [_ Hall Hmok Hret _ Hfin]. simpl in *.
  destruct (Hret r Hmain) as [Hq Hws].
  assert (Htk : taken p = seq 0 (length (tasks s))).
  { rewrite <- Hall by (intros k; congruence).
    unfold queue_futures. rewrite Hq. simpl. by rewrite app_nil_r. }
  assert (Hfut : forall k, k < length (tasks s) -> is_Some (futures p !! k)).
  { intros k Hk. destruct (Had k) as [Hin|?]; [| |done].
    - rewrite Htk. apply elem_of_seq. lia.
    - unfold worker_futures in Hin. rewrite Hws in Hin.
      by apply elem_of_nil in Hin. }
  rewrite Hmain in Hmok. simpl in Hmok.
  assert (Hlt : forall j, is_Some (futures p !! j) -> j < length (tasks s)).
  { intros j Hj. apply Hdone in Hj. rewrite Htk in Hj.
    apply elem_of_seq in Hj. lia. }
  split_and!; [done|done|done|done|..].
  - intros -> t Ht. apply list_elem_of_lookup_1 in Ht as [k Hk].
    apply (Hfin k t Hk). apply Hmok. by apply lookup_lt_Some in Hk.
  - intros e ->. destruct Hmok as (j & Hj & _). by exists j.
  - intros Hnone. destruct r as [e|]; [|done].
    destruct Hmok as (j & Hj & _).
    rewrite Hnone in Hj; [done|]. apply Hlt. by eexists.
  - intros Hquiet Hexn.
    destruct (reachable_quiet s w0 (p, w) Hnd Hex Hquiet Hexn Hreach)
      as [_ Hqf]. simpl in Hqf.
    split.
    + destruct r as [e|]; [|done]. destruct Hmok as (j & Hj & _).
      destruct (lookup_lt_is_Some_2 (tasks s) j) as [t Ht];
        [apply Hlt; by eexists|].
      by destruct (Hqf j t (Some e) Ht Hj).
    + intros t Ht. apply list_elem_of_lookup_1 in Ht as [k Hk].
      destruct (Hfut k) as [r' Hr']; [by apply lookup_lt_Some in Hk|].
      by destruct (Hqf k t r' Hk Hr').
Qed.

Lemma run_all_waits_for_every_task_witness :
  NoDup (tasks demo_scheduler)
  /\ Forall (fun t => is_Some (heap_tasks demo_world !! t)) (tasks demo_scheduler)
  /\ exists w',
       run_all (pool_measure demo_scheduler (init_pool, demo_world))
               demo_scheduler demo_world = Some (None, w')
       /\ forall t, t ∈ tasks demo_scheduler -> terminal (status_of w' t).
Proof.
  assert (Hnd : NoDup (tasks demo_scheduler)) by compute_done.
  assert (Hex : Forall (fun t => is_Some (heap_tasks demo_world !! t))
                  (tasks demo_scheduler)) by compute_done.
  split; [exact Hnd|]. split; [exact Hex|].
  destruct (run_all_waits_for_every_task demo_scheduler demo_world Hnd Hex)
    as [(r & w' & p & Hrun & Hreach & Hmain) Hall].
  assert (Hr : r = None).
  { assert (Hc : exists w'',
      run_all (pool_measure demo_scheduler (init_pool, demo_world))
              demo_scheduler demo_world = Some (None, w''))
      by (eexists; vm_compute; reflexivity).
    destruct Hc as [w'' Hc]. congruence. }
  subst r. exists w'. split; [exact Hrun|].
  by destruct (Hall p w' None Hreach Hmain) as (_ & _ & _ & _ & Hterm & _);
    apply Hterm.
Defined.

(** C5 as stated fails: the sleep of the first task is interrupted by an
    [OSError], [run] catches it and marks the task Failed, the observer
    that is told of Failed raises, and that exception leaves [run] and
    then [run_all]; the other tasks have completed. *)
Lemma run_all_raises_after_marking_failed :
  NoDup (tasks demo_scheduler)
  /\ Forall (fun t => is_Some (heap_tasks failing_task_world !! t))
            (tasks demo_scheduler)
  /\ exists w',
       run_all 100 demo_scheduler failing_task_world
       = Some (Some (UserException "RuntimeError"), w')
       /\ status_writes 0 (events_since failing_task_world w')
          = ["Running"; "Failed"]
       /\ status_of w' <$> [0; 1; 2; 3]
          = [Some "Failed"; Some "Completed"; Some "Completed";
             Some "Completed"].
Proof.
  split; [compute_done|]. split; [compute_done|].
  eexists. split; [vm_compute; reflexivity|]. vm_compute. by split.
Qed.

Lemma pool_bounded_and_fifo_witness :
  let c := pool_run crowd_scheduler crowd_schedule (init_pool, crowd_world) in
  reachable crowd_scheduler crowd_world c
  /\ length (workers c.1) <= 5.
Proof.
  intros c.
  assert (Hr : reachable crowd_scheduler crowd_world c)
    by apply pool_run_reachable, rtc_refl.
  split; [exact Hr|]. destruct c as [p w].
  apply (pool_bounded_and_fifo crowd_scheduler crowd_world p w Hr).
Defined.

(** ** The demonstration, run *)

(** The set-up of the source builds the scheduler and the four tasks. *)
Example demo_setup_result :
  (demo_setup demo_input empty_world).1 = Ok demo_scheduler
  /\ (fun t => _observers <$> heap_tasks demo_world !! t) <$> [0; 1; 2; 3]
     = replicate 4 (Some [0])
  /\ heap_obs demo_world !! 0 = Some TaskLogger.
Proof. vm_compute. split_and!; reflexivity. Qed.

(** [run_all] on the four tasks of the source: every task completes. *)
Example demo_run_all :
  exists w',
    run_all 80 demo_scheduler demo_world = Some (None, w')
    /\ status_of w' <$> [0; 1; 2; 3] = replicate 4 (Some "Completed").
Proof. eexists. split; [vm_compute; reflexivity|]. vm_compute. reflexivity. Qed.

(** With eight tasks the pool is full at five workers, and the three
    items behind them wait in the order of submission. *)
Example crowd_at_capacity :
  let p := (pool_run crowd_scheduler crowd_schedule (init_pool, crowd_world)).1 in
  length (workers p) = 5
  /\ taken p = [0; 1; 2; 3; 4]
  /\ queue_futures p = [5; 6; 7].
Proof. vm_compute. split_and!; reflexivity. Qed.

(** When the work of every task is cut short, every task ends Failed and
    [run_all] returns normally. *)
Example demo_run_all_failed :
  exists w',
    run_all 80 demo_scheduler (with_fault (UserException "OSError") demo_world)
    = Some (None, w')
    /\ status_of w' <$> [0; 1; 2; 3] = replicate 4 (Some "Failed").
Proof. eexists. split; [vm_compute; reflexivity|]. vm_compute. reflexivity. Qed.

(** On a standard output that cannot encode the arrow of the log line,
    the logger raises each time it is called: every [run] ends in its
    handler, whose own notification raises again, so every task is
    Failed and [run_all] raises [UnicodeEncodeError] after the opening
    line; nothing else is printed. *)
Example demo_on_ascii_stdout :
  exists s w1 w',
    demo_start demo_input (on_ascii_stdout empty_world) = (Ok s, w1)
    /\ run_all 100 s w1
       = Some (Some (UserException "UnicodeEncodeError"), w')
    /\ status_of w' <$> tasks s = replicate 4 (Some "Failed")
    /\ output (trace w') = [EvPrint "=== Starting Task Scheduler ==="].
Proof.
  eexists _, _, _. split; [vm_compute; reflexivity|].
  split; [vm_compute; reflexivity|]. vm_compute. by split.
Qed.

(** An exception that leaves the [run] of one task is raised again by
    [result()], so it leaves [run_all]; the other tasks have run all the
    same. *)
Example spoiled_run_all :
  exists w',
    run_all 100 demo_scheduler spoiled_world
    = Some (Some (UserException "RuntimeError"), w')
    /\ status_of w' <$> [0; 1; 2; 3]
       = [Some "Completed"; Some "Failed"; Some "Completed"; Some "Completed"].
Proof. eexists. split; [vm_compute; reflexivity|]. vm_compute. reflexivity. Qed.

(** ** The thread of a task executes [run] *)

Lemma thread_exec_ret fuel c t r w :
  thread_exec fuel c t (PcRet r) w = (PcRet r, w).
Proof. by destruct fuel. Qed.

Lemma thread_exec_step fuel c t p w p' w' :
  thread_step c t p w = Some (p', w') ->
  thread_exec (S fuel) c t p w = thread_exec fuel c t p' w'.
Proof. intros H. cbn [thread_exec]. by rewrite H. Qed.

Lemma thread_exec_notify c t tk st old w rest :
  heap_tasks w !! t = Some tk ->
  forall i, drop i (_observers tk) = rest ->
  exists fuel, forall extra,
    thread_exec (fuel + extra) c t (PcNotify st old i) w
    = thread_exec extra c t
        (stage_exit st (first_exn w t old (stage_name st) rest))
        (emit (notify_events w t old (stage_name st) rest) w).
Proof.
  intros Ht. revert w Ht.
  induction rest as [|o rest IH]; intros w Ht i Hdrop.
  - exists 1. intros extra. cbn [Nat.add].
    erewrite thread_exec_step; [by rewrite emit_nil|].
    cbn [thread_step]. unfold self_task. rewrite Ht.
    assert (_observers tk !! i = None) as ->; [|done].
    rewrite <- (Nat.add_0_r i), <- lookup_drop, Hdrop. done.
  - assert (Hi : _observers tk !! i = Some o).
    { rewrite <- (Nat.add_0_r i), <- lookup_drop, Hdrop. done. }
    assert (Hdrop' : drop (S i) (_observers tk) = rest).
    { rewrite (drop_S _ _ _ Hi) in Hdrop. by injection Hdrop. }
    assert (Hstep : thread_step c t (PcNotify st old i) w
      = Some (match obs_raises w t old (stage_name st) o with
              | Some e => catch (in_handler st) e
              | None => PcNotify st old (S i)
              end, emit (update_events w t old (stage_name st) o) w)).
    { cbn [thread_step]. unfold self_task. rewrite Ht, Hi, call_update_eq.
      by destruct (obs_raises w t old (stage_name st) o). }
    unfold notify_events. cbn [first_exn notified fmap list_fmap concat].
    destruct (obs_raises w t old (stage_name st) o) as [e|] eqn:Ho.
    + exists 1. intros extra. cbn [Nat.add].
      erewrite thread_exec_step; [|exact Hstep].
      simpl. by rewrite app_nil_r.
    + set (w1 := emit (update_events w t old (stage_name st) o) w).
      destruct (IH w1 Ht (S i) Hdrop') as [fuel Hfuel].
      exists (S fuel). intros extra. cbn [Nat.add].
      erewrite thread_exec_step; [|exact Hstep].
      rewrite Hfuel. subst w1.
      rewrite (first_exn_heaps (emit _ w) w), (notify_events_heaps (emit _ w) w)
        by done.
      by rewrite emit_emit.
Qed.

(** From the start of a stage the thread does what [set_status] does. *)
Lemma thread_exec_set_status c t st w :
  exists fuel, forall extra,
    thread_exec (fuel + extra) c t (PcRead st) w
    = thread_exec extra c t
        (match (set_status t (stage_name st) w).1 with
         | Ok _ => after_stage st
         | Raise e => catch (in_handler st) e
         end)
        (set_status t (stage_name st) w).2.
Proof.
  destruct (heap_tasks w !! t) as [tk|] eqn:Ht.
  - rewrite (set_status_eq t tk (stage_name st) w Ht).
    set (w1 := put_task t (with_status (stage_name st) tk) w).
    set (w2 := emit [EvStatus t (status tk) (stage_name st)] w1).
    assert (Ht2 : heap_tasks w2 !! t = Some (with_status (stage_name st) tk)).
    { subst w2 w1. simpl. by rewrite lookup_insert_eq. }
    destruct (thread_exec_notify c t _ st (status tk) w2 (_observers tk) Ht2 0)
      as [fuel Hfuel]; [done|].
    exists (S (S fuel)). intros extra. cbn [Nat.add].
    erewrite thread_exec_step;
      [|cbn [thread_step]; unfold self_task; by rewrite Ht].
    erewrite thread_exec_step;
      [|cbn [thread_step]; unfold write_status, bind, self_task; by rewrite Ht].
    fold w1. fold w2. rewrite Hfuel. subst w2.
    rewrite (first_exn_heaps (emit _ w1) w1), (notify_events_heaps (emit _ w1) w1)
      by done.
    rewrite emit_emit. cbn [fst snd app].
    by destruct (first_exn w1 t (status tk) (stage_name st) (_observers tk)).
  - exists 1. intros extra. cbn [Nat.add].
    erewrite thread_exec_step;
      [|cbn [thread_step]; unfold self_task; by rewrite Ht].
    unfold set_status, bind, self_task. by rewrite Ht.
Qed.

(** The thread of a work item, run on its own, ends with the outcome
    and in the store of [run_class]. *)
Lemma thread_exec_run_class c t w :
  exists fuel r w',
    run_class c t w = (result_of r, w')
    /\ thread_exec fuel c t (PcRead SRunning) w = (PcRet r, w').
Proof.
  assert (Hhandler : forall w1 e, is_Exception e = true ->
    exists fuel r w2,
      set_status t "Failed" w1 = (result_of r, w2)
      /\ thread_exec fuel c t (catch false e) w1 = (PcRet r, w2)).
  { intros w1 e He. unfold catch. rewrite He.
    destruct (thread_exec_set_status c t SFailed w1) as [fuel Hfuel].
    specialize (Hfuel 0). rewrite Nat.add_0_r in Hfuel.
    cbn [stage_name after_stage] in Hfuel.
    destruct (set_status t "Failed" w1) as [[[]|e'] w2]; cbn [fst snd] in *.
    - by exists fuel, None, w2.
    - by exists fuel, (Some e'), w2. }
  assert (Hout : forall w1 e, is_Exception e = false ->
    thread_exec 0 c t (catch false e) w1 = (PcRet (Some e), w1)).
  { intros w1 e He. unfold catch. by rewrite He. }
  unfold run_class, try_except, bind.
  destruct (thread_exec_set_status c t SRunning w) as [f1 H1].
  cbn [stage_name after_stage] in H1.
  destruct (set_status t "Running" w) as [[[]|e1] w1]; cbn [fst snd] in H1.
  - (* the work *)
    destruct (work c t w1) as [[[]|e2] w2] eqn:Hwork.
    + destruct (thread_exec_set_status c t SCompleted w2) as [f3 H3].
      cbn [stage_name after_stage] in H3.
      destruct (set_status t "Completed" w2) as [[[]|e3] w3] eqn:Hset;
        cbn [fst snd] in H3.
      * exists (f1 + S (f3 + 0)), None, w3. split; [done|]. rewrite H1.
        erewrite thread_exec_step; [|cbn [thread_step]; by rewrite Hwork].
        by rewrite H3.
      * destruct (is_Exception e3) eqn:He3.
        -- destruct (Hhandler w3 e3 He3) as (f4 & r & w4 & H4 & Hr).
           exists (f1 + S (f3 + f4)), r, w4. split; [done|]. rewrite H1.
           erewrite thread_exec_step; [|cbn [thread_step]; by rewrite Hwork].
           rewrite H3. cbn [in_handler]. by rewrite Hr.
        -- exists (f1 + S (f3 + 0)), (Some e3), w3. split; [done|]. rewrite H1.
           erewrite thread_exec_step; [|cbn [thread_step]; by rewrite Hwork].
           rewrite H3. cbn [in_handler]. by rewrite Hout.
    + destruct (is_Exception e2) eqn:He2.
      * destruct (Hhandler w2 e2 He2) as (f4 & r & w4 & H4 & Hr).
        exists (f1 + S f4), r, w4. split; [done|]. rewrite H1.
        erewrite thread_exec_step; [|cbn [thread_step]; by rewrite Hwork].
        by rewrite Hr.
      * exists (f1 + 1), (Some e2), w2. split; [done|]. rewrite H1.
        erewrite thread_exec_step; [|cbn [thread_step]; by rewrite Hwork].
        by rewrite Hout.
  - destruct (is_Exception e1) eqn:He1.
    + destruct (Hhandler w1 e1 He1) as (f4 & r & w4 & H4 & Hr).
      exists (f1 + f4), r, w4. split; [done|]. rewrite H1. cbn [in_handler].
      by rewrite Hr.
    + exists (f1 + 0), (Some e1), w1. split; [done|]. rewrite H1.
      cbn [in_handler]. by rewrite Hout.
Qed.

(** ** What can leave [run] *)

(** An exception leaves [run] only if it is outside class [Exception] or
    was raised by the call of [set_status] in the handler. *)
Lemma run_class_raise c t w e w' :
  run_class c t w = (Raise e, w') ->
  is_Exception e = false
  \/ exists w1, set_status t "Failed" w1 = (Raise e, w').
Proof.
  unfold run_class, try_except.
  destruct ((set_status t "Running";; work c t;; set_status t "Completed") w)
    as [[a|e0] w1]; [discriminate|].
  destruct (is_Exception e0) eqn:He.
  - intros Hh. right. by exists w1.
  - intros [= <- <-]. by left.
Qed.

(** Items are taken in the order of submission but may finish in any
    order: here the second task has finished while the first has not
    yet started to run. *)
Example completion_order_is_free :
  let p := (pool_run demo_scheduler
              (replicate 5 Main ++ replicate 4 Take ++ replicate 10 (Worker 1))
              (init_pool, demo_world)).1 in
  taken p = [0; 1; 2; 3]
  /\ futures p !! 1 = Some None
  /\ futures p !! 0 = None
  /\ workers p !! 0 = Some (mkItem 0 0 EmailTask, PcRead SRunning).
Proof. vm_compute. split_and!; reflexivity. Qed.

(** * Further properties *)

(** ** What a step of a thread adds to the trace *)

Lemma status_writes_about t t' evs :
  Forall (about t) evs -> t' <> t -> status_writes t' evs = [].
Proof.
  intros Hall Hne. induction Hall as [|e evs He _ IH]; [done|].
  unfold status_writes in *. cbn [omap list_omap].
  change (list_omap ?f ?l) with (omap f l). rewrite IH.
  destruct e; simpl in *; try done. by rewrite decide_False by congruence.
Qed.

Lemma task_events_about t t' evs :
  Forall (about t) evs -> t' <> t -> task_events t' evs = [].
Proof.
  intros Hall Hne. induction Hall as [|e evs He _ IH]; [done|].
  unfold task_events in *. rewrite filter_cons, IH.
  destruct e; simpl in *; try done;
    by rewrite bool_decide_eq_false_2 by congruence.
Qed.

Lemma task_events_app t evs1 evs2 :
  task_events t (evs1 ++ evs2) = task_events t evs1 ++ task_events t evs2.
Proof. apply filter_app. Qed.

Lemma about_update_events w t a b o : Forall (about t) (update_events w t a b o).
Proof.
  unfold update_events. constructor; [done|].
  destruct (heap_obs w !! o), (heap_tasks w !! t); try constructor.
  induction (update _ _ _ _ _ _).1; by constructor.
Qed.

(** A step of the thread of task [t] looks at the store only through
    the object of [t], the observers, the standard output and the fault
    of the sleep of [t]: on two stores that agree there it goes to the
    same place, adds the same events, all of them about [t], and leaves
    the same object for [t]. *)
Lemma thread_step_sim c t p w1 w2 p' w1' :
  heap_tasks w1 !! t = heap_tasks w2 !! t ->
  heap_obs w1 = heap_obs w2 ->
  sleep_fault w1 t = sleep_fault w2 t ->
  stdout_fault w1 = stdout_fault w2 ->
  thread_step c t p w1 = Some (p', w1') ->
  exists w2' evs,
    thread_step c t p w2 = Some (p', w2')
    /\ heap_tasks w1' !! t = heap_tasks w2' !! t
    /\ trace w1' = trace w1 ++ evs
    /\ trace w2' = trace w2 ++ evs
    /\ Forall (about t) evs
    /\ status_writes t evs
       = match p, heap_tasks w1 !! t with
         | PcWrite st _, Some _ => [stage_name st]
         | _, _ => []
         end.
Proof.
  intros Ht Ho Hf Hs.
  assert (Hfin : forall evs : list event, evs ++ [] = evs) by apply app_nil_r.
  destruct p as [st|st old|st old i| |r]; cbn [thread_step].
  - unfold self_task. rewrite <- Ht.
    destruct (heap_tasks w1 !! t) as [tk|] eqn:Ht1; intros [= <- <-];
      exists w2, []; rewrite !app_nil_r; split_and!; try done; congruence.
  - unfold write_status, bind, self_task. rewrite <- Ht.
    destruct (heap_tasks w1 !! t) as [tk|] eqn:Ht1; intros [= <- <-].
    + eexists _, _. split; [reflexivity|]. simpl.
      rewrite !lookup_insert_eq. split_and!; try done.
      * by repeat constructor.
      * unfold status_writes; simpl. by case_decide.
    + exists w2, []. rewrite !app_nil_r. split_and!; try done; congruence.
  - unfold self_task. rewrite <- Ht.
    destruct (heap_tasks w1 !! t) as [tk|] eqn:Ht1.
    + destruct (_observers tk !! i) as [o|].
      * rewrite !call_update_eq.
        rewrite <- (obs_raises_heaps w1 w2), <- (update_events_heaps w1 w2)
          by (done || congruence).
        destruct (obs_raises w1 t old (stage_name st) o);
          intros [= <- <-]; eexists _, _; (split; [reflexivity|]);
          simpl; split_and!; try done;
          try apply about_update_events; try congruence;
          apply status_writes_update_events.
      * intros [= <- <-]. exists w2, []. rewrite !app_nil_r.
        split_and!; try done; congruence.
    + intros [= <- <-]. exists w2, []. rewrite !app_nil_r.
      split_and!; try done; congruence.
  - destruct (heap_tasks w1 !! t) as [tk|] eqn:Ht1.
    + rewrite (work_eq c t tk w1 Ht1), (work_eq c t tk w2) by congruence.
      rewrite <- Hf, <- Hs.
      destruct (sleep_fault w1 t).
      { intros [= <- <-]. exists w2, []. rewrite !app_nil_r.
        split_and!; try done; congruence. }
      destruct (stdout_fault w1 _); intros [= <- <-];
        eexists _, _; (split; [reflexivity|]); simpl;
        split_and!; try done; try congruence; by repeat constructor.
    + unfold work, bind, time_sleep, self_task, print. rewrite <- Hf.
      destruct (sleep_fault w1 t).
      { intros [= <- <-]. exists w2, []. rewrite !app_nil_r.
        split_and!; try done; congruence. }
      cbn [heap_tasks emit]. rewrite <- Ht, Ht1. intros [= <- <-].
      eexists _, _; (split; [reflexivity|]); simpl;
        split_and!; try done; try congruence; by repeat constructor.
  - discriminate.
Qed.

(** ** The statuses of one [run], whatever the observers do *)

(** The program counter knows which statuses have been written, and the
    status of the task is the last of them. *)
Lemma thread_step_hist c t p w p' w' (ws : list string) (s0 : string) :
  is_Some (heap_tasks w !! t) ->
  writes_at p ws ->
  status_of w t = Some (default s0 (last ws)) ->
  thread_step c t p w = Some (p', w') ->
  exists evs,
    trace w' = trace w ++ evs
    /\ is_Some (heap_tasks w' !! t)
    /\ writes_at p' (ws ++ status_writes t evs)
    /\ status_of w' t = Some (default s0 (last (ws ++ status_writes t evs))).
Proof.
  intros [tk Ht] Hws Hst Hstep.
  destruct (thread_step_sim c t p w w p' w' eq_refl eq_refl eq_refl eq_refl
              Hstep)
    as (w2 & evs & Hstep2 & _ & Htr & _ & _ & Hwr).
  exists evs. split; [done|]. rewrite Hwr, Ht. clear Hwr Hstep2 w2.
  assert (Hcatch : forall e ws',
    ws' = ["Running"] \/ ws' = ["Running"; "Completed"] ->
    writes_at (catch false e) ws').
  { intros e ws' Hw. unfold catch. destruct (is_Exception e) eqn:He; simpl.
    - done.
    - right; right. by split. }
  destruct p as [st|st old|st old i| |r]; cbn [thread_step] in Hstep.
  - unfold self_task in Hstep. rewrite Ht in Hstep.
    injection Hstep as <- <-. rewrite app_nil_r.
    split_and!; [by eexists| |done]. by destruct st.
  - unfold write_status, bind, self_task in Hstep. rewrite Ht in Hstep.
    injection Hstep as <- <-. unfold status_of. simpl.
    rewrite lookup_insert_eq, last_snoc. simpl.
    split_and!; [by eexists| |done].
    destruct st; simpl in *; subst; simpl; try done.
    destruct Hws as [->| ->]; [by left|right; by left].
  - unfold self_task in Hstep. rewrite Ht in Hstep.
    destruct (_observers tk !! i) as [o|].
    + rewrite call_update_eq in Hstep.
      destruct (obs_raises w t old (stage_name st) o) as [e|];
        injection Hstep as <- <-; rewrite app_nil_r;
        (split_and!; [simpl; by eexists| |exact Hst]);
        [|destruct st; simpl in *; [done|done|];
          destruct Hws as [?|[?|[? _]]]; [by left|right; by left|done]].
      destruct st; simpl in *.
      * apply Hcatch. by left.
      * apply Hcatch. by right.
      * destruct Hws as [?|[?|[? _]]]; [by left|right; by left|done].
    + injection Hstep as <- <-. rewrite app_nil_r.
      split_and!; [by eexists| |done].
      destruct st; simpl in *.
      * done.
      * right; right. by split.
      * destruct Hws as [?|[?|[? _]]]; [by left|right; by left|done].
  - rewrite (work_eq c t tk w Ht) in Hstep.
    destruct (sleep_fault w t) as [e|]; [|destruct (stdout_fault w _) as [e|]];
      injection Hstep as <- <-; rewrite app_nil_r;
      (split_and!; [by eexists| |done]); try done; apply Hcatch; by left.
  - discriminate.
Qed.

Lemma thread_exec_hist c t (s0 : string) (w0 : World) fuel :
  forall p w evs0,
    is_Some (heap_tasks w !! t) ->
    trace w = trace w0 ++ evs0 ->
    writes_at p (status_writes t evs0) ->
    status_of w t = Some (default s0 (last (status_writes t evs0))) ->
    exists evs,
      trace (thread_exec fuel c t p w).2 = trace w0 ++ evs
      /\ writes_at (thread_exec fuel c t p w).1 (status_writes t evs)
      /\ status_of (thread_exec fuel c t p w).2 t
         = Some (default s0 (last (status_writes t evs))).
Proof.
  induction fuel as [|fuel IH]; intros p w evs0 Hex Htr Hws Hst.
  - by exists evs0.
  - cbn [thread_exec].
    destruct (thread_step c t p w) as [[p' w']|] eqn:Hstep; [|by exists evs0].
    destruct (thread_step_hist c t p w p' w' _ s0 Hex Hws Hst Hstep)
      as (evs & Htr' & Hex' & Hws' & Hst').
    rewrite <- status_writes_app in Hws', Hst'.
    apply (IH p' w' (evs0 ++ evs)); [done| |done|done].
    by rewrite Htr', Htr, app_assoc.
Qed.

(** X1.  Whatever its observers print or raise, as long as they keep to
    the contract of observers and write to no task, and whatever status
    it starts from, a task that is [run] is first set to Running, and
    then to Completed, to Failed, or to Completed and then Failed; the
    status it is left with is the last one written.  If [run] returns,
    or raises an exception of class [Exception], the task is left
    Completed or Failed; only an exception outside class [Exception]
    can leave it Running. *)
Theorem run_status_writes t tk w r w' :
  heap_tasks w !! t = Some tk ->
  run t w = (r, w') ->
  let ws := status_writes t (events_since w w') in
  status_of w' t = last ws
  /\ match r with
     | Ok _ =>
         ws = ["Running"; "Completed"] \/ ws = ["Running"; "Failed"]
         \/ ws = ["Running"; "Completed"; "Failed"]
     | Raise e =>
         ws = ["Running"; "Failed"] \/ ws = ["Running"; "Completed"; "Failed"]
         \/ (is_Exception e = false
             /\ (ws = ["Running"] \/ ws = ["Running"; "Completed"]))
     end
  /\ (terminal (status_of w' t)
      \/ exists e, r = Raise e /\ is_Exception e = false).
Proof.
  intros Ht Hrun ws. rewrite (run_eq t tk w Ht) in Hrun.
  destruct (thread_exec_run_class (task_class tk) t w)
    as (fuel & r0 & w1 & Hrc & Hexec).
  rewrite Hrc in Hrun. injection Hrun as <- <-.
  destruct (thread_exec_hist (task_class tk) t (status tk) w fuel
              (PcRead SRunning) w [])
    as (evs & Htr & Hws & Hst).
  { by eexists. } { by rewrite app_nil_r. } { done. }
  { unfold status_of. by rewrite Ht. }
  rewrite Hexec in Htr, Hws, Hst. cbn [fst snd] in *.
  subst ws. rewrite (events_since_trace w w1 evs Htr).
  destruct r0 as [e|]; cbn [writes_at result_of] in *.
  - destruct Hws as [Hw|[Hw|[He [Hw|Hw]]]]; rewrite Hw in Hst |- *;
      rewrite Hst; simpl; (split_and!; [done|tauto|]);
      first [left; unfold terminal; tauto | right; by exists e].
  - destruct Hws as [Hw|[Hw|[_ Hw]]]; rewrite Hw in Hst |- *;
      rewrite Hst; simpl; (split_and!; [done|tauto|]);
      left; unfold terminal; tauto.
Qed.

Lemma run_status_writes_witness :
  let w := sample_world "Pending" [0] [fails_on "Completed"] in
  heap_tasks w !! 0 = Some (sample_task "Pending" [0])
  /\ status_of (run 0 w).2 0 = last (status_writes 0 (events_since w (run 0 w).2)).
Proof.
  intros w. split; [vm_compute; reflexivity|].
  apply (run_status_writes 0 (sample_task "Pending" [0]) w
           (run 0 w).1 (run 0 w).2).
  - vm_compute; reflexivity.
  - apply surjective_pairing.
Defined.

(** ** What [run] leaves alone *)

Lemma thread_exec_frame c t fuel :
  forall p w w0, frame w0 w -> frame w0 (thread_exec fuel c t p w).2.
Proof.
  induction fuel as [|fuel IH]; intros p w w0 Hf; [done|].
  cbn [thread_exec]. destruct (thread_step c t p w) as [[p' w']|] eqn:Hs; [|done].
  apply IH. by eapply thread_step_frame.
Qed.

Lemma thread_exec_other c t t' fuel :
  t' <> t ->
  forall p w, heap_tasks (thread_exec fuel c t p w).2 !! t' = heap_tasks w !! t'.
Proof.
  intros Hne. induction fuel as [|fuel IH]; intros p w; [done|].
  cbn [thread_exec]. destruct (thread_step c t p w) as [[p' w']|] eqn:Hs; [|done].
  rewrite IH. by eapply thread_step_other.
Qed.

Lemma thread_exec_trace c t fuel :
  forall p w, trace w `prefix_of` trace (thread_exec fuel c t p w).2.
Proof.
  induction fuel as [|fuel IH]; intros p w; [done|].
  cbn [thread_exec]. destruct (thread_step c t p w) as [[p' w']|] eqn:Hs; [|done].
  etrans; [|apply IH].
  destruct (thread_step_world c t p w p' w' Hs)
    as (evs & [-> | (tk & s & _ & ->)]); by apply prefix_app_r.
Qed.

Lemma frame_same_task w0 w t tk :
  frame w0 w -> heap_tasks w0 !! t = Some tk ->
  exists s, heap_tasks w !! t = Some (with_status s tk).
Proof.
  intros (_ & _ & Hh) Ht. specialize (Hh t). rewrite Ht in Hh.
  destruct (heap_tasks w !! t) as [tk'|]; [|discriminate].
  exists (status tk'). f_equal. destruct tk, tk'. simpl in *.
  injection Hh as -> -> -> -> ->. done.
Qed.

(** X2.  With observers that keep to their contract and write to no
    task and to no observer list, [run] writes nothing but the status
    of its own task and the trace: every other task, and the observer
    list and the other fields of its own task, are as before, and what
    was in the trace stays in front. *)
Theorem run_changes_only_its_status t w :
  let w' := (run t w).2 in
  (forall t', t' <> t -> heap_tasks w' !! t' = heap_tasks w !! t')
  /\ match heap_tasks w !! t with
     | Some tk => exists s, heap_tasks w' !! t = Some (with_status s tk)
     | None => w' = w
     end
  /\ trace w `prefix_of` trace w'.
Proof.
  intros w'. subst w'.
  destruct (heap_tasks w !! t) as [tk|] eqn:Ht.
  - rewrite (run_eq t tk w Ht).
    destruct (thread_exec_run_class (task_class tk) t w)
      as (fuel & r0 & w1 & -> & Hexec). cbn [snd].
    replace w1 with (thread_exec fuel (task_class tk) t (PcRead SRunning) w).2
      by (by rewrite Hexec).
    pose proof (thread_exec_frame (task_class tk) t fuel (PcRead SRunning) w w
                  (frame_refl w)) as Hf.
    split_and!.
    + intros t' Hne. by apply thread_exec_other.
    + by apply (frame_same_task w).
    + apply thread_exec_trace.
  - unfold run, bind, self_task. rewrite Ht. by simpl.
Qed.

(** ** The calls and the output of one [run] *)

Lemma set_status_quiet_eq t tk new_status w :
  heap_tasks w !! t = Some tk ->
  quiet_observers w t ->
  let w1 := put_task t (with_status new_status tk) w in
  set_status t new_status w
  = (Ok tt, emit (EvStatus t (status tk) new_status
                    :: notify_events w1 t (status tk) new_status (_observers tk))
               w1)
  /\ notified w1 t (status tk) new_status (_observers tk) = _observers tk.
Proof.
  intros Ht Hq w1. rewrite (set_status_eq t tk new_status w Ht). fold w1.
  destruct (quiet_first_exn w1 t (with_status new_status tk)
              (status tk) new_status (_observers tk)) as [Hf Hn].
  { subst w1; simpl. by rewrite lookup_insert_eq. }
  { intros o Ho. by apply (Hq tk). }
  by rewrite Hf.
Qed.

(** The events of [run] for a task whose observers are quiet, in closed
    form. *)
Lemma run_class_quiet_events t tk w :
  heap_tasks w !! t = Some tk ->
  quiet_observers w t ->
  let c := task_class tk in
  let obs := _observers tk in
  let to st := put_task t (with_status st tk) w in
  let first :=
    EvStatus t (status tk) "Running"
      :: notify_events (to "Running") t (status tk) "Running" obs in
  let second st :=
    EvStatus t "Running" st :: notify_events (to st) t "Running" st obs in
  let handler (e : pyexn) := if is_Exception e then second "Failed" else [] in
  events_since w (run_class c t w).2
  = first ++
    match sleep_fault w t with
    | Some e => handler e
    | None =>
        match stdout_fault w (banner c (task_id tk)) with
        | Some e => EvSleep (sleep_secs c) :: handler e
        | None =>
            [EvSleep (sleep_secs c); EvPrint (banner c (task_id tk))]
            ++ second "Completed"
        end
    end.
Proof.
  intros Ht Hq c obs to first second handler.
  destruct (set_status_quiet_eq t tk "Running" w Ht Hq) as [E1 _].
  unfold run_class, try_except, bind at 1. rewrite E1.
  set (tkR := with_status "Running" tk) in *.
  set (w1 := emit _ (put_task t tkR w)).
  assert (Hw1 : w1 = emit first (to "Running")) by done.
  assert (Ht1 : heap_tasks w1 !! t = Some tkR)
    by (subst w1; simpl; by rewrite lookup_insert_eq).
  assert (Hq1 : quiet_observers w1 t) by (by apply quiet_observers_put).
  assert (Hsecond : forall st evs,
    set_status t st (emit evs w1)
    = (Ok tt, emit (second st)
                (put_task t (with_status st tkR) (emit evs w1)))).
  { intros st evs.
    destruct (set_status_quiet_eq t tkR st (emit evs w1)) as [E2 _];
      [done|done|].
    rewrite E2. unfold second. f_equal. f_equal. f_equal.
    apply notify_events_heaps; [|done|done].
    subst to. simpl. by rewrite !lookup_insert_eq. }
  unfold bind at 1. rewrite (work_eq c t tkR w1 Ht1).
  change (sleep_fault w1 t) with (sleep_fault w t).
  change (stdout_fault w1) with (stdout_fault w).
  change (task_id tkR) with (task_id tk).
  unfold handler.
  destruct (sleep_fault w t) as [e|].
  - destruct (is_Exception e).
    + rewrite <- (emit_nil w1) at 1. rewrite Hsecond.
      apply events_since_trace. rewrite Hw1. simpl.
      by rewrite <- !app_assoc.
    + apply events_since_trace. rewrite Hw1. simpl. by rewrite app_nil_r.
  - destruct (stdout_fault w _) as [e|].
    + destruct (is_Exception e).
      * rewrite Hsecond. apply events_since_trace. rewrite Hw1. simpl.
        by rewrite <- !app_assoc.
      * apply events_since_trace. rewrite Hw1. simpl.
        by rewrite <- !app_assoc.
    + rewrite Hsecond. apply events_since_trace. rewrite Hw1. simpl.
      by rewrite <- !app_assoc.
Qed.

Lemma update_calls_cons_status t a b evs :
  update_calls (EvStatus t a b :: evs) = update_calls evs.
Proof. done. Qed.

(** X3.  During one [run] of a task whose observers all return normally, every
    entry of the observer list is called exactly twice, in attachment
    order each time: first with the status the task had and Running,
    then with Running and the final status, Completed when the work
    succeeds and Failed when it raises. *)
Theorem run_notifies_each_transition t tk w :
  heap_tasks w !! t = Some tk ->
  quiet_observers w t ->
  (forall e, io_fault w t = Some e -> is_Exception e = true) ->
  update_calls (events_since w (run t w).2)
  = ((fun o => (o, t, status tk, "Running")) <$> _observers tk)
    ++ ((fun o => (o, t, "Running", final_status (io_fault w t)))
          <$> _observers tk).
Proof.
  intros Ht Hq Hexn. rewrite (run_eq t tk w Ht).
  rewrite (run_class_quiet_events t tk w Ht Hq).
  destruct (set_status_quiet_eq t tk "Running" w Ht Hq) as [_ N1].
  assert (N2 : forall st,
    notified (put_task t (with_status st tk) w) t "Running" st (_observers tk)
    = _observers tk).
  { intros st.
    destruct (quiet_first_exn (put_task t (with_status st tk) w) t
                (with_status st tk) "Running" st (_observers tk)) as [_ Hn];
      [simpl; by rewrite lookup_insert_eq| |done].
    intros o Ho. by apply (Hq tk). }
  assert (Hsleep : forall n evs,
    update_calls (EvSleep n :: evs) = update_calls evs) by done.
  unfold io_fault in *. rewrite Ht in *.
  destruct (sleep_fault w t) as [e|];
    [|destruct (stdout_fault w _) as [e|]];
    rewrite ?(Hexn e eq_refl); cbn [final_status];
    rewrite ?update_calls_app, ?Hsleep, ?update_calls_app,
      !update_calls_cons_status, !update_calls_notify_events;
    by rewrite N1, N2.
Qed.

Lemma run_notifies_each_transition_witness :
  let w := sample_world "Pending" [0; 0] [TaskLogger] in
  heap_tasks w !! 0 = Some (sample_task "Pending" [0; 0])
  /\ update_calls (events_since w (run 0 w).2)
     = [(0, 0, "Pending", "Running"); (0, 0, "Pending", "Running");
        (0, 0, "Running", "Completed"); (0, 0, "Running", "Completed")].
Proof.
  intros w. split; [vm_compute; reflexivity|].
  apply (run_notifies_each_transition 0 (sample_task "Pending" [0; 0]) w).
  - vm_compute; reflexivity.
  - intros tk o Ht Ho. exists TaskLogger. split; [|by intros t tk' a b].
    cbn in Ht. rewrite lookup_singleton_eq in Ht. injection Ht as <-.
    simpl in Ho. by repeat (apply elem_of_cons in Ho as [->|Ho]);
      try by apply elem_of_nil in Ho.
  - intros e; simpl; discriminate.
Defined.

Lemma output_app evs1 evs2 : output (evs1 ++ evs2) = output evs1 ++ output evs2.
Proof. apply filter_app. Qed.

Lemma output_prints lines : output (EvPrint <$> lines) = EvPrint <$> lines.
Proof.
  induction lines as [|l lines IH]; [done|].
  unfold output in *. cbn [fmap list_fmap]. rewrite filter_cons. simpl.
  by rewrite IH.
Qed.

Lemma notify_events_loggers w t tk a b obs :
  heap_tasks w !! t = Some tk ->
  (forall o, o ∈ obs -> heap_obs w !! o = Some TaskLogger) ->
  stdout_fault w (log_line tk a b) = None ->
  output (notify_events w t a b obs)
  = EvPrint <$> replicate (length obs) (log_line tk a b).
Proof.
  intros Ht Hlog Hout. unfold notify_events.
  induction obs as [|o rest IH]; [done|].
  assert (Hor : obs_raises w t a b o = None).
  { unfold obs_raises. rewrite (Hlog o) by left. rewrite Ht. simpl.
    by rewrite Hout. }
  cbn [notified]. rewrite Hor. cbn [fmap list_fmap concat].
  rewrite output_app, IH by (intros o' Ho'; apply Hlog; by right).
  unfold update_events. rewrite (Hlog o) by left. rewrite Ht. simpl.
  by rewrite Hout.
Qed.

(** X4.  For a task watched by loggers only, on a standard output that
    takes every log line, [run] prints one log line per logger entry
    for the change to Running; then it sleeps for the seconds of its
    class, prints the line of its class with its id, and prints one log
    line per entry for the change to Completed.  If the sleep is
    interrupted nothing is slept or printed for the work; if the
    standard output refuses the line of the class, the sleep is taken
    and the line is not printed; in both cases the second group of log
    lines reports Failed.  These are all the sleeps and lines of the
    call, in this order. *)
Theorem run_output_with_loggers t tk w :
  heap_tasks w !! t = Some tk ->
  (forall o, o ∈ _observers tk -> heap_obs w !! o = Some TaskLogger) ->
  (forall tk' a b, stdout_fault w (log_line tk' a b) = None) ->
  (forall e, io_fault w t = Some e -> is_Exception e = true) ->
  let n := length (_observers tk) in
  let c := task_class tk in
  let logs a b := EvPrint <$> replicate n (log_line tk a b) in
  output (events_since w (run t w).2)
  = logs (status tk) "Running" ++
    match sleep_fault w t with
    | Some _ => logs "Running" "Failed"
    | None =>
        match stdout_fault w (banner c (task_id tk)) with
        | Some _ => EvSleep (sleep_secs c) :: logs "Running" "Failed"
        | None =>
            [EvSleep (sleep_secs c); EvPrint (banner c (task_id tk))]
            ++ logs "Running" "Completed"
        end
    end.
Proof.
  intros Ht Hlog Hout Hexn n c logs. rewrite (run_eq t tk w Ht).
  assert (Hq : quiet_observers w t).
  { intros tk' o Ht' Ho. exists TaskLogger. split; [apply Hlog; congruence|].
    intros t0 tk0 a b. simpl. by rewrite Hout. }
  rewrite (run_class_quiet_events t tk w Ht Hq).
  assert (Hn : forall st a b,
    output (notify_events (put_task t (with_status st tk) w) t a b (_observers tk))
    = logs a b).
  { intros st a b.
    apply (notify_events_loggers _ t (with_status st tk)); [|done|apply Hout].
    simpl. by rewrite lookup_insert_eq. }
  assert (Hs : forall t' a b evs, output (EvStatus t' a b :: evs) = output evs)
    by done.
  assert (Hsl : forall k evs, output (EvSleep k :: evs) = EvSleep k :: output evs)
    by done.
  assert (Hpr : forall l evs, output (EvPrint l :: evs) = EvPrint l :: output evs)
    by done.
  unfold io_fault in Hexn. rewrite Ht in Hexn. subst c.
  rewrite output_app, Hs, Hn. f_equal.
  destruct (sleep_fault w t) as [e|];
    [|destruct (stdout_fault w (banner _ (task_id tk))) as [e|]];
    rewrite ?(Hexn e eq_refl); cbv beta iota zeta; cbn [app];
    by rewrite ?Hsl, ?Hpr, Hs, Hn.
Qed.

Lemma run_output_with_loggers_witness :
  let w := sample_world "Pending" [0] [TaskLogger] in
  let tk := sample_task "Pending" [0] in
  heap_tasks w !! 0 = Some tk
  /\ output (events_since w (run 0 w).2)
     = [EvPrint (log_line tk "Pending" "Running"); EvSleep 2;
        EvPrint (banner EmailTask (VInt 1));
        EvPrint (log_line tk "Running" "Completed")].
Proof.
  intros w tk. split; [vm_compute; reflexivity|].
  apply (run_output_with_loggers 0 tk w).
  - vm_compute; reflexivity.
  - intros o Ho. apply list_elem_of_singleton in Ho as ->. reflexivity.
  - done.
  - intros e; vm_compute; discriminate.
Defined.

(** ** The set-up loop of the demonstration *)

Lemma create_task_describes d x w :
  describes d x ->
  create_task d w
  = (Ok (fresh (dom (heap_tasks w))),
     put_task (fresh (dom (heap_tasks w)))
       (mkTask x.1.1 x.1.2 x.2 "Pending" (now w) []) w).
Proof.
  destruct x as [[c id] nm]. intros (Hty & Hid & Hnm). simpl in *.
  unfold create_task, getitem, bind. rewrite Hty, Hid, Hnm.
  by destruct c.
Qed.

Lemma create_task_rejects d :
  (forall x, ~ describes d x) ->
  exists e, forall w, create_task d w = (Raise e, w).
Proof.
  intros Hbad. unfold create_task, getitem, bind, ret, raise.
  destruct (d !! "type") as [ty|] eqn:Hty; [|by eexists].
  destruct (d !! "task_id") as [id|] eqn:Hid; [|by eexists].
  destruct (d !! "name") as [nm|] eqn:Hnm; [|by eexists].
  destruct (py_eq_str ty "email") eqn:E1.
  { apply py_eq_str_true in E1 as ->.
    by destruct (Hbad (EmailTask, id, nm)). }
  destruct (py_eq_str ty "backup") eqn:E2.
  { apply py_eq_str_true in E2 as ->.
    by destruct (Hbad (DataBackupTask, id, nm)). }
  destruct (py_eq_str ty "report") eqn:E3.
  { apply py_eq_str_true in E3 as ->.
    by destruct (Hbad (ReportGenerationTask, id, nm)). }
  by eexists.
Qed.

Lemma add_all_app s ds1 ds2 w :
  add_all s (ds1 ++ ds2) w
  = match add_all s ds1 w with
    | (Ok s', w') => add_all s' ds2 w'
    | (Raise e, w') => (Raise e, w')
    end.
Proof.
  revert s w. induction ds1 as [|d ds1 IH]; intros s w; [done|].
  cbn [app add_all]. unfold bind.
  destruct (create_task d w) as [[t|e] w1]; [|done].
  destruct (add_task s t w1) as [[s'|e] w2]; [|done].
  apply IH.
Qed.

(** The loop over valid descriptions: one new task each, in order. *)
Lemma add_all_builds ds xs :
  Forall2 describes ds xs ->
  forall s w,
  exists ts w',
    add_all s ds w = (Ok (mkScheduler (tasks s ++ ts) (logger s)), w')
    /\ NoDup ts
    /\ (forall t, t ∈ ts -> heap_tasks w !! t = None)
    /\ Forall2 (fun t x => heap_tasks w' !! t = Some (added_task (logger s) (now w) x))
               ts xs
    /\ (forall t, t ∉ ts -> heap_tasks w' !! t = heap_tasks w !! t)
    /\ heap_obs w' = heap_obs w
    /\ now w' = now w
    /\ (sleep_fault w' = sleep_fault w /\ stdout_fault w' = stdout_fault w)
    /\ trace w' = trace w.
Proof.
  induction 1 as [|d x ds xs Hd _ IH]; intros s w.
  - exists [], w. rewrite app_nil_r. destruct s.
    split_and!; try done; [apply NoDup_nil_2|intros t Ht; by apply elem_of_nil in Ht].
  - set (t := fresh (dom (heap_tasks w))).
    assert (Hfresh : heap_tasks w !! t = None)
      by apply not_elem_of_dom, is_fresh.
    set (w1 := put_task t (mkTask x.1.1 x.1.2 x.2 "Pending" (now w) []) w).
    set (w2 := put_task t (added_task (logger s) (now w) x) w).
    assert (Hadd : add_task s t w1
                   = (Ok (mkScheduler (tasks s ++ [t]) (logger s)), w2)).
    { unfold add_task, bind.
      erewrite attach_eq; [|subst w1; simpl; by rewrite lookup_insert_eq].
      subst w1 w2. by rewrite put_task_put_task. }
    destruct (IH (mkScheduler (tasks s ++ [t]) (logger s)) w2)
      as (ts & w' & Hrun & Hnd & Hnew & Hall & Hold & Ho & Hnow & Hio & Htr).
    assert (Hnotin : t ∉ ts).
    { intros Hin. apply Hnew in Hin. subst w2. simpl in Hin.
      by rewrite lookup_insert_eq in Hin. }
    exists (t :: ts), w'. split_and!.
    + cbn [add_all]. unfold bind at 1.
      rewrite (create_task_describes d x w Hd). fold t. fold w1.
      unfold bind at 1. rewrite Hadd, Hrun. simpl.
      by rewrite <- app_assoc.
    + by constructor.
    + intros t' [->|Hin]%elem_of_cons; [done|].
      apply Hnew in Hin. subst w2. simpl in Hin.
      destruct (decide (t = t')) as [->|Hne];
        [by rewrite lookup_insert_eq in Hin|by rewrite lookup_insert_ne in Hin].
    + constructor; [|done].
      rewrite (Hold t Hnotin). subst w2. simpl. by rewrite lookup_insert_eq.
    + intros t' Hnot. rewrite Hold by (intros ?; apply Hnot; by right).
      subst w2. simpl. rewrite lookup_insert_ne; [done|].
      intros <-. apply Hnot. left.
    + by rewrite Ho.
    + by rewrite Hnow.
    + by destruct Hio as [-> _].
    + by destruct Hio as [_ ->].
    + by rewrite Htr.
Qed.

(** X5.  The set-up of the demonstration, for any list of descriptions that
    have the three fields and a known type: it makes one logger and one
    new task per description, in the order of the list; the tasks are
    distinct new objects, each Pending, of the class, id and name of
    its description, with the logger as its only observer; the tasks
    that were in the store are untouched and nothing is printed. *)
Theorem demo_setup_builds ds xs w :
  Forall2 describes ds xs ->
  let l := fresh (dom (heap_obs w)) in
  exists ts w',
    demo_setup ds w = (Ok (mkScheduler ts l), w')
    /\ heap_obs w !! l = None
    /\ heap_obs w' = <[l := TaskLogger]> (heap_obs w)
    /\ NoDup ts
    /\ (forall t, t ∈ ts -> heap_tasks w !! t = None)
    /\ Forall2 (fun t x => heap_tasks w' !! t = Some (added_task l (now w) x))
               ts xs
    /\ (forall t, t ∉ ts -> heap_tasks w' !! t = heap_tasks w !! t)
    /\ trace w' = trace w.
Proof.
  intros Hds l.
  destruct (add_all_builds ds xs Hds (mkScheduler [] l) (put_obs l TaskLogger w))
    as (ts & w' & Hrun & Hnd & Hnew & Hall & Hold & Ho & _ & _ & Htr).
  exists ts, w'. split_and!; try done.
  apply not_elem_of_dom, is_fresh.
Qed.

Lemma demo_setup_builds_witness :
  Forall2 describes demo_input demo_specs
  /\ exists ts w',
       demo_setup demo_input empty_world = (Ok (mkScheduler ts 0), w')
       /\ NoDup ts.
Proof.
  assert (H : Forall2 describes demo_input demo_specs).
  { repeat constructor; vm_compute; reflexivity. }
  split; [exact H|].
  destruct (demo_setup_builds demo_input demo_specs empty_world H)
    as (ts & w' & Hrun & _ & _ & Hnd & _).
  by exists ts, w'.
Defined.

(** X6.  A description without one of the three fields or with an unknown
    type stops the loop: the loop raises what [create_task] raises for
    it, the descriptions behind it are not looked at, and the tasks of
    the descriptions before it stay in the store, with the logger
    attached. *)
Theorem add_all_stops_at_bad_description s ds1 xs d ds2 w :
  Forall2 describes ds1 xs ->
  (forall x, ~ describes d x) ->
  exists e ts w',
    add_all s (ds1 ++ d :: ds2) w = (Raise e, w')
    /\ (forall w0, create_task d w0 = (Raise e, w0))
    /\ w' = (add_all s ds1 w).2
    /\ NoDup ts
    /\ Forall2 (fun t x => heap_tasks w' !! t
                           = Some (added_task (logger s) (now w) x)) ts xs.
Proof.
  intros Hds Hbad.
  destruct (create_task_rejects d Hbad) as [e He].
  destruct (add_all_builds ds1 xs Hds s w)
    as (ts & w' & Hrun & Hnd & _ & Hall & _).
  exists e, ts, w'. rewrite add_all_app, Hrun.
  split_and!; try done.
  cbn [add_all]. unfold bind. by rewrite He.
Qed.

Lemma add_all_stops_at_bad_description_witness :
  let bad := description (VStr "bogus") (VInt 9) (VStr "z") in
  Forall2 describes (take 2 demo_input) (take 2 demo_specs)
  /\ (add_all demo_scheduler (take 2 demo_input ++ bad :: drop 2 demo_input)
         empty_world).1
     = Raise (ValueError "Unknown task type: bogus").
Proof.
  intros bad.
  assert (H : Forall2 describes (take 2 demo_input) (take 2 demo_specs)).
  { repeat constructor; vm_compute; reflexivity. }
  split; [exact H|].
  destruct (add_all_stops_at_bad_description demo_scheduler
              (take 2 demo_input) (take 2 demo_specs) bad (drop 2 demo_input)
              empty_world H)
    as (e & ts & w' & Hrun & He & _).
  - intros [[c id] nm] (Hty & _). destruct c; vm_compute in Hty; discriminate.
  - rewrite Hrun. simpl.
    specialize (He empty_world). vm_compute in He. congruence.
Defined.

(** ** What [run_all] leaves alone *)

Lemma pool_step_keeps s w0 c c' :
  pool_step s c c' -> pool_fifo s c.1 ->
  frame w0 c.2
  /\ trace w0 `prefix_of` trace c.2
  /\ (forall t, t ∉ tasks s -> heap_tasks c.2 !! t = heap_tasks w0 !! t) ->
  frame w0 c'.2
  /\ trace w0 `prefix_of` trace c'.2
  /\ (forall t, t ∉ tasks s -> heap_tasks c'.2 !! t = heap_tasks w0 !! t).
Proof.
  intros Hstep Hfifo (Hfr & Hpre & Hout).
  destruct Hstep; simpl in *; try done.
  split_and!.
  - by eapply thread_step_frame.
  - etrans; [exact Hpre|].
    destruct (thread_step_world _ _ _ _ _ _ H)
      as (evs & [-> | (tk & st & _ & ->)]); by apply prefix_app_r.
  - intros t Ht. rewrite <- (Hout t Ht).
    apply (thread_step_other _ _ _ _ _ _ t H).
    intros ->. apply Ht.
    destruct Hfifo as [_ _ _ Hrun _ _ _ _]; simpl in Hrun.
    eapply list_elem_of_lookup_2. apply (Hrun it p).
    apply elem_of_app; right; left.
Qed.

Lemma reachable_keeps s w0 c :
  reachable s w0 c ->
  frame w0 c.2
  /\ trace w0 `prefix_of` trace c.2
  /\ (forall t, t ∉ tasks s -> heap_tasks c.2 !! t = heap_tasks w0 !! t).
Proof.
  intros Hr. unfold reachable in Hr.
  apply (rtc_ind_r (R := pool_step s)
           (fun c => reachable s w0 c /\ frame w0 c.2
              /\ trace w0 `prefix_of` trace c.2
              /\ (forall t, t ∉ tasks s ->
                    heap_tasks c.2 !! t = heap_tasks w0 !! t))
           (init_pool, w0)) in Hr; [by destruct Hr| |].
  - split; [apply rtc_refl|]. split; [apply frame_refl|done].
  - intros y z _ Hstep [Hy IH]. split; [by eapply rtc_r|].
    apply (pool_step_keeps s w0 y z Hstep); [|done].
    by apply (reachable_fifo s w0).
Qed.

(** X7.  With observers that keep to their contract and write to no
    task and to no observer list: whatever the schedule and however far
    [run_all] has got, it has written nothing but statuses of tasks of
    the scheduler and the trace.  No task is made or deleted, every
    task keeps its class, id, name, creation time and observer list,
    the tasks that are not in the scheduler keep their status too, and
    what was in the trace stays in front. *)
Theorem run_all_changes_only_statuses s w0 p w :
  reachable s w0 (p, w) ->
  (forall t,
        match heap_tasks w0 !! t with
        | Some tk => exists st, heap_tasks w !! t = Some (with_status st tk)
        | None => heap_tasks w !! t = None
        end)
  /\ (forall t, t ∉ tasks s -> heap_tasks w !! t = heap_tasks w0 !! t)
  /\ trace w0 `prefix_of` trace w.
Proof.
  intros Hr.
  destruct (reachable_keeps s w0 (p, w) Hr) as (Hfr & Hpre & Hout).
  simpl in *. split_and!; [|done|done].
  intros t. destruct (heap_tasks w0 !! t) as [tk|] eqn:Ht.
  - by apply (frame_same_task w0).
  - destruct Hfr as (_ & _ & Hh). specialize (Hh t). rewrite Ht in Hh.
    by destruct (heap_tasks w !! t).
Qed.

Lemma run_all_changes_only_statuses_witness :
  let c := pool_run crowd_scheduler crowd_schedule (init_pool, crowd_world) in
  reachable crowd_scheduler crowd_world c
  /\ trace crowd_world `prefix_of` trace c.2.
Proof.
  intros c.
  assert (Hr : reachable crowd_scheduler crowd_world c)
    by apply pool_run_reachable, rtc_refl.
  split; [exact Hr|]. destruct c as [p w].
  exact (proj2 (proj2 (run_all_changes_only_statuses crowd_scheduler
                         crowd_world p w Hr))).
Defined.

(** ** Every schedule of [run_all] ends, and ends in a return *)

Lemma initial_measure s w :
  pool_measure s (init_pool, w)
  = sum_list_with (fun t => 3 * n_obs w t + 15) (tasks s) + length (tasks s) + 4.
Proof.
  unfold pool_measure, init_pool; simpl. rewrite !Nat.add_0_r.
  f_equal. f_equal. apply sum_list_with_ext. intros t.
  unfold item_cost, pc_cost. lia.
Qed.

(** X8.  An execution of [run_all] is never longer than three steps for each
    observer of each task, plus sixteen for each task, plus four: on
    every schedule [run_all] comes to an end. *)
Theorem run_all_executions_bounded s w0 n c :
  nsteps (pool_step s) n (init_pool, w0) c ->
  n <= sum_list_with (fun t => 3 * n_obs w0 t + 15) (tasks s)
       + length (tasks s) + 4.
Proof.
  intros Hn. rewrite <- initial_measure.
  assert (H : forall c0, nsteps (pool_step s) n c0 c ->
                n + pool_measure s c <= pool_measure s c0).
  { clear Hn. intros c0 Hn. induction Hn as [|n x y z Hstep _ IH]; [done|].
    apply pool_step_measure in Hstep. lia. }
  specialize (H _ Hn). lia.
Qed.

Lemma run_all_executions_bounded_witness :
  exists c, nsteps (pool_step demo_scheduler) 2 (init_pool, demo_world) c
            /\ 2 <= sum_list_with (fun t => 3 * n_obs demo_world t + 15)
                       (tasks demo_scheduler)
                    + length (tasks demo_scheduler) + 4.
Proof.
  assert (H : nsteps (pool_step demo_scheduler) 2 (init_pool, demo_world)
                (pool_run demo_scheduler [Main; Main] (init_pool, demo_world))).
  { eapply nsteps_l; [|eapply nsteps_l; [|apply nsteps_O]];
      apply pool_do_sound with (ch := Main); vm_compute; reflexivity. }
  eexists. split; [exact H|].
  apply (run_all_executions_bounded demo_scheduler demo_world 2 _ H).
Defined.

Lemma returned_idle s w0 c r :
  reachable s w0 c -> main c.1 = MReturned r ->
  work_queue c.1 = [] /\ workers c.1 = [].
Proof.
  intros Hr. revert r. unfold reachable in Hr.
  apply (rtc_ind_r (R := pool_step s)
           (fun c => forall r, main c.1 = MReturned r ->
                       work_queue c.1 = [] /\ workers c.1 = [])
           (init_pool, w0)); [| |done].
  - intros r [=].
  - intros y z _ Hstep IH r Hm.
    destruct Hstep; simpl in *; try done.
    + subst. by destruct (IH r eq_refl).
    + subst. destruct (IH r eq_refl) as [_ Hws]. by destruct ws1.
    + subst. destruct (IH r eq_refl) as [_ Hws]. by destruct ws1.
Qed.

(** X9.  [run_all] cannot get stuck: from every configuration it can reach,
    some thread can move, unless [run_all] has returned or raised; and
    then the queue is empty, no worker is left and nothing moves any
    more. *)
Theorem run_all_never_stuck s w0 c :
  reachable s w0 c ->
  match main c.1 with
  | MReturned _ =>
      work_queue c.1 = [] /\ workers c.1 = []
      /\ forall c', ~ pool_step s c c'
  | _ => exists c', pool_step s c c'
  end.
Proof.
  intros Hr.
  destruct (main c.1) as [k|j|r|r] eqn:Hm.
  4: { destruct (returned_idle s w0 c r Hr Hm) as [Hq Hws].
       split_and!; [done|done|].
       intros c' Hstep. destruct Hstep; simpl in *; try done.
       all: by destruct ws1. }
  all: destruct (pool_next_progress s c) as [c' Hc'];
    [by apply (reachable_fifo s w0)|intros r'; congruence|];
    exists c'; by apply pool_next_sound.
Qed.

Lemma run_all_never_stuck_witness :
  let c := pool_run crowd_scheduler crowd_schedule (init_pool, crowd_world) in
  reachable crowd_scheduler crowd_world c
  /\ exists c', pool_step crowd_scheduler c c'.
Proof.
  intros c.
  assert (Hr : reachable crowd_scheduler crowd_world c)
    by apply pool_run_reachable, rtc_refl.
  split; [exact Hr|].
  pose proof (run_all_never_stuck crowd_scheduler crowd_world c Hr) as H.
  assert (Hm : main c.1 = MResult 0) by (vm_compute; reflexivity).
  by rewrite Hm in H.
Defined.

(** ** The threads of the pool do not interfere *)

Lemma thread_exec_snoc c t n :
  forall p w p1 w1 p2 w2,
    thread_exec n c t p w = (p1, w1) ->
    thread_step c t p1 w1 = Some (p2, w2) ->
    thread_exec (S n) c t p w = (p2, w2).
Proof.
  induction n as [|n IH]; intros p w p1 w1 p2 w2 Hex Hstep.
  - simpl in Hex. injection Hex as -> ->. cbn [thread_exec]. by rewrite Hstep.
  - cbn [thread_exec] in Hex.
    destruct (thread_step c t p w) as [[p' w']|] eqn:Hs.
    + rewrite (thread_exec_step _ _ _ _ _ _ _ Hs). by eapply IH.
    + injection Hex as -> ->. congruence.
Qed.

Lemma thread_exec_ret_unique c t n :
  forall m p w r w1 r' w1',
    thread_exec n c t p w = (PcRet r, w1) ->
    thread_exec m c t p w = (PcRet r', w1') ->
    r = r' /\ w1 = w1'.
Proof.
  induction n as [|n IH]; intros m p w r w1 r' w1' Hn Hm.
  - simpl in Hn. injection Hn as -> ->.
    rewrite thread_exec_ret in Hm. by injection Hm as -> ->.
  - cbn [thread_exec] in Hn.
    destruct (thread_step c t p w) as [[p' w']|] eqn:Hs.
    + destruct m as [|m].
      * simpl in Hm. injection Hm as -> ->. discriminate.
      * rewrite (thread_exec_step _ _ _ _ _ _ _ Hs) in Hm. by eapply IH.
    + injection Hn as -> ->.
      rewrite thread_exec_ret in Hm. by injection Hm as -> ->.
Qed.

Lemma events_since_app w0 w w' evs :
  trace w0 `prefix_of` trace w ->
  trace w' = trace w ++ evs ->
  events_since w0 w' = events_since w0 w ++ evs.
Proof.
  intros [k Hk] Hw. unfold events_since.
  by rewrite Hw, Hk, <- app_assoc, !drop_app_length.
Qed.

Lemma concat_insert_app (evss : list (list event)) k old evs :
  evss !! k = Some old ->
  concat (<[k := old ++ evs]> evss) ≡ₚ concat evss ++ evs.
Proof.
  revert k. induction evss as [|x l IH]; intros [|k] Hk; simplify_eq/=.
  - rewrite <- !app_assoc. f_equiv. apply Permutation_app_comm.
  - by rewrite IH, app_assoc.
Qed.

Lemma pool_step_solo s w0 c c' :
  NoDup (tasks s) ->
  pool_step s c c' ->
  pool_fifo s c.1 -> frame w0 c.2 -> trace w0 `prefix_of` trace c.2 ->
  pool_solo s w0 c.1 c.2 -> pool_solo s w0 c'.1 c'.2.
Proof.
  intros Hnd Hstep Hfifo Hfr Hpre [Hcls (evss & Hlen & Hperm & Hsolo)].
  destruct Hstep; simpl in *; try (split; [done|by exists evss]).
  - (* submit *)
    split; simpl; [|by exists evss].
    intros it [Hin|Hin]; [|apply Hcls; by right].
    apply elem_of_app in Hin as [Hin|Hin%list_elem_of_singleton];
      [apply Hcls; by left|].
    subst it; simpl.
    rewrite <- (frame_class w0 w t Hfr). by rewrite H0.
  - (* a worker takes an item *)
    split; simpl.
    + intros it' [Hin|[c0 Hin]].
      * apply Hcls. left. by right.
      * apply elem_of_app in Hin as [Hin|Hin%list_elem_of_singleton].
        -- apply Hcls. right. by exists c0.
        -- injection Hin as -> _. apply Hcls. left. left.
    + exists evss. split_and!; [done|done|].
      intros k t tk Hk Ht.
      destruct (Hsolo k t tk Hk Ht)
        as (n & pc1 & w1 & Hex & Hevs & Hh & Hev & Htk & Hws & Hfs).
      exists n, pc1, w1. split_and!; try done.
      * intros Hnin. apply Htk. intros Hin. apply Hnin.
        apply elem_of_app; by left.
      * intros it' c0 Hin Hf.
        apply elem_of_app in Hin as [Hin|Hin%list_elem_of_singleton];
          [by eapply Hws|].
        injection Hin as -> ->.
        assert (Hn : n = 0).
        { apply Htk. intros Hin.
          destruct Hfifo as [_ (m0 & Hord & _) _ _ _ _ _ _].
          unfold queue_futures in Hord; simpl in Hord.
          pose proof (NoDup_seq 0 m0) as Hnd'. rewrite <- Hord in Hnd'.
          apply NoDup_app in Hnd' as (_ & Hd & _).
          apply (Hd k Hin). rewrite <- Hf. left. }
        subst n. simpl in Hex. by injection Hex as <- _.
  - (* a thread steps *)
    destruct (stepping_task_distinct s m q ws1 it p ws2 fs ad Hnd Hfifo)
      as [Hd1 Hd2].
    pose proof Hfifo as [_ _ _ Hrun _ Hw _ _]; simpl in Hrun, Hw.
    assert (Hit : item_ok s it).
    { apply (Hrun it p). apply elem_of_app; right; left. }
    assert (Hold : forall it' c0, (it', c0) ∈ ws1 ++ (it, p') :: ws2 ->
              (it', c0) = (it, p')
              \/ ((it', c0) ∈ ws1 ++ (it, p) :: ws2
                  /\ item_task it' <> item_task it)).
    { intros it' c0 Hin. apply elem_of_app in Hin as [Hin|Hin].
      - right. split; [apply elem_of_app; by left|].
        apply (Hd1 it' c0). apply elem_of_app; by left.
      - apply elem_of_cons in Hin as [Hin|Hin]; [by left|].
        right. split; [apply elem_of_app; right; by right|].
        apply (Hd1 it' c0). apply elem_of_app; by right. }
    (* where the lone run of this task stands, and its next step *)
    assert (Hc0 : task_class <$> heap_tasks w0 !! item_task it
                  = Some (item_class it)).
    { apply Hcls. right. exists p. apply elem_of_app; right; left. }
    destruct (heap_tasks w0 !! item_task it) as [tk0|] eqn:Ht0;
      [|discriminate].
    injection Hc0 as Hc0.
    destruct (Hsolo (item_future it) (item_task it) tk0 Hit Ht0)
      as (n0 & pc0 & w1 & Hex0 & Hevs0 & Hh0 & Hev0 & Htk0 & Hws0 & Hfs0).
    assert (pc0 = p) as ->.
    { symmetry. apply (Hws0 it p); [|done]. apply elem_of_app; right; left. }
    pose proof (thread_exec_frame (task_class tk0) (item_task it) n0
                  (PcRead SRunning) w0 w0 (frame_refl w0)) as Hfr1.
    pose proof (thread_exec_trace (task_class tk0) (item_task it) n0
                  (PcRead SRunning) w0) as Hpre1.
    rewrite Hex0 in Hfr1, Hpre1. simpl in Hfr1, Hpre1.
    assert (Ho' : heap_obs w = heap_obs w1).
    { destruct Hfr as (-> & _), Hfr1 as (-> & _). done. }
    assert (Hf' : sleep_fault w (item_task it) = sleep_fault w1 (item_task it)).
    { destruct Hfr as (_ & [-> _] & _), Hfr1 as (_ & [-> _] & _). done. }
    assert (Hs' : stdout_fault w = stdout_fault w1).
    { destruct Hfr as (_ & [_ ->] & _), Hfr1 as (_ & [_ ->] & _). done. }
    rewrite <- Hc0 in H.
    destruct (thread_step_sim _ _ _ w w1 _ _ Hh0 Ho' Hf' Hs' H)
      as (w2 & evs & Hstep2 & Hh2 & Htr & Htr2 & Hab & _).
    split; simpl.
    + intros it' [Hin|[c0 Hin]]; [apply Hcls; by left|].
      apply Hcls. right.
      destruct (Hold it' c0 Hin) as [Heq|[Hin' _]]; [|by exists c0].
      injection Heq as -> ->. exists p. apply elem_of_app; right; left.
    + exists (<[item_future it := events_since w0 w1 ++ evs]> evss).
      split_and!.
      * by rewrite length_insert.
      * rewrite (events_since_app w0 w w' evs Hpre Htr), Hperm.
        symmetry. by apply concat_insert_app.
      * intros k t tk Hk Ht.
        destruct (decide (k = item_future it)) as [->|Hne].
        -- assert (t = item_task it) as ->
             by (unfold item_ok in Hit; congruence).
           assert (tk = tk0) as -> by congruence.
           exists (S n0), p', w2. split_and!.
           ++ by eapply thread_exec_snoc.
           ++ rewrite (events_since_app w0 w1 w2 evs Hpre1 Htr2).
              apply list_lookup_insert_eq. rewrite Hlen.
              by apply lookup_lt_Some in Hk.
           ++ done.
           ++ by rewrite Htr, Htr2, !task_events_app, Hev0.
           ++ intros Hnin. exfalso. apply Hnin.
              apply (Hw (item_future it)).
              apply (worker_future_in _ _ _ _ _ it p).
              apply elem_of_app; right; left.
           ++ intros it' c0 Hin Hfu.
              destruct (Hold it' c0 Hin) as [Heq|[Hin' Hne]]; [congruence|].
              exfalso. apply Hne.
              pose proof (Hrun it' c0 Hin') as Hit'. unfold item_ok in *.
              congruence.
           ++ intros r Hr. exfalso.
              destruct (Hw (item_future it)) as [_ Hnone]; [|congruence].
              apply (worker_future_in _ _ _ _ _ it p).
              apply elem_of_app; right; left.
        -- assert (Hnt : t <> item_task it).
           { by apply (distinct_tasks s k (item_future it)). }
           destruct (Hsolo k t tk Hk Ht)
             as (n & pc1 & w1' & Hex & Hevs & Hh & Hev & Htk & Hws & Hfs).
           exists n, pc1, w1'. split_and!; try done.
           ++ by rewrite list_lookup_insert_ne by done.
           ++ by rewrite (thread_step_other _ _ _ _ _ _ t H Hnt).
           ++ rewrite Htr, task_events_app, (task_events_about _ t evs Hab Hnt).
              by rewrite app_nil_r.
           ++ intros it' c0 Hin Hfu.
              destruct (Hold it' c0 Hin) as [Heq|[Hin' _]]; [|by eapply Hws].
              injection Heq as -> ->. congruence.
  - (* a thread finishes *)
    pose proof Hfifo as [_ _ _ Hrun _ Hw _ _]; simpl in Hrun, Hw.
    assert (Hsub : forall it' c0, (it', c0) ∈ ws1 ++ ws2 ->
              (it', c0) ∈ ws1 ++ (it, PcRet r) :: ws2).
    { intros it' c0 Hin. apply elem_of_app in Hin as [?|?]; apply elem_of_app;
        [by left|right; by right]. }
    split; simpl.
    + intros it' [Hin|[c0 Hin]]; [apply Hcls; by left|].
      apply Hcls. right. exists c0. by apply Hsub.
    + exists evss. split_and!; [done|done|].
      intros k t tk Hk Ht.
      destruct (Hsolo k t tk Hk Ht)
        as (n & pc1 & w1 & Hex & Hevs & Hh & Hev & Htk & Hws & Hfs).
      exists n, pc1, w1. split_and!; try done.
      * intros it' c0 Hin. apply Hws. by apply Hsub.
      * intros r0 Hr0. destruct (decide (k = item_future it)) as [->|Hne].
        -- rewrite lookup_insert_eq in Hr0. injection Hr0 as <-.
           symmetry. apply (Hws it (PcRet r)); [|done].
           apply elem_of_app; right; left.
        -- rewrite lookup_insert_ne in Hr0 by done. by apply Hfs.
Qed.

Lemma reachable_solo s w0 c :
  NoDup (tasks s) -> reachable s w0 c -> pool_solo s w0 c.1 c.2.
Proof.
  intros Hnd Hr. unfold reachable in Hr.
  apply (rtc_ind_r (R := pool_step s)
           (fun c => reachable s w0 c /\ pool_solo s w0 c.1 c.2)
           (init_pool, w0)); [| |done].
  - split; [apply rtc_refl|]. split; simpl.
    + intros it [Hin|[c0 Hin]]; by apply elem_of_nil in Hin.
    + assert (Hnil : events_since w0 w0 = []) by apply drop_all.
      exists (replicate (length (tasks s)) []). split_and!.
      * apply length_replicate.
      * rewrite Hnil. clear. by induction (length (tasks s)).
      * intros k t tk Hk _. exists 0, (PcRead SRunning), w0.
        split_and!; try done.
        -- rewrite Hnil. apply lookup_replicate_2.
           by apply lookup_lt_Some in Hk.
        -- intros it c0 Hin. by apply elem_of_nil in Hin.
  - intros y z _ Hstep [Hy IH]. split; [by eapply rtc_r|].
    destruct (reachable_keeps s w0 y Hy) as (Hfr & Hpre & _).
    apply (pool_step_solo s w0 y z); [done..| | | |done]; [|done|done].
    by apply (reachable_fifo s w0).
Qed.

Lemma reachable_finished s w0 p w k t tk r :
  NoDup (tasks s) ->
  reachable s w0 (p, w) ->
  tasks s !! k = Some t ->
  heap_tasks w0 !! t = Some tk ->
  futures p !! k = Some r ->
  (run t w0).1 = result_of r
  /\ heap_tasks w !! t = heap_tasks (run t w0).2 !! t
  /\ task_events t (events_since w0 w)
     = task_events t (events_since w0 (run t w0).2).
Proof.
  intros Hnd Hr Hk Ht Hf.
  destruct (reachable_keeps s w0 (p, w) Hr) as (_ & [evs Hevs] & _).
  destruct (reachable_solo s w0 (p, w) Hnd Hr) as [_ (evss & _ & _ & Hsolo)].
  simpl in *.
  destruct (Hsolo k t tk Hk Ht)
    as (n & pc1 & w1 & Hex & _ & Hh & Hev & _ & _ & Hfs).
  rewrite (events_since_trace w0 w evs Hevs).
  rewrite Hevs, task_events_app in Hev.
  rewrite (Hfs r Hf) in Hex.
  rewrite (run_eq t tk w0 Ht).
  destruct (thread_exec_run_class (task_class tk) t w0)
    as (fuel & r0 & w2 & Hrc & Hexec).
  destruct (thread_exec_ret_unique _ _ _ _ _ _ _ _ _ _ Hex Hexec) as [-> ->].
  rewrite Hrc. simpl. split_and!; [done|done|].
  pose proof (thread_exec_trace (task_class tk) t fuel (PcRead SRunning) w0)
    as [evs2 Hevs2].
  rewrite Hexec in Hevs2. simpl in Hevs2.
  rewrite (events_since_trace w0 w2 evs2 Hevs2).
  rewrite Hevs2, task_events_app in Hev.
  by apply app_inv_head in Hev.
Qed.

(** When the [run] of every task has finished, the trace of the pool is
    the traces of the lone runs, shuffled into one another. *)
Lemma finished_events s w0 p w :
  NoDup (tasks s) ->
  (forall t, t ∈ tasks s -> is_Some (heap_tasks w0 !! t)) ->
  reachable s w0 (p, w) ->
  (forall k, k < length (tasks s) -> is_Some (futures p !! k)) ->
  events_since w0 w
  ≡ₚ concat ((fun t => events_since w0 (run t w0).2) <$> tasks s).
Proof.
  intros Hnd Hex Hr Hfut.
  destruct (reachable_solo s w0 (p, w) Hnd Hr)
    as [_ (evss & Hlen & Hperm & Hsolo)]. simpl in *.
  rewrite Hperm.
  replace evss with ((fun t => events_since w0 (run t w0).2) <$> tasks s);
    [done|].
  apply list_eq. intros k. rewrite list_lookup_fmap.
  destruct (tasks s !! k) as [t|] eqn:Hk; simpl.
  - destruct (Hex t) as [tk Ht]; [by eapply list_elem_of_lookup_2|].
    destruct (Hfut k) as [r Hf]; [by apply lookup_lt_Some in Hk|].
    destruct (Hsolo k t tk Hk Ht)
      as (n & pc1 & w1 & Hexe & -> & _ & _ & _ & _ & Hfs).
    rewrite (Hfs r Hf) in Hexe.
    rewrite (run_eq t tk w0 Ht).
    destruct (thread_exec_run_class (task_class tk) t w0)
      as (fuel & r0 & w2 & Hrc & Hexec).
    destruct (thread_exec_ret_unique _ _ _ _ _ _ _ _ _ _ Hexe Hexec)
      as [_ ->].
    by rewrite Hrc.
  - symmetry. apply lookup_ge_None. rewrite Hlen.
    by apply lookup_ge_None in Hk.
Qed.

(** X10.  The tasks of a pool do not disturb each other.  For a scheduler
    whose tasks are distinct objects, whatever the schedule: a task
    that no worker has taken yet is as [run_all] found it, and no event
    names it; and once the [run] of a task has finished, its future
    holds what [run] on its own, called in the store in which [run_all]
    was called, returns or raises, the task is the object that lone
    [run] leaves, and the status writes and [update] calls of the task
    are those of the lone [run], in the same order. *)
Theorem run_all_tasks_do_not_interfere s w0 p w k t tk :
  NoDup (tasks s) ->
  reachable s w0 (p, w) ->
  tasks s !! k = Some t ->
  heap_tasks w0 !! t = Some tk ->
  (k ∉ taken p ->
     heap_tasks w !! t = Some tk /\ task_events t (events_since w0 w) = [])
  /\ forall r, futures p !! k = Some r ->
       (run t w0).1 = result_of r
       /\ heap_tasks w !! t = heap_tasks (run t w0).2 !! t
       /\ task_events t (events_since w0 w)
          = task_events t (events_since w0 (run t w0).2).
Proof.
  intros Hnd Hr Hk Ht. split; [|intros r Hf; by eapply reachable_finished].
  destruct (reachable_keeps s w0 (p, w) Hr) as (_ & [evs Hevs] & _).
  destruct (reachable_solo s w0 (p, w) Hnd Hr) as [_ (evss & _ & _ & Hsolo)].
  simpl in *.
  destruct (Hsolo k t tk Hk Ht)
    as (n & pc1 & w1 & Hex & _ & Hh & Hev & Htk & _ & _).
  rewrite (events_since_trace w0 w evs Hevs).
  rewrite Hevs, task_events_app in Hev.
  intros Hnin. rewrite (Htk Hnin) in Hex. simpl in Hex.
  injection Hex as _ <-. split; [congruence|].
  rewrite <- (app_nil_r (task_events t (trace w0))) in Hev at 2.
  by apply app_inv_head in Hev.
Qed.

Lemma run_all_tasks_do_not_interfere_witness :
  let c := pool_exec 200 demo_scheduler (init_pool, demo_world) in
  NoDup (tasks demo_scheduler)
  /\ reachable demo_scheduler demo_world c
  /\ futures c.1 !! 2 = Some None
  /\ (run 2 demo_world).1 = result_of None.
Proof.
  intros c.
  assert (Hnd : NoDup (tasks demo_scheduler)) by compute_done.
  assert (Hr : reachable demo_scheduler demo_world c)
    by apply pool_exec_reachable, rtc_refl.
  assert (Hf : futures c.1 !! 2 = Some None) by (vm_compute; reflexivity).
  split_and!; [done|done|done|].
  destruct c as [p w].
  assert (Ht : exists tk, heap_tasks demo_world !! 2 = Some tk)
    by (eexists; vm_compute; reflexivity).
  destruct Ht as [tk Ht].
  exact (proj1 (proj2 (run_all_tasks_do_not_interfere demo_scheduler demo_world
                         p w 2 2 tk Hnd Hr eq_refl Ht) None Hf)).
Defined.

(** ** From the descriptions to the final statuses *)

Lemma returned_all_done s w0 p w r :
  NoDup (tasks s) ->
  (forall t, t ∈ tasks s -> is_Some (heap_tasks w0 !! t)) ->
  reachable s w0 (p, w) -> main p = MReturned r ->
  taken p = seq 0 (length (tasks s))
  /\ forall k, k < length (tasks s) -> is_Some (futures p !! k).
Proof.
  intros Hnd Hex Hreach Hmain.
  pose proof (reachable_fifo s w0 (p, w) Hreach) as Hfifo.
  pose proof (reachable_inv s w0 (p, w) Hnd Hex Hreach) as Hinv.
  destruct Hfifo as [_ _ _ _ _ _ _ Had].
  destruct Hinv as [_ Hall _ Hret _ _]. simpl in *.
  destruct (Hret r Hmain) as [Hq Hws].
  assert (Htk : taken p = seq 0 (length (tasks s))).
  { rewrite <- Hall by (intros k; congruence).
    unfold queue_futures. rewrite Hq. simpl. by rewrite app_nil_r. }
  split; [done|].
  intros k Hk. destruct (Had k) as [Hin|?]; [| |done].
  - rewrite Htk. apply elem_of_seq. lia.
  - unfold worker_futures in Hin. rewrite Hws in Hin.
    by apply elem_of_nil in Hin.
Qed.

Lemma returned_quiet s w0 p w r :
  NoDup (tasks s) ->
  (forall t, t ∈ tasks s -> is_Some (heap_tasks w0 !! t)) ->
  (forall t, t ∈ tasks s -> quiet_observers w0 t) ->
  (forall t e, io_fault w0 t = Some e -> is_Exception e = true) ->
  reachable s w0 (p, w) -> main p = MReturned r ->
  r = None
  /\ forall k t, tasks s !! k = Some t ->
       futures p !! k = Some None
       /\ status_of w t = Some (final_status (io_fault w0 t)).
Proof.
  intros Hnd Hex Hquiet Hexn Hreach Hmain.
  destruct (returned_all_done s w0 p w r Hnd Hex Hreach Hmain) as [Htk Hfut].
  destruct (reachable_quiet s w0 (p, w) Hnd Hex Hquiet Hexn Hreach)
    as [_ Hqf]. simpl in Hqf.
  destruct (reachable_fifo s w0 (p, w) Hreach) as [_ _ _ _ _ _ Hdone _].
  destruct (reachable_inv s w0 (p, w) Hnd Hex Hreach) as [_ _ Hmok _ _ _].
  simpl in *. rewrite Hmain in Hmok. simpl in Hmok.
  split.
  - destruct r as [e|]; [|done]. destruct Hmok as (j & Hj & _).
    destruct (lookup_lt_is_Some_2 (tasks s) j) as [t Ht].
    { assert (Hin : j ∈ taken p) by (apply Hdone; by eexists).
      rewrite Htk in Hin. apply elem_of_seq in Hin. lia. }
    by destruct (Hqf j t (Some e) Ht Hj).
  - intros k t Hk.
    destruct (Hfut k) as [r' Hr']; [by apply lookup_lt_Some in Hk|].
    destruct (Hqf k t r' Hk Hr') as [-> Hst]. by split.
Qed.

(** The events that name a task watched by one logger, for a [run] on
    its own, when the standard output takes every line. *)
Lemma run_events_one_logger t tk l w :
  heap_tasks w !! t = Some tk ->
  _observers tk = [l] ->
  heap_obs w !! l = Some TaskLogger ->
  (forall line, stdout_fault w line = None) ->
  (forall e, sleep_fault w t = Some e -> is_Exception e = true) ->
  let st := final_status (sleep_fault w t) in
  task_events t (events_since w (run t w).2)
  = [EvStatus t (status tk) "Running"; EvUpdate l t (status tk) "Running";
     EvStatus t "Running" st; EvUpdate l t "Running" st].
Proof.
  intros Ht Hobs Hl Hout Hexn st. subst st.
  assert (Hq : quiet_observers w t).
  { intros tk' o Ht' Ho. assert (tk' = tk) as -> by congruence.
    rewrite Hobs in Ho. apply list_elem_of_singleton in Ho as ->.
    exists TaskLogger. split; [done|].
    intros t0 tk0 a b. simpl. by rewrite Hout. }
  rewrite (run_eq t tk w Ht).
  rewrite (run_class_quiet_events t tk w Ht Hq).
  rewrite Hobs, Hout.
  assert (Hn : forall s0 a b,
    task_events t (notify_events (put_task t (with_status s0 tk) w) t a b [l])
    = [EvUpdate l t a b]).
  { intros s0 a b. unfold notify_events, notified, obs_raises, update_events.
    simpl. rewrite Hl, lookup_insert_eq. simpl. rewrite Hout. simpl.
    unfold task_events. rewrite filter_cons. simpl.
    by rewrite bool_decide_eq_true_2 by done. }
  assert (Hs : forall a b evs,
    task_events t (EvStatus t a b :: evs) = EvStatus t a b :: task_events t evs).
  { intros a b evs. unfold task_events. rewrite filter_cons. simpl.
    by rewrite bool_decide_eq_true_2 by done. }
  destruct (sleep_fault w t) as [e|] eqn:Hio.
  - rewrite (Hexn e eq_refl). cbv beta iota zeta.
    by rewrite task_events_app, !Hs, !Hn.
  - cbv beta iota zeta. by rewrite !task_events_app, !Hs, !Hn.
Qed.

(** X13.  The demonstration from end to end, for any list of
    descriptions that have the three fields and a known type, on a
    standard output that takes every line, when no exception outside
    class [Exception] interrupts a sleep: the set-up makes the
    scheduler and the opening line is printed; [run_all] returns
    normally, so that the closing line is printed; and in the store
    that [run_all] leaves, on every schedule, every task is Completed,
    or Failed if its sleep was interrupted, after exactly two status
    changes, each reported once to the logger: from Pending to Running
    and from Running to the final status. *)
Theorem demo_runs_every_task ds xs w :
  Forall2 describes ds xs ->
  (forall line, stdout_fault w line = None) ->
  (forall t e, sleep_fault w t = Some e -> is_Exception e = true) ->
  exists s w1,
    let all_done w2 :=
      forall t, t ∈ tasks s ->
        let st := final_status (sleep_fault w t) in
        status_of w2 t = Some st
        /\ task_events t (events_since w1 w2)
           = [EvStatus t "Pending" "Running";
              EvUpdate (logger s) t "Pending" "Running";
              EvStatus t "Running" st;
              EvUpdate (logger s) t "Running" st] in
    demo_start ds w = (Ok s, w1)
    /\ length (tasks s) = length ds
    /\ events_since w w1 = [EvPrint "=== Starting Task Scheduler ==="]
    /\ (exists w2,
          run_all (pool_measure s (init_pool, w1)) s w1 = Some (None, w2)
          /\ all_done w2
          /\ demo_finish None w2
             = (Ok tt, emit [EvPrint "=== All Tasks Finished ==="] w2))
    /\ forall p w2 r,
         reachable s w1 (p, w2) -> main p = MReturned r ->
         r = None /\ all_done w2.
Proof.
  intros Hds Hout Hexn.
  set (l := fresh (dom (heap_obs w))).
  destruct (add_all_builds ds xs Hds (mkScheduler [] l) (put_obs l TaskLogger w))
    as (ts & w0 & Hrun & Hnd & _ & Hall & _ & Ho & _ & [Hsl Hst] & Htr).
  simpl in *.
  set (s := mkScheduler ts l).
  set (w1 := emit [EvPrint "=== Starting Task Scheduler ==="] w0).
  assert (Hstart : demo_start ds w = (Ok s, w1)).
  { unfold demo_start, demo_setup, bind, TaskScheduler_init. cbv beta zeta.
    fold l. rewrite Hrun. unfold print. by rewrite Hst, Hout. }
  assert (Htask : forall t, t ∈ ts ->
            exists x, heap_tasks w1 !! t = Some (added_task l (now w) x)).
  { intros t [k Hk]%list_elem_of_lookup_1.
    destruct (Forall2_lookup_l _ _ _ _ _ Hall Hk) as (x & _ & Hx). by exists x. }
  assert (Hlog : heap_obs w1 !! l = Some TaskLogger).
  { simpl. rewrite Ho. apply lookup_insert_eq. }
  assert (Hout1 : forall line, stdout_fault w1 line = None).
  { intros line. simpl. by rewrite Hst. }
  assert (Hex : forall t, t ∈ tasks s -> is_Some (heap_tasks w1 !! t)).
  { intros t Ht. destruct (Htask t Ht) as [x Hx]. by eexists. }
  assert (Hq : forall t, t ∈ tasks s -> quiet_observers w1 t).
  { intros t Ht tk o Htk Hin. destruct (Htask t Ht) as [x Hx].
    assert (tk = added_task l (now w) x) as -> by congruence.
    simpl in Hin. apply list_elem_of_singleton in Hin as ->.
    exists TaskLogger. split; [done|].
    intros t0 tk0 a b. simpl. by rewrite Hst, Hout. }
  assert (Hio1 : forall t, io_fault w1 t = sleep_fault w t).
  { intros t. unfold io_fault. simpl. rewrite Hsl.
    destruct (sleep_fault w t); [done|].
    destruct (heap_tasks w0 !! t); [|done]. by rewrite Hst, Hout. }
  assert (Hexn1 : forall t e, io_fault w1 t = Some e -> is_Exception e = true).
  { intros t e. rewrite Hio1. apply Hexn. }
  assert (Hfin : forall p w2 r,
    reachable s w1 (p, w2) -> main p = MReturned r ->
    r = None
    /\ forall t, t ∈ tasks s ->
         let st := final_status (sleep_fault w t) in
         status_of w2 t = Some st
         /\ task_events t (events_since w1 w2)
            = [EvStatus t "Pending" "Running";
               EvUpdate (logger s) t "Pending" "Running";
               EvStatus t "Running" st;
               EvUpdate (logger s) t "Running" st]).
  { intros p w2 r Hreach Hmain.
    destruct (returned_quiet s w1 p w2 r Hnd Hex Hq Hexn1 Hreach Hmain)
      as [-> Hdone].
    split; [done|]. intros t Ht st.
    pose proof Ht as [k Hk]%list_elem_of_lookup_1.
    destruct (Hdone k t Hk) as [Hf Hstat].
    destruct (Htask t Ht) as [x Hx].
    destruct (reachable_finished s w1 p w2 k t _ None Hnd Hreach Hk Hx Hf)
      as (_ & _ & Hev).
    subst st. rewrite <- Hio1. split; [done|].
    rewrite Hev, Hio1.
    replace (sleep_fault w t) with (sleep_fault w1 t) by (simpl; by rewrite Hsl).
    apply (run_events_one_logger t (added_task l (now w) x) l w1 Hx eq_refl
             Hlog Hout1).
    intros e He. apply (Hexn t e). simpl in He. by rewrite Hsl in He. }
  exists s, w1. split_and!; [done| | | |done].
  - simpl. apply Forall2_length in Hall, Hds. congruence.
  - apply events_since_trace. simpl. by rewrite Htr.
  - destruct (run_all_returns s w1) as (r & w2 & p & Hra & Hreach & Hmain).
    destruct (Hfin p w2 r Hreach Hmain) as [-> Hdone].
    exists w2. split_and!; [done|done|].
    destruct (reachable_keeps s w1 (p, w2) Hreach) as ((_ & [_ Hst2] & _) & _).
    cbn [snd] in Hst2. unfold demo_finish, print. by rewrite Hst2, Hout1.
Qed.

Lemma demo_runs_every_task_witness :
  Forall2 describes demo_input demo_specs
  /\ exists s w1,
       demo_start demo_input empty_world = (Ok s, w1)
       /\ exists w2,
            run_all (pool_measure s (init_pool, w1)) s w1 = Some (None, w2)
            /\ forall t, t ∈ tasks s -> status_of w2 t = Some "Completed".
Proof.
  assert (H : Forall2 describes demo_input demo_specs).
  { repeat constructor; vm_compute; reflexivity. }
  split; [exact H|].
  destruct (demo_runs_every_task demo_input demo_specs empty_world H)
    as (s & w1 & Hset & _ & _ & (w2 & Hrun & Hdone & _) & _).
  - done.
  - intros t e. discriminate.
  - exists s, w1. split; [done|]. exists w2. split; [done|].
    intros t Ht. by destruct (Hdone t Ht) as [Hst _].
Defined.

(** ** What [run_all] raises, and what it leaves *)

Lemma result_of_inj r r' : result_of r = result_of r' -> r = r'.
Proof. destruct r, r'; simpl; congruence. Qed.

(** When [run_all] has returned, the future of each task holds the
    outcome of a [run] on its own, and there are no other futures. *)
Lemma returned_futures s w0 p w r :
  NoDup (tasks s) ->
  (forall t, t ∈ tasks s -> is_Some (heap_tasks w0 !! t)) ->
  reachable s w0 (p, w) -> main p = MReturned r ->
  (forall k t, tasks s !! k = Some t ->
     exists r', futures p !! k = Some r'
       /\ (run t w0).1 = result_of r'
       /\ heap_tasks w !! t = heap_tasks (run t w0).2 !! t
       /\ task_events t (events_since w0 w)
          = task_events t (events_since w0 (run t w0).2))
  /\ (forall k, length (tasks s) <= k -> futures p !! k = None)
  /\ main_ok (length (tasks s)) (MReturned r) (futures p).
Proof.
  intros Hnd Hex Hreach Hmain.
  destruct (returned_all_done s w0 p w r Hnd Hex Hreach Hmain) as [Htk Hfut].
  destruct (reachable_fifo s w0 (p, w) Hreach) as [_ _ _ _ _ _ Hdone _].
  destruct (reachable_inv s w0 (p, w) Hnd Hex Hreach) as [_ _ Hmok _ _ _].
  simpl in *. rewrite Hmain in Hmok. split_and!; [| |done].
  - intros k t Hk.
    destruct (Hfut k) as [r' Hr']; [by apply lookup_lt_Some in Hk|].
    destruct (Hex t) as [tk Ht]; [by eapply list_elem_of_lookup_2|].
    exists r'. split; [done|]. by eapply reachable_finished.
  - intros k Hk. destruct (futures p !! k) as [x|] eqn:Hf; [|done].
    assert (Hin : k ∈ taken p) by (apply Hdone; by eexists).
    rewrite Htk in Hin. apply elem_of_seq in Hin. lia.
Qed.

(** X11.  What [run_all] raises does not depend on which [run] failed first in
    time.  For a scheduler whose tasks are distinct objects, on every
    schedule: [run_all] returns normally exactly when the [run] of
    every task, called on its own in the store in which [run_all] was
    called, returns; otherwise it raises what the first task in the
    order of the list whose [run] raises, raises. *)
Theorem run_all_raises_first_failure s w0 p w r :
  NoDup (tasks s) ->
  Forall (fun t => is_Some (heap_tasks w0 !! t)) (tasks s) ->
  reachable s w0 (p, w) -> main p = MReturned r ->
  match r with
  | None => forall t, t ∈ tasks s -> (run t w0).1 = Ok tt
  | Some e =>
      exists j t,
        tasks s !! j = Some t
        /\ (run t w0).1 = Raise e
        /\ forall i t', i < j -> tasks s !! i = Some t' -> (run t' w0).1 = Ok tt
  end.
Proof.
  intros Hnd Hex Hreach Hmain. rewrite Forall_forall in Hex.
  destruct (returned_futures s w0 p w r Hnd Hex Hreach Hmain)
    as (Hsolo & Hout & Hmok).
  assert (Hok : forall i t', tasks s !! i = Some t' ->
            futures p !! i = Some None -> (run t' w0).1 = Ok tt).
  { intros i t' Hi Hf. destruct (Hsolo i t' Hi) as (r' & Hr' & Hrun & _).
    rewrite Hrun. by assert (r' = None) as -> by congruence. }
  destruct r as [e|]; simpl in Hmok.
  - destruct Hmok as (j & Hj & Hlt).
    destruct (lookup_lt_is_Some_2 (tasks s) j) as [t Ht].
    { destruct (decide (j < length (tasks s))) as [|Hge]; [done|].
      rewrite Hout in Hj by lia. discriminate. }
    exists j, t. split_and!; [done| |].
    + destruct (Hsolo j t Ht) as (r' & Hr' & Hrun & _).
      rewrite Hrun. by assert (r' = Some e) as -> by congruence.
    + intros i t' Hi Ht'. apply (Hok i t' Ht'). by apply Hlt.
  - intros t [k Hk]%list_elem_of_lookup_1. apply (Hok k t Hk).
    apply Hmok. by apply lookup_lt_Some in Hk.
Qed.

Lemma run_all_raises_first_failure_witness :
  let c := pool_exec 200 demo_scheduler (init_pool, spoiled_world) in
  NoDup (tasks demo_scheduler)
  /\ Forall (fun t => is_Some (heap_tasks spoiled_world !! t))
            (tasks demo_scheduler)
  /\ reachable demo_scheduler spoiled_world c
  /\ exists e, main c.1 = MReturned (Some e)
       /\ exists j t, tasks demo_scheduler !! j = Some t
                      /\ (run t spoiled_world).1 = Raise e.
Proof.
  intros c.
  assert (Hnd : NoDup (tasks demo_scheduler)) by compute_done.
  assert (Hex : Forall (fun t => is_Some (heap_tasks spoiled_world !! t))
                  (tasks demo_scheduler)) by compute_done.
  assert (Hr : reachable demo_scheduler spoiled_world c)
    by apply pool_exec_reachable, rtc_refl.
  assert (Hm : exists e, main c.1 = MReturned (Some e))
    by (eexists; vm_compute; reflexivity).
  split_and!; [done|done|done|].
  destruct Hm as [e Hm]. exists e. split; [done|].
  destruct c as [p w].
  destruct (run_all_raises_first_failure demo_scheduler spoiled_world p w
              (Some e) Hnd Hex Hr Hm) as (j & t & Hj & Hrun & _).
  by exists j, t.
Defined.

(** X12.  The schedule decides nothing but the order of the trace.  For
    a scheduler whose tasks are distinct objects, with observers that
    keep to their contract (what [update] does depends on its arguments
    only), any two executions of [run_all] from the same store end with
    the same outcome, the same futures and the same tasks; the events
    of one, the sleeps and the printed lines among them, are those of
    the other in another order; and for each task the status writes and
    [update] calls are the same in the same order. *)
Theorem run_all_schedule_independent s w0 p1 w1 r1 p2 w2 r2 :
  NoDup (tasks s) ->
  Forall (fun t => is_Some (heap_tasks w0 !! t)) (tasks s) ->
  reachable s w0 (p1, w1) -> main p1 = MReturned r1 ->
  reachable s w0 (p2, w2) -> main p2 = MReturned r2 ->
  r1 = r2
  /\ futures p1 = futures p2
  /\ heap_tasks w1 = heap_tasks w2
  /\ events_since w0 w1 ≡ₚ events_since w0 w2
  /\ forall t, t ∈ tasks s ->
       task_events t (events_since w0 w1) = task_events t (events_since w0 w2).
Proof.
  intros Hnd Hex Hr1 Hm1 Hr2 Hm2. rewrite Forall_forall in Hex.
  destruct (returned_futures s w0 p1 w1 r1 Hnd Hex Hr1 Hm1)
    as (Hs1 & Ho1 & Hk1).
  destruct (returned_futures s w0 p2 w2 r2 Hnd Hex Hr2 Hm2)
    as (Hs2 & Ho2 & Hk2).
  destruct (reachable_keeps s w0 (p1, w1) Hr1) as (_ & _ & Hout1).
  destruct (reachable_keeps s w0 (p2, w2) Hr2) as (_ & _ & Hout2).
  simpl in *.
  assert (Hfs : futures p1 = futures p2).
  { apply map_eq. intros k.
    destruct (decide (k < length (tasks s))) as [Hlt|Hge].
    - destruct (lookup_lt_is_Some_2 (tasks s) k Hlt) as [t Ht].
      destruct (Hs1 k t Ht) as (x1 & -> & Hx1 & _).
      destruct (Hs2 k t Ht) as (x2 & -> & Hx2 & _).
      f_equal. apply result_of_inj. congruence.
    - rewrite Ho1, Ho2 by lia. done. }
  assert (Hall : forall p w,
    (forall k t, tasks s !! k = Some t -> exists r', futures p !! k = Some r'
        /\ (run t w0).1 = result_of r'
        /\ heap_tasks w !! t = heap_tasks (run t w0).2 !! t
        /\ task_events t (events_since w0 w)
           = task_events t (events_since w0 (run t w0).2)) ->
    forall k, k < length (tasks s) -> is_Some (futures p !! k)).
  { intros p w Hs k Hlt.
    destruct (lookup_lt_is_Some_2 (tasks s) k Hlt) as [t Ht].
    destruct (Hs k t Ht) as (x & Hx & _). by exists x. }
  split_and!; [|done| | |].
  3: { rewrite (finished_events s w0 p1 w1 Hnd Hex Hr1 (Hall p1 w1 Hs1)).
       by rewrite (finished_events s w0 p2 w2 Hnd Hex Hr2 (Hall p2 w2 Hs2)). }
  - rewrite <- Hfs in Hk2.
    assert (Hlast : forall e j, futures p1 !! j = Some (Some e) ->
              j < length (tasks s)).
    { intros e j Hj. destruct (decide (j < length (tasks s))) as [|Hge]; [done|].
      rewrite Ho1 in Hj by lia. discriminate. }
    destruct r1 as [e1|], r2 as [e2|]; simpl in *; [| | |done].
    + destruct Hk1 as (j1 & Hj1 & Hlt1). destruct Hk2 as (j2 & Hj2 & Hlt2).
      destruct (decide (j1 < j2)) as [Hlt|Hge].
      { rewrite (Hlt2 j1 Hlt) in Hj1. discriminate. }
      destruct (decide (j2 < j1)) as [Hlt|Hge'].
      { rewrite (Hlt1 j2 Hlt) in Hj2. discriminate. }
      assert (j1 = j2) as -> by lia. congruence.
    + destruct Hk1 as (j1 & Hj1 & _).
      rewrite (Hk2 j1) in Hj1 by (by eapply Hlast). discriminate.
    + destruct Hk2 as (j2 & Hj2 & _).
      rewrite (Hk1 j2) in Hj2 by (by eapply Hlast). discriminate.
  - apply map_eq. intros t.
    destruct (decide (t ∈ tasks s)) as [[k Hk]%list_elem_of_lookup_1|Hnin].
    + destruct (Hs1 k t Hk) as (_ & _ & _ & -> & _).
      by destruct (Hs2 k t Hk) as (_ & _ & _ & -> & _).
    + by rewrite Hout1, Hout2.
  - intros t [k Hk]%list_elem_of_lookup_1.
    destruct (Hs1 k t Hk) as (_ & _ & _ & _ & ->).
    by destruct (Hs2 k t Hk) as (_ & _ & _ & _ & ->).
Qed.

Lemma run_all_schedule_independent_witness :
  let c1 := pool_exec 200 demo_scheduler (init_pool, demo_world) in
  let c2 := pool_run demo_scheduler
              (replicate 6 Main ++ replicate 4 Take
               ++ concat (replicate 12 [Worker 3; Worker 2; Worker 1; Worker 0])
               ++ replicate 4 (Worker 0) ++ replicate 6 Main)
              (init_pool, demo_world) in
  NoDup (tasks demo_scheduler)
  /\ Forall (fun t => is_Some (heap_tasks demo_world !! t))
            (tasks demo_scheduler)
  /\ reachable demo_scheduler demo_world c1 /\ main c1.1 = MReturned None
  /\ reachable demo_scheduler demo_world c2 /\ main c2.1 = MReturned None
  /\ trace c1.2 <> trace c2.2
  /\ trace c1.2 ≡ₚ trace c2.2.
Proof.
  intros c1 c2.
  assert (Hnd : NoDup (tasks demo_scheduler)) by compute_done.
  assert (Hex : Forall (fun t => is_Some (heap_tasks demo_world !! t))
                  (tasks demo_scheduler)) by compute_done.
  assert (Hr1 : reachable demo_scheduler demo_world c1)
    by apply pool_exec_reachable, rtc_refl.
  assert (Hr2 : reachable demo_scheduler demo_world c2)
    by apply pool_run_reachable, rtc_refl.
  assert (Hm1 : main c1.1 = MReturned None) by (vm_compute; reflexivity).
  assert (Hm2 : main c2.1 = MReturned None) by (vm_compute; reflexivity).
  assert (Htr : trace c1.2 <> trace c2.2) by (vm_compute; discriminate).
  split_and!; [done..|].
  destruct c1 as [p1 w1], c2 as [p2 w2].
  exact (proj1 (proj2 (proj2 (proj2 (run_all_schedule_independent
           demo_scheduler demo_world p1 w1 None p2 w2 None
           Hnd Hex Hr1 Hm1 Hr2 Hm2))))).
Defined.
